(** * Handwritten-Text-Recognition-Application: the conversion pipeline of main.py

    A shallow embedding of [check_file_access], [OCRProcessor.process_image],
    [OCRProcessor.save_to_pdf] and [OCRProcessor.calculate_similarity],
    together with the part of Python's [difflib.SequenceMatcher] that
    [calculate_similarity] runs, and the properties stated for them. *)

From Stdlib Require Import QArith Qcanon Ascii Floats Uint63.
From stdpp Require Import gmap strings list list_numbers sorting.

Local Open Scope Z_scope.

(** ** difflib.SequenceMatcher, as called by [calculate_similarity]

    [calculate_similarity] builds [SequenceMatcher(None, text1, text2)]: no
    junk predicate, and the default [autojunk=True].  Sequences are lists over
    any hashable element type; indices are Python integers ([Z]); the two
    dictionaries [b2j] and [j2len] are finite maps. *)

Module Difflib.

Section SequenceMatcher.
Context `{Countable A}.

(** A block [(i, j, k)]: [a[i:i+k] == b[j:j+k]]. *)
Definition Match : Type := Z * Z * Z.

Definition size_of (m : Match) : Z := m.2.

(** [s[i]] for an index that is in range; reads outside [0 <= i < len(s)]
    are never made by the matcher (every index it uses lies inside the
    window it was given) and get no element here. *)
Definition getitem (s : list A) (i : Z) : option A :=
  if bool_decide (0 ≤ i) then s !! Z.to_nat i else None.

(** [a[i] == b[j]] *)
Definition same_elt (a b : list A) (i j : Z) : bool :=
  match getitem a i, getitem b j with
  | Some x, Some y => bool_decide (x = y)
  | _, _ => false
  end.

(** [enumerate(b)] *)
Definition enumerate (b : list A) : list (Z * A) :=
  zip (seqZ 0 (Z.of_nat (length b))) b.

(** First loop of [__chain_b]:
    [for i, elt in enumerate(b): b2j.setdefault(elt, []).append(i)]. *)
Definition chain_step (b2j : gmap A (list Z)) (ie : Z * A) : gmap A (list Z) :=
  <[ie.2 := default [] (b2j !! ie.2) ++ [ie.1]]> b2j.

Definition index_b (b : list A) : gmap A (list Z) :=
  foldl chain_step ∅ (enumerate b).

(** The popular elements: with [autojunk] and [len(b) >= 200], every
    element whose index list is longer than [len(b) // 100 + 1]. *)
Definition popular_of (b : list A) (b2j : gmap A (list Z)) : gset A :=
  let n := Z.of_nat (length b) in
  if bool_decide (200 ≤ n) then
    let ntest := n `div` 100 + 1 in
    dom (filter (λ kv : A * list Z, ntest < Z.of_nat (length kv.2)) b2j)
  else ∅.

Record SequenceMatcher : Type := {
  sm_a : list A;
  sm_b : list A;
  b2j : gmap A (list Z);
  bjunk : gset A;
  bpopular : gset A
}.

(** [SequenceMatcher(None, a, b)]: [set_seqs] followed by [__chain_b] with
    [isjunk = None] (so the junk set stays empty) and [autojunk = True]. *)
Definition new (a b : list A) : SequenceMatcher :=
  let idx := index_b b in
  let popular := popular_of b idx in
  {| sm_a := a;
     sm_b := b;
     b2j := filter (λ kv : A * list Z, kv.1 ∉ popular) idx;
     bjunk := ∅;
     bpopular := popular |}.

Section find_longest_match.
Variable s : SequenceMatcher.

Definition isbjunk (x : option A) : bool :=
  match x with
  | Some e => bool_decide (e ∈ bjunk s)
  | None => false
  end.

(** [b2j.get(a[i], nothing)] *)
Definition b2j_get (i : Z) : list Z :=
  match getitem (sm_a s) i with
  | Some e => default [] (b2j s !! e)
  | None => []
  end.

(** The inner [for j in ...] loop of one row: [continue] below [blo],
    [break] at [bhi]. State: the best block so far and [newj2len]. *)
Fixpoint row_loop (j2len : gmap Z Z) (i blo bhi : Z) (js : list Z)
    (st : Match * gmap Z Z) : Match * gmap Z Z :=
  match js with
  | [] => st
  | j :: js' =>
      if bool_decide (j < blo) then row_loop j2len i blo bhi js' st
      else if bool_decide (bhi ≤ j) then st
      else
        let '(besti, bestj, bestsize, newj2len) := st in
        let k := default 0 (j2len !! (j - 1)) + 1 in
        let best' :=
          if bool_decide (bestsize < k) then (i - k + 1, j - k + 1, k)
          else (besti, bestj, bestsize) in
        row_loop j2len i blo bhi js' (best', <[j := k]> newj2len)
  end.

(** One iteration of [for i in range(alo, ahi)]. *)
Definition row (blo bhi : Z) (st : Match * gmap Z Z) (i : Z)
    : Match * gmap Z Z :=
  row_loop st.2 i blo bhi (b2j_get i) (st.1, ∅).

Definition scan (alo ahi blo bhi : Z) : Match * gmap Z Z :=
  foldl (row blo bhi) ((alo, blo, 0), ∅) (seqZ alo (ahi - alo)).

(** The conditions of the four [while] loops: the first pair of loops
    takes elements that are not junk ([junk = false]), the second pair
    takes junk ([junk = true]). *)
Definition can_extend_left (junk : bool) (alo blo : Z) (m : Match) : bool :=
  let '(besti, bestj, bestsize) := m in
  bool_decide (alo < besti) && bool_decide (blo < bestj)
  && bool_decide (isbjunk (getitem (sm_b s) (bestj - 1)) = junk)
  && same_elt (sm_a s) (sm_b s) (besti - 1) (bestj - 1).

Definition can_extend_right (junk : bool) (ahi bhi : Z) (m : Match) : bool :=
  let '(besti, bestj, bestsize) := m in
  bool_decide (besti + bestsize < ahi) && bool_decide (bestj + bestsize < bhi)
  && bool_decide (isbjunk (getitem (sm_b s) (bestj + bestsize)) = junk)
  && same_elt (sm_a s) (sm_b s) (besti + bestsize) (bestj + bestsize).

(** The loops themselves. A loop cannot run more often than its first
    conjunct allows, which is the bound given to the recursion. *)
Fixpoint extend_left (junk : bool) (alo blo : Z) (n : nat) (m : Match) : Match :=
  match n with
  | O => m
  | S n' =>
      if can_extend_left junk alo blo m
      then extend_left junk alo blo n' (m.1.1 - 1, m.1.2 - 1, m.2 + 1)
      else m
  end.

Fixpoint extend_right (junk : bool) (ahi bhi : Z) (n : nat) (m : Match) : Match :=
  match n with
  | O => m
  | S n' =>
      if can_extend_right junk ahi bhi m
      then extend_right junk ahi bhi n' (m.1.1, m.1.2, m.2 + 1)
      else m
  end.

Definition left_room (alo : Z) (m : Match) : nat := Z.to_nat (m.1.1 - alo).
Definition right_room (ahi : Z) (m : Match) : nat :=
  Z.to_nat (ahi - (m.1.1 + m.2)).

Definition find_longest_match (alo ahi blo bhi : Z) : Match :=
  let m0 := (scan alo ahi blo bhi).1 in
  let m1 := extend_left false alo blo (left_room alo m0) m0 in
  let m2 := extend_right false ahi bhi (right_room ahi m1) m1 in
  let m3 := extend_left true alo blo (left_room alo m2) m2 in
  extend_right true ahi bhi (right_room ahi m3) m3.

(** The body of [while queue:] in [get_matching_blocks]; the queue is a
    Python list used as a stack ([pop] takes the last element, here the
    head). The loop is run with a step budget; [queue_budget] below is
    enough for it to drain the queue. *)
Definition Window : Type := Z * Z * Z * Z.

Fixpoint blocks_loop (fuel : nat) (queue : list Window)
    (matching_blocks : list Match) : option (list Match) :=
  match queue with
  | [] => Some matching_blocks
  | (alo, ahi, blo, bhi) :: queue' =>
      match fuel with
      | O => None
      | S fuel' =>
          let '(i, j, k) := find_longest_match alo ahi blo bhi in
          if bool_decide (k = 0) then blocks_loop fuel' queue' matching_blocks
          else
            let q1 :=
              if bool_decide (alo < i) && bool_decide (blo < j)
              then (alo, i, blo, j) :: queue' else queue' in
            let q2 :=
              if bool_decide (i + k < ahi) && bool_decide (j + k < bhi)
              then (i + k, ahi, j + k, bhi) :: q1 else q1 in
            blocks_loop fuel' q2 (matching_blocks ++ [(i, j, k)])
      end
  end.
End find_longest_match.

(** Tuple comparison, for [matching_blocks.sort()]. *)
Definition Match_le (x y : Match) : Prop :=
  x.1.1 < y.1.1 ∨ (x.1.1 = y.1.1 ∧ (x.1.2 < y.1.2 ∨ (x.1.2 = y.1.2 ∧ x.2 ≤ y.2))).

Global Instance Match_le_dec : RelDecision Match_le.
Proof. intros x y. unfold Match_le. apply _. Defined.

(** The collapsing loop: [(i1, j1, k1)] absorbs adjacent blocks. *)
Fixpoint collapse (cur : Match) (blocks non_adjacent : list Match) : list Match :=
  let '(i1, j1, k1) := cur in
  match blocks with
  | [] => if bool_decide (k1 = 0) then non_adjacent else non_adjacent ++ [cur]
  | (i2, j2, k2) :: rest =>
      if bool_decide (i1 + k1 = i2) && bool_decide (j1 + k1 = j2)
      then collapse (i1, j1, k1 + k2) rest non_adjacent
      else collapse (i2, j2, k2) rest
             (if bool_decide (k1 = 0) then non_adjacent else non_adjacent ++ [cur])
  end.

Definition queue_budget (s : SequenceMatcher) : nat :=
  S (2 * length (sm_a s)).

Definition get_matching_blocks (s : SequenceMatcher) : option (list Match) :=
  let la := Z.of_nat (length (sm_a s)) in
  let lb := Z.of_nat (length (sm_b s)) in
  blocks ← blocks_loop s (queue_budget s) [(0, la, 0, lb)] [];
  Some (collapse (0, 0, 0) (merge_sort Match_le blocks) [] ++ [(la, lb, 0)]).

(** [sum(triple[-1] for triple in self.get_matching_blocks())] *)
Definition matches (s : SequenceMatcher) : option Z :=
  blocks ← get_matching_blocks s;
  Some (foldr Z.add 0 (size_of <$> blocks)).

(** [_calculate_ratio]; the float quotient is kept as an exact rational. *)
Definition _calculate_ratio (matches length : Z) : Qc :=
  if bool_decide (length = 0) then 1%Qc
  else (Qc_of_Z 2 * Qc_of_Z matches / Qc_of_Z length)%Qc.

Definition ratio (s : SequenceMatcher) : option Qc :=
  m ← matches s;
  Some (_calculate_ratio m (Z.of_nat (length (sm_a s)) + Z.of_nat (length (sm_b s)))).
End SequenceMatcher.

Global Arguments SequenceMatcher A {_ _}.

End Difflib.

(** ** OCRProcessor.calculate_similarity *)

Definition calculate_similarity `{Countable A} (text1 text2 : list A) : option Qc :=
  r ← Difflib.ratio (Difflib.new text1 text2);
  Some (r * Qc_of_Z 100)%Qc.

(** ** The reference algorithm: longest common block, then both remainders

    Written from the description of the scoring: find the longest common
    contiguous run of the two texts, recurse on what is left of both texts
    before the run and on what is left after it, add up the lengths, and take
    [2 * matched / (len(reference) + len(candidate))]. Among equally long
    runs the one starting earliest in the reference, then earliest in the
    candidate, is taken. *)

Module Grid.
(** The pairs [(i, j)] with [alo <= i < ahi] and [blo <= j < bhi], row by row. *)
Definition cells (alo ahi blo bhi : Z) : list (Z * Z) :=
  i ← seqZ alo (ahi - alo); (λ j, (i, j)) <$> seqZ blo (bhi - blo).

(** Row-major order on cells. *)
Definition cell_lt (c c' : Z * Z) : Prop :=
  c.1 < c'.1 ∨ (c.1 = c'.1 ∧ c.2 < c'.2).
End Grid.

Module Reference.
Import Grid.

Section reference.
Context `{EqDecision A}.

(** [s[:i]] and [s[i:]] *)
Definition upto (s : list A) (i : Z) : list A := take (Z.to_nat i) s.
Definition from (s : list A) (i : Z) : list A := drop (Z.to_nat i) s.

(** Number of leading positions on which two texts agree. *)
Fixpoint prefix_len (xs ys : list A) : Z :=
  match xs, ys with
  | x :: xs', y :: ys' => if decide (x = y) then 1 + prefix_len xs' ys' else 0
  | _, _ => 0
  end.

(** Length of the common run that starts at [a[i]] and [b[j]]. *)
Definition run_at (a b : list A) (i j : Z) : Z :=
  prefix_len (from a i) (from b j).

(** The longest common contiguous run [(i, j, k)]: [a[i:i+k] == b[j:j+k]]
    with [k] largest; [(0, 0, 0)] when the texts share nothing. *)
Definition longest_common_run (a b : list A) : Z * Z * Z :=
  foldl (λ best c,
           let k := run_at a b c.1 c.2 in
           if bool_decide (best.2 < k) then (c.1, c.2, k) else best)
        (0, 0, 0)
        (cells 0 (Z.of_nat (length a)) 0 (Z.of_nat (length b))).

(** Matched characters: the run, plus the matches to its left, plus the
    matches to its right. Every level removes at least one character of
    [a], which bounds the depth by [len(a)]. *)
Fixpoint matched_upto (depth : nat) (a b : list A) : Z :=
  match depth with
  | O => 0
  | S depth' =>
      let '(i, j, k) := longest_common_run a b in
      if bool_decide (k = 0) then 0
      else k + matched_upto depth' (upto a i) (upto b j)
             + matched_upto depth' (from a (i + k)) (from b (j + k))
  end.

Definition matched (a b : list A) : Z := matched_upto (length a) a b.

(** The same description without a rule for ties: [common_run a b i j k]
    says [a[i:i+k] == b[j:j+k]], and [matched_by_choice a b m] says that
    [m] is the total obtained by taking, at every level, some longest
    common run. *)
Definition common_run (a b : list A) (i j k : Z) : Prop :=
  0 ≤ i ∧ 0 ≤ j ∧ 0 ≤ k ∧
  i + k ≤ Z.of_nat (length a) ∧ j + k ≤ Z.of_nat (length b) ∧
  upto (from a i) k = upto (from b j) k.

Inductive matched_by_choice : list A → list A → Z → Prop :=
| nothing_in_common a b :
    (∀ i j k, common_run a b i j k → k = 0) →
    matched_by_choice a b 0
| around_a_longest_run a b i j k m1 m2 :
    0 < k → common_run a b i j k →
    (∀ i' j' k', common_run a b i' j' k' → k' ≤ k) →
    matched_by_choice (upto a i) (upto b j) m1 →
    matched_by_choice (from a (i + k)) (from b (j + k)) m2 →
    matched_by_choice a b (k + m1 + m2).

(** [2 * matched / (len(reference) + len(candidate))]; no value when both
    texts are empty (the quotient is [0 / 0]). *)
Definition ratio (reference candidate : list A) : option Qc :=
  let total := Z.of_nat (length reference) + Z.of_nat (length candidate) in
  if bool_decide (total = 0) then None
  else Some (Qc_of_Z 2 * Qc_of_Z (matched reference candidate) / Qc_of_Z total)%Qc.

Definition similarity (reference candidate : list A) : option Qc :=
  r ← ratio reference candidate; Some (r * Qc_of_Z 100)%Qc.
End reference.
End Reference.

(** ** Vocabulary for the matcher's behaviour *)

Module DifflibSpec.
Import Grid Difflib.

Section vocabulary.
Context `{Countable A}.

(** All positions of [e] in [b], in increasing order. *)
Definition positions (b : list A) (e : A) : list Z :=
  filter (λ j, getitem b j = Some e) (seqZ 0 (Z.of_nat (length b))).

(** [a[i]] and [b[j]] are the same element and that element is still a key
    of [b2j] (it is not popular). *)
Definition hit (s : SequenceMatcher A) (i j : Z) : bool :=
  match getitem (sm_a s) i with
  | Some e => bool_decide (e ∉ bpopular s) && bool_decide (getitem (sm_b s) j = Some e)
  | None => false
  end.

(** A matcher as [__chain_b] leaves it: no junk, and [b2j] lists, for every
    element that is not popular, all its positions in [b] in order. *)
Definition chained (s : SequenceMatcher A) : Prop :=
  bjunk s = ∅ ∧
  ∀ i, b2j_get s i = filter (λ j, hit s i j = true) (seqZ 0 (Z.of_nat (length (sm_b s)))).

(** Length of the run of hits that ends in cell [(i, j)] and stays inside
    the window starting at [(alo, blo)]: the value [j2len] holds for [j]
    after row [i]. *)
Fixpoint back (s : SequenceMatcher A) (alo blo : Z) (n : nat) (i j : Z) : Z :=
  match n with
  | O => 0
  | S n' =>
      if bool_decide (alo ≤ i) && bool_decide (blo ≤ j) && hit s i j
      then 1 + back s alo blo n' (i - 1) (j - 1)
      else 0
  end.

Definition run_len (s : SequenceMatcher A) (alo blo i j : Z) : Z :=
  back s alo blo (Z.to_nat (i - alo + 1)) i j.

(** Keeping the best block over a sequence of cells: a cell replaces the
    best so far only when its value [f] is strictly larger; [blk] makes the
    block out of the cell and its value. *)
Definition pick (blk : Z * Z → Z → Match) (f : Z → Z → Z)
    (best : Match) (c : Z * Z) : Match :=
  let k := f c.1 c.2 in
  if bool_decide (best.2 < k) then blk c k else best.

(** The block that ends in cell [c] / that starts in cell [c]. *)
Definition end_block (c : Z * Z) (k : Z) : Match := (c.1 - k + 1, c.2 - k + 1, k).
Definition start_block (c : Z * Z) (k : Z) : Match := (c.1, c.2, k).

(** The update of the best block at one cell, for a table [f] of run lengths. *)
Definition upd (f : Z → Z → Z) (best : Match) (c : Z * Z) : Match :=
  let k := f c.1 c.2 in
  if bool_decide (best.2 < k) then (c.1 - k + 1, c.2 - k + 1, k) else best.

(** One cell of the row loop, once the window tests have passed. *)
Definition cell (j2len : gmap Z Z) (i : Z) (st : Match * gmap Z Z) (j : Z)
    : Match * gmap Z Z :=
  let k := default 0 (j2len !! (j - 1)) + 1 in
  (if bool_decide (st.1.2 < k) then (i - k + 1, j - k + 1, k) else st.1,
   <[j := k]> st.2).

(** [k] consecutive hits starting at [(i, j)]. *)
Definition hit_run (s : SequenceMatcher A) (i j k : Z) : Prop :=
  ∀ d, 0 ≤ d < k → hit s (i + d) (j + d) = true.

(** [k] consecutive cells from [(i, j)] on which [h] holds. *)
Definition run_of (h : Z → Z → bool) (i j k : Z) : Prop :=
  ∀ d, 0 ≤ d < k → h (i + d) (j + d) = true.

(** A block lies in a window. *)
Definition in_window (w : Window) (m : Match) : Prop :=
  let '(alo, ahi, blo, bhi) := w in
  let '(i, j, k) := m in
  0 ≤ k ∧ alo ≤ i ∧ i + k ≤ ahi ∧ blo ≤ j ∧ j + k ≤ bhi.

(** [r] is the longest run of [h] inside window [w], and among the longest
    the first one row by row; with no run at all it is the empty block at
    the window's corner. *)
Definition longest_first (h : Z → Z → bool) (w : Window) (r : Match) : Prop :=
  in_window w r ∧
  run_of h r.1.1 r.1.2 r.2 ∧
  (r.2 = 0 → (r.1.1, r.1.2) = (w.1.1.1, w.1.2)) ∧
  ∀ i j k, in_window w (i, j, k) → run_of h i j k →
    k ≤ r.2 ∧ (k = r.2 → 0 < k → ¬ cell_lt (i, j) (r.1.1, r.1.2)).

(** [x[lo:hi]] *)
Definition slice (x : list A) (lo hi : Z) : list A :=
  drop (Z.to_nat lo) (take (Z.to_nat hi) x).

(** A window lies inside the two sequences. *)
Definition valid_window (s : SequenceMatcher A) (w : Window) : Prop :=
  let '(alo, ahi, blo, bhi) := w in
  0 ≤ alo ∧ alo ≤ ahi ∧ ahi ≤ Z.of_nat (length (sm_a s)) ∧
  0 ≤ blo ∧ blo ≤ bhi ∧ bhi ≤ Z.of_nat (length (sm_b s)).

(** The windows one turn of the queue loop pushes: the part right of the
    block ends on top of the stack, the part left of it below. *)
Definition pushed (w : Window) (m : Match) : list Window :=
  let '(alo, ahi, blo, bhi) := w in
  let '(i, j, k) := m in
  (if bool_decide (i + k < ahi) && bool_decide (j + k < bhi)
   then [(i + k, ahi, j + k, bhi)] else []) ++
  (if bool_decide (alo < i) && bool_decide (blo < j)
   then [(alo, i, blo, j)] else []).

(** Turns of the queue loop a window can still cause. *)
Definition weight (w : Window) : nat :=
  let '(alo, ahi, _, _) := w in S (2 * Z.to_nat (ahi - alo)).

Definition total (l : list Z) : Z := foldr Z.add 0 l.
End vocabulary.
End DifflibSpec.

(** ** Inputs used in the statements about [calculate_similarity] *)

(** A text given as a string literal, as its sequence of characters: one
    element per byte, so one per character for ASCII text. *)
Definition str (s : string) : list ascii := String.list_ascii_of_string s.

(** The candidate leaves the matcher's popularity heuristic idle: it has
    fewer than 200 characters, or none of its characters occurs more than
    [len(candidate) // 100 + 1] times. *)
Definition heuristic_idle `{Countable A} (candidate : list A) : Prop :=
  (length candidate < 200)%nat ∨
  ∀ e, Z.of_nat (length (DifflibSpec.positions candidate e))
       ≤ Z.of_nat (length candidate) `div` 100 + 1.

(** The two texts have no character in common. *)
Definition disjoint_texts {A} (a b : list A) : Prop := ∀ x, x ∈ a → x ∉ b.

(** ** The score in binary64

    The same arithmetic on IEEE 754 doubles, which is what Python's [float]
    is: [2.0 * matches / length], then [* 100]. It is used to evaluate the
    score on concrete texts; the statements below are about the exact
    quotient. *)

Module Binary64.
Definition float_of_int (z : Z) : float := PrimFloat.of_uint63 (Uint63.of_Z z).

Definition _calculate_ratio (matches length : Z) : float :=
  if bool_decide (length = 0) then 1%float
  else (2 * float_of_int matches / float_of_int length)%float.

Definition calculate_similarity `{Countable A} (text1 text2 : list A) : option float :=
  m ← Difflib.matches (Difflib.new text1 text2);
  Some (_calculate_ratio m (Z.of_nat (length text1) + Z.of_nat (length text2)) * 100)%float.
End Binary64.

(** ** The Python runtime the pipeline runs in

    Exceptions, the file system, standard output and the record of calls
    made to the operating system and to the libraries are threaded through a
    state-and-exception monad. *)

Module Py.

(** An exception: its class and [str(e)]. Every class used here derives
    from [Exception], so [except Exception] catches all of them. *)
Record exn : Type := Exn { exn_class : string; exn_str : string }.

Definition RuntimeError (msg : string) : exn := Exn "RuntimeError" msg.

Inductive outcome (X : Type) : Type :=
| Return (x : X)
| Raise (e : exn).
Global Arguments Return {X} x.
Global Arguments Raise {X} e.

(** An [fpdf.FPDF] object: page format, pages added, current font, and the
    text written so far (line height and string of each [write]). *)
Record FPDF : Type := Fpdf {
  format : string;
  pages : nat;
  font_family : string;
  font_size : Z;
  written : list (Z * string)
}.

(** What a path holds. *)
Inductive content : Type :=
| Directory
| Bytes (data : string)
| Document (pdf : FPDF).

Record inode : Type := Inode {
  st_mode : Z;          (* [os.stat(path).st_mode] *)
  r_ok : bool;          (* [os.access(path, os.R_OK)] *)
  holds : content
}.

(** [datetime.now()]: a naive local date and time. *)
Record datetime : Type := Datetime {
  year : Z; month : Z; day : Z;
  hour : Z; minute : Z; second : Z; microsecond : Z
}.

(** Calls to the operating system and to the libraries, as made. *)
Inductive call : Type :=
| os_path_exists_call (path : string)
| os_access_call (path : string) (mode : Z)
| os_stat_call (path : string)
| os_makedirs_call (path : string)
| cv2_imread_call (path : string)
| cv2_cvtColor_call (code : Z)
| cv2_dilate_call (kernel : list (list Z)) (iterations : Z)
| cv2_erode_call (kernel : list (list Z)) (iterations : Z)
| cv2_threshold_call (thresh maxval type : Z)
| image_to_string_call (tesseract_cmd : string)
| datetime_now_call
| pdf_output_call (path : string).

Record state : Type := State {
  fs : gmap string inode;
  stdout : list string;
  calls : list call;
  clock : datetime;
  tesseract_cmd : string        (* [pytesseract.pytesseract.tesseract_cmd] *)
}.

Definition M (X : Type) : Type := state → outcome X * state.

Definition ret {X} (x : X) : M X := λ s, (Return x, s).

Definition bind {X Y} (m : M X) (k : X → M Y) : M Y :=
  λ s, match m s with
       | (Return x, s') => k x s'
       | (Raise e, s') => (Raise e, s')
       end.

Definition raise {X} (e : exn) : M X := λ s, (Raise e, s).

(** [try: m  except Exception as e: handler(e)] *)
Definition try_except {X} (m : M X) (handler : exn → M X) : M X :=
  λ s, match m s with
       | (Return x, s') => (Return x, s')
       | (Raise e, s') => handler e s'
       end.

Definition get : M state := λ s, (Return s, s).

Definition record_call (c : call) : M unit :=
  λ s, (Return tt, State (fs s) (stdout s) (calls s ++ [c]) (clock s) (tesseract_cmd s)).

(** [print(line)] *)
Definition print (line : string) : M unit :=
  λ s, (Return tt, State (fs s) (stdout s ++ [line]) (calls s) (clock s) (tesseract_cmd s)).

Definition set_fs (fs' : gmap string inode) : M unit :=
  λ s, (Return tt, State fs' (stdout s) (calls s) (clock s) (tesseract_cmd s)).

Definition set_tesseract_cmd (path : string) : M unit :=
  λ s, (Return tt, State (fs s) (stdout s) (calls s) (clock s) path).

Global Instance M_ret : MRet M := @ret.
Global Instance M_bind : MBind M := λ X Y k m, bind m k.

(** *** os, os.path, stat *)

Definition R_OK : Z := 4.
Definition S_IFMT (mode : Z) : Z := Z.land mode 0xF000.   (* 0o170000 *)
Definition S_IFREG : Z := 0x8000.                          (* 0o100000 *)
Definition S_IFDIR : Z := 0x4000.                          (* 0o040000 *)
Definition S_ISREG (mode : Z) : bool := bool_decide (S_IFMT mode = S_IFREG).
Definition S_ISDIR (mode : Z) : bool := bool_decide (S_IFMT mode = S_IFDIR).

(** [os.path.exists(path)]: whether [os.stat(path)] succeeds. *)
Definition os_path_exists (path : string) : M bool :=
  record_call (os_path_exists_call path) ;;
  s ← get;
  ret (bool_decide (is_Some (fs s !! path))).

(** [os.access(path, mode)] for [mode = os.R_OK]. *)
Definition os_access (path : string) (mode : Z) : M bool :=
  record_call (os_access_call path mode) ;;
  s ← get;
  ret (match fs s !! path with Some n => r_ok n | None => false end).

(** [os.stat(path)] *)
Definition os_stat (path : string) : M inode :=
  record_call (os_stat_call path) ;;
  s ← get;
  match fs s !! path with
  | Some n => ret n
  | None => raise (Exn "FileNotFoundError" ("[Errno 2] No such file or directory: " ++ path))
  end.

(** [oct(n)] for [n >= 0] *)
Definition digit (d : Z) : ascii := ascii_of_N (48 + Z.to_N d).

Fixpoint oct_digits (fuel : nat) (n : Z) (acc : string) : string :=
  match fuel with
  | O => acc
  | S fuel' =>
      let acc' := String (digit (n `mod` 8)) acc in
      if bool_decide (n < 8) then acc' else oct_digits fuel' (n `div` 8) acc'
  end.

Definition oct (n : Z) : string :=
  "0o" ++ oct_digits (S (Z.to_nat (Z.log2 n))) n EmptyString.

(** [os.path.join(a, b)] (POSIX flavour) *)
Definition ends_with_slash (a : string) : bool :=
  match String.rev a with
  | String c _ => bool_decide (c = "/"%char)
  | EmptyString => false
  end.

Definition starts_with_slash (b : string) : bool :=
  match b with
  | String c _ => bool_decide (c = "/"%char)
  | EmptyString => false
  end.

Definition os_path_join (a b : string) : string :=
  if starts_with_slash b then b
  else if bool_decide (a = EmptyString) || ends_with_slash a then a ++ b
  else a ++ "/" ++ b.

(** The directories above [path]: its non-empty prefixes that end right
    before a ["/"]. *)
Fixpoint ancestors_from (seen : string) (rest : string) : list string :=
  match rest with
  | EmptyString => []
  | String c rest' =>
      (if bool_decide (c = "/"%char) && negb (bool_decide (seen = EmptyString))
       then [seen] else [])
      ++ ancestors_from (seen ++ String c EmptyString) rest'
  end.

Definition ancestors (path : string) : list string := ancestors_from EmptyString path.

(** [os.path.dirname(path)] *)
Definition dirname (path : string) : string := default EmptyString (last (ancestors path)).

Definition is_directory (fs : gmap string inode) (path : string) : bool :=
  match fs !! path with
  | Some (Inode _ _ Directory) => true
  | _ => false
  end.

Definition new_directory : inode := Inode 0x41ED true Directory.   (* 0o040755 *)
Definition new_file (c : content) : inode := Inode 0x81A4 true c.  (* 0o100644 *)

Definition add_directory (path : string) (fs : gmap string inode) : gmap string inode :=
  match fs !! path with
  | Some _ => fs
  | None => <[path := new_directory]> fs
  end.

(** [datetime.strftime]: the directives the pipeline uses. *)
Definition pad2 (n : Z) : string :=
  String (digit ((n `div` 10) `mod` 10)) (String (digit (n `mod` 10)) EmptyString).

Definition pad4 (n : Z) : string :=
  String (digit ((n `div` 1000) `mod` 10))
    (String (digit ((n `div` 100) `mod` 10)) (pad2 n)).

Definition directive (d : datetime) (c : ascii) : string :=
  if bool_decide (c = "Y"%char) then pad4 (year d)
  else if bool_decide (c = "m"%char) then pad2 (month d)
  else if bool_decide (c = "d"%char) then pad2 (day d)
  else if bool_decide (c = "H"%char) then pad2 (hour d)
  else if bool_decide (c = "M"%char) then pad2 (minute d)
  else if bool_decide (c = "S"%char) then pad2 (second d)
  else String "%" (String c EmptyString).

Fixpoint strftime (d : datetime) (fmt : string) : string :=
  match fmt with
  | EmptyString => EmptyString
  | String c fmt' =>
      if bool_decide (c = "%"%char) then
        match fmt' with
        | String c' fmt'' => directive d c' ++ strftime d fmt''
        | EmptyString => "%"
        end
      else String c (strftime d fmt')
  end.

(** [datetime.now()] *)
Definition datetime_now : M datetime :=
  record_call datetime_now_call ;;
  s ← get;
  ret (clock s).

(** The range of [datetime] fields, with a year that prints as four digits
    on every platform. *)
Definition valid_datetime (d : datetime) : Prop :=
  1000 ≤ year d ≤ 9999 ∧ 1 ≤ month d ≤ 12 ∧ 1 ≤ day d ≤ 31 ∧
  0 ≤ hour d ≤ 23 ∧ 0 ≤ minute d ≤ 59 ∧ 0 ≤ second d ≤ 59 ∧
  0 ≤ microsecond d ≤ 999999.

(** [datetime.toordinal()]: days since 0001-01-01, plus one. *)
Definition is_leap (y : Z) : bool :=
  bool_decide (y `mod` 4 = 0) &&
  (negb (bool_decide (y `mod` 100 = 0)) || bool_decide (y `mod` 400 = 0)).

Definition days_before_year (y : Z) : Z :=
  let y := y - 1 in y * 365 + y `div` 4 - y `div` 100 + y `div` 400.

Definition days_before_month (y m : Z) : Z :=
  nth (Z.to_nat m) [0; 0; 31; 59; 90; 120; 151; 181; 212; 243; 273; 304; 334] 0
  + (if bool_decide (2 < m) && is_leap y then 1 else 0).

Definition toordinal (d : datetime) : Z :=
  days_before_year (year d) + days_before_month (year d) (month d) + day d.

(** [(d2 - d1) / timedelta(microseconds=1)] *)
Definition microseconds_between (d1 d2 : datetime) : Z :=
  ((toordinal d2 - toordinal d1) * 86400
   + ((second d2 + minute d2 * 60 + hour d2 * 3600)
      - (second d1 + minute d1 * 60 + hour d1 * 3600))) * 1000000
  + (microsecond d2 - microsecond d1).
End Py.

(** ** The libraries the pipeline calls

    What the libraries compute is outside the repository. The parts whose
    behaviour is fixed by their documentation are written out (morphology
    with a kernel, [THRESH_BINARY] thresholding, path handling); the rest is
    a parameter [lib]: the image decoder, the grayscale weights, Otsu's
    threshold, the recognition engine, and the operating system's refusals. *)

Module Lib.
Import Py.

Definition color_image : Type := list (list (Z * Z * Z)).   (* rows of BGR pixels *)
Definition gray_image : Type := list (list Z).

Record lib : Type := {
  decode : string → option color_image;
  luma : Z * Z * Z → Z;
  otsu : gray_image → Z;
  recognise : string → gray_image → outcome string;
  refuse : string → option exn
}.

Definition COLOR_BGR2GRAY : Z := 6.
Definition THRESH_BINARY : Z := 0.
Definition THRESH_MASK : Z := 7.
Definition THRESH_OTSU : Z := 8.

(** [np.ones((rows, cols), np.uint8)] *)
Definition np_ones (rows cols : nat) : list (list Z) := replicate rows (replicate cols 1).

(** The pixel at row [y], column [x], if inside the image. *)
Definition pixel (img : gray_image) (y x : Z) : option Z :=
  if bool_decide (0 ≤ y) && bool_decide (0 ≤ x)
  then row ← img !! Z.to_nat y; row !! Z.to_nat x
  else None.

(** Offsets, relative to the anchor at the kernel's centre, of the
    non-zero kernel entries. *)
Definition offsets (kernel : list (list Z)) : list (Z * Z) :=
  let ay := Z.of_nat (length kernel) `div` 2 in
  let ax := Z.of_nat (length (default [] (head kernel))) `div` 2 in
  '(r, row) ← imap (λ r row, (Z.of_nat r, row)) kernel;
  '(c, v) ← imap (λ c v, (Z.of_nat c, v)) row;
  if bool_decide (v = 0) then [] else [(r - ay, c - ax)].

(** One pass of a morphological operation: every pixel becomes the
    [best] of the pixels under the kernel (those outside the image do not
    count). *)
Definition morph_pixel (best : Z → Z → Z) (kernel : list (list Z))
    (img : gray_image) (y x v : Z) : Z :=
  let under := omap (λ o : Z * Z, pixel img (y + o.1) (x + o.2)) (offsets kernel) in
  match under with
  | [] => v
  | p :: ps => foldl best p ps
  end.

Definition morph (best : Z → Z → Z) (kernel : list (list Z)) (img : gray_image)
    : gray_image :=
  imap (λ y row, imap (λ x v, morph_pixel best kernel img (Z.of_nat y) (Z.of_nat x) v) row) img.

(** [THRESH_BINARY]: [maxval] above the threshold, [0] otherwise. *)
Definition binarize (t maxval : Z) (src : gray_image) : gray_image :=
  map (map (λ v, if bool_decide (t < v) then maxval else 0)) src.

Section calls.
Variable L : lib.

(** The image in a file, if it is a readable file that decodes. *)
Definition load (fs : gmap string inode) (path : string) : option color_image :=
  match fs !! path with
  | Some (Inode _ true (Bytes data)) => decode L data
  | _ => None
  end.

(** [cv2.imread(path)]: [None] when the file cannot be read or decoded. *)
Definition cv2_imread (path : string) : M (option color_image) :=
  record_call (cv2_imread_call path) ;;
  s ← get;
  ret (load (fs s) path).

(** [cv2.cvtColor(img, code)] for [code = cv2.COLOR_BGR2GRAY] *)
Definition cv2_cvtColor (img : color_image) (code : Z) : M gray_image :=
  record_call (cv2_cvtColor_call code) ;;
  if bool_decide (code = COLOR_BGR2GRAY) then ret (map (map (luma L)) img)
  else raise (Exn "cv2.error" "unsupported color conversion code").

(** [cv2.dilate(img, kernel, iterations=n)] and [cv2.erode] *)
Definition cv2_dilate (img : gray_image) (kernel : list (list Z)) (iterations : Z)
    : M gray_image :=
  record_call (cv2_dilate_call kernel iterations) ;;
  ret (Nat.iter (Z.to_nat iterations) (morph Z.max kernel) img).

Definition cv2_erode (img : gray_image) (kernel : list (list Z)) (iterations : Z)
    : M gray_image :=
  record_call (cv2_erode_call kernel iterations) ;;
  ret (Nat.iter (Z.to_nat iterations) (morph Z.min kernel) img).

(** [cv2.threshold(src, thresh, maxval, type)] for the [THRESH_BINARY]
    type: with the [THRESH_OTSU] flag the threshold is the one Otsu's
    method selects and [thresh] is not used. Returns the threshold used
    and the image. *)
Definition cv2_threshold (src : gray_image) (thresh maxval type : Z)
    : M (Z * gray_image) :=
  record_call (cv2_threshold_call thresh maxval type) ;;
  let t := if bool_decide (Z.land type THRESH_OTSU = 0) then thresh else otsu L src in
  if bool_decide (Z.land type THRESH_MASK = THRESH_BINARY)
  then ret (t, binarize t maxval src)
  else raise (Exn "cv2.error" "unsupported threshold type").

(** [pytesseract.image_to_string(img)], run with the configured command. *)
Definition image_to_string (img : gray_image) : M string :=
  s ← get;
  record_call (image_to_string_call (tesseract_cmd s)) ;;
  match recognise L (tesseract_cmd s) img with
  | Return text => ret text
  | Raise e => raise e
  end.

(** [os.makedirs(path)]: creates the directory and the missing
    directories above it. *)
Definition os_makedirs (path : string) : M unit :=
  record_call (os_makedirs_call path) ;;
  s ← get;
  if bool_decide (path = EmptyString)
  then raise (Exn "FileNotFoundError" "[Errno 2] No such file or directory: ''")
  else if bool_decide (is_Some (fs s !! path))
  then raise (Exn "FileExistsError" ("[Errno 17] File exists: " ++ path))
  else match refuse L path with
       | Some e => raise e
       | None =>
           if forallb (λ d, bool_decide (fs s !! d = None) || is_directory (fs s) d)
                (ancestors path)
           then set_fs (foldr add_directory (fs s) (ancestors path ++ [path]))
           else raise (Exn "NotADirectoryError" ("[Errno 20] Not a directory: " ++ path))
       end.

(** The [fpdf.FPDF] methods used. *)
Definition FPDF_new (format : string) : FPDF := Fpdf format 0 EmptyString 0 [].
Definition add_page (pdf : FPDF) : FPDF :=
  Fpdf (format pdf) (S (pages pdf)) (font_family pdf) (font_size pdf) (written pdf).
Definition set_font (pdf : FPDF) (family : string) (size : Z) : FPDF :=
  Fpdf (format pdf) (pages pdf) family size (written pdf).
Definition write (pdf : FPDF) (h : Z) (txt : string) : FPDF :=
  Fpdf (format pdf) (pages pdf) (font_family pdf) (font_size pdf) (written pdf ++ [(h, txt)]).

(** [pdf.output(name)]: writes the document to the file [name]. The
  failures are those of opening the file; one that strikes while the
  document is built or written is not modelled. *)
Definition output (pdf : FPDF) (name : string) : M unit :=
  record_call (pdf_output_call name) ;;
  s ← get;
  match refuse L name with
  | Some e => raise e
  | None =>
      if bool_decide (dirname name = EmptyString) || is_directory (fs s) (dirname name) then
        if is_directory (fs s) name
        then raise (Exn "IsADirectoryError" ("[Errno 21] Is a directory: " ++ name))
        else set_fs (<[name := new_file (Document pdf)]> (fs s))
      else raise (Exn "FileNotFoundError" ("[Errno 2] No such file or directory: " ++ name))
  end.
End calls.
End Lib.

(** ** main.py *)

Import Py Lib.

(** [check_file_access(filename)] *)
Definition check_file_access (filename : string) : M bool :=
  e ← os_path_exists filename;
  if negb e then
    print "File does not exist." ;;
    ret false
  else
    r ← os_access filename R_OK;
    if negb r then
      print "File is not readable. Permission denied." ;;
      ret false
    else
      file_stat ← os_stat filename;
      print ("File permissions: " ++ oct (st_mode file_stat)) ;;
      if negb (S_ISREG (st_mode file_stat)) then
        print "File is not a regular file." ;;
        ret false
      else
        print "File is accessible and ready for processing." ;;
        ret true.

Module OCRProcessor.
Section OCRProcessor.
Variable L : lib.

(** [OCRProcessor.__init__(self, tesseract_path)] *)
Definition __init__ (tesseract_path : string) : M unit :=
  set_tesseract_cmd tesseract_path.

(** The body of the [try] in [process_image]. *)
Definition process_image_body (filename : string) : M string :=
  ok ← check_file_access filename;
  if negb ok then raise (RuntimeError "File is not accessible.")
  else
    img ← cv2_imread L filename;
    match img with
    | None =>
        raise (RuntimeError "Failed to read image. The file may be inaccessible or corrupted.")
    | Some img =>
        gray ← cv2_cvtColor L img COLOR_BGR2GRAY;
        let kernel := np_ones 1 1 in
        img_dilated ← cv2_dilate gray kernel 1;
        img_eroded ← cv2_erode img_dilated kernel 1;
        r ← cv2_threshold L img_eroded 128 255 (THRESH_BINARY + THRESH_OTSU);
        let img_thresh := r.2 in
        text ← image_to_string L img_thresh;
        ret text
    end.

(** [OCRProcessor.process_image(self, filename)] *)
Definition process_image (filename : string) : M string :=
  try_except (process_image_body filename)
    (λ e, raise (RuntimeError ("Failed to process image: " ++ exn_str e))).

(** The body of the [try] in [save_to_pdf]. *)
Definition save_to_pdf_body (text : string) (output_dir : string) : M string :=
  e ← os_path_exists output_dir;
  (if negb e then os_makedirs L output_dir else ret tt) ;;
  now ← datetime_now;
  let timestamp := strftime now "%Y%m%d_%H%M%S" in
  let pdf_filename := os_path_join output_dir ("converted_" ++ timestamp ++ ".pdf") in
  let pdf := FPDF_new "letter" in
  let pdf := add_page pdf in
  let pdf := set_font pdf "Arial" 12 in
  let pdf := write pdf 5 text in
  output L pdf pdf_filename ;;
  ret pdf_filename.

(** [OCRProcessor.save_to_pdf(self, text, output_dir="output")] *)
Definition save_to_pdf (text : string) (output_dir : option string) : M string :=
  try_except (save_to_pdf_body text (default "output" output_dir))
    (λ e, raise (RuntimeError ("Failed to save PDF: " ++ exn_str e))).
End OCRProcessor.
End OCRProcessor.

(** ** Vocabulary for the pipeline's behaviour *)

Module PipelineSpec.
Import Py Lib.

(** The state after more calls and more printed lines. *)
Definition logged (s : state) (cs : list call) (lines : list string) : state :=
  State (fs s) (stdout s ++ lines) (calls s ++ cs) (clock s) (tesseract_cmd s).

(** The image [process_image] hands to the recognition engine. *)
Definition grayscale (L : lib) (img : color_image) : gray_image := map (map (luma L)) img.

Definition preprocessed (L : lib) (img : color_image) : gray_image :=
  let gray := grayscale L img in
  let img_dilated := morph Z.max (np_ones 1 1) gray in
  let img_eroded := morph Z.min (np_ones 1 1) img_dilated in
  binarize (otsu L img_eroded) 255 img_eroded.

(** The distinct pixel values of an image. *)
Definition levels (img : gray_image) : list Z := remove_dups (concat img).

(** The calls [process_image] makes on a file that passes validation and
    decodes. *)
Definition conversion_calls (filename cmd : string) : list call :=
  [os_path_exists_call filename; os_access_call filename R_OK; os_stat_call filename;
   cv2_imread_call filename; cv2_cvtColor_call COLOR_BGR2GRAY;
   cv2_dilate_call [[1]] 1; cv2_erode_call [[1]] 1;
   cv2_threshold_call 128 255 (THRESH_BINARY + THRESH_OTSU);
   image_to_string_call cmd].

(** The file passes the three checks. *)
Definition accessible (s : state) (filename : string) : Prop :=
  ∃ n, fs s !! filename = Some n ∧ r_ok n = true ∧ S_ISREG (st_mode n) = true.

(** The stage at which a conversion stops, told from the state it runs in. *)
Inductive stage : Type := AccessValidation | Decoding | Recognition.

Definition failing_stage (L : lib) (s : state) (filename : string) : option stage :=
  match fs s !! filename with
  | None => Some AccessValidation
  | Some n =>
      if negb (r_ok n) || negb (S_ISREG (st_mode n)) then Some AccessValidation
      else match load L (fs s) filename with
           | None => Some Decoding
           | Some img =>
               match recognise L (tesseract_cmd s) (preprocessed L img) with
               | Raise _ => Some Recognition
               | Return _ => None
               end
           end
  end.

(** The reading of the error-taxonomy sentence that is tested: two
    conversions that fail at different stages raise errors of different
    classes. *)
Definition each_stage_own_kind : Prop :=
  ∀ L s1 f1 s2 f2 st1 st2 e1 e2,
    failing_stage L s1 f1 = Some st1 → failing_stage L s2 f2 = Some st2 →
    (OCRProcessor.process_image L f1 s1).1 = Raise e1 →
    (OCRProcessor.process_image L f2 s2).1 = Raise e2 →
    st1 ≠ st2 → exn_class e1 ≠ exn_class e2.

(** The PDF that [save_to_pdf] builds for a text. *)
Definition pdf_of (text : string) : FPDF := Fpdf "letter" 1 "Arial" 12 [(5, text)].

Definition artifact_name (now : datetime) : string :=
  "converted_" ++ strftime now "%Y%m%d_%H%M%S" ++ ".pdf".
End PipelineSpec.

(** ** A sample instance of the libraries, to run the model on concrete files *)

Module Sample.
Import Py Lib.

Definition byte_value (c : ascii) : Z := Z.of_N (N_of_ascii c).

(** A stand-in decoder: one row, one gray pixel per byte; nothing for the
    empty file. *)
Definition decode (data : string) : option color_image :=
  match data with
  | EmptyString => None
  | _ => Some [map (λ c, (byte_value c, byte_value c, byte_value c))
                 (String.list_ascii_of_string data)]
  end.

(** The usual weights, in 14-bit fixed point. *)
Definition luma (p : Z * Z * Z) : Z :=
  let '(b, g, r) := p in (1868 * b + 9617 * g + 4899 * r + 8192) `div` 16384.

(** Otsu's method: the threshold with the largest between-class variance,
    the lowest one on ties. *)
Definition between_class (vs : list Z) (t : Z) : Z * Z :=
  let n := Z.of_nat (length vs) in
  let total := foldr Z.add 0 vs in
  let low := filter (λ v, v ≤ t) vs in
  let w0 := Z.of_nat (length low) in
  let s0 := foldr Z.add 0 low in
  if bool_decide (w0 = 0) || bool_decide (w0 = n) then (0, 1)
  else ((s0 * n - total * w0) ^ 2, w0 * (n - w0)).

Definition otsu (img : gray_image) : Z :=
  let vs := concat img in
  (foldl (λ best t,
            let '(num, den) := between_class vs t in
            let '(bnum, bden) := best.2 in
            if bool_decide (bnum * den < num * bden) then (t, (num, den)) else best)
         (0, (0, 1)) (seqZ 0 256)).1.

(** A stand-in engine: one character per pixel; fails without a command. *)
Definition recognise (cmd : string) (img : gray_image) : outcome string :=
  if bool_decide (cmd = EmptyString)
  then Raise (Exn "TesseractNotFoundError" "tesseract is not installed or it's not in your PATH.")
  else Return (String.string_of_list_ascii
                 (map (λ v, if bool_decide (v = 0) then "#"%char else "."%char) (concat img))).

(** An operating system that refuses nothing, and one that refuses to
    touch anything under [/proc]. *)
Definition permissive : lib := Build_lib decode luma otsu recognise (λ _, None).

Definition restrictive : lib :=
  Build_lib decode luma otsu recognise
    (λ path, if String.prefix "/proc" path
             then Some (Exn "PermissionError" ("[Errno 13] Permission denied: " ++ path))
             else None).

Definition noon : datetime := Datetime 2026 11 3 12 0 0 0.
Definition one_second_later : datetime := Datetime 2026 11 3 12 0 1 0.

(** A file system with an empty file, a two-tone scan, a blank scan, a
    directory and an unreadable file. *)
Definition files : gmap string inode :=
  list_to_map
    [("empty.png", Inode 0x81A4 true (Bytes EmptyString));
     ("scan.png", Inode 0x81A4 true (Bytes "  ~~ ~~  "));
     ("blank.png", Inode 0x81A4 true (Bytes "~~~~"));
     ("photos", Inode 0x41ED true Directory);
     ("secret.png", Inode 0x8180 false (Bytes "~~~~"))].

Definition start : state := State files [] [] noon "tesseract".

(** The same state, with the clock one second on. *)
Definition a_second_on (s : state) : state :=
  State (fs s) (stdout s) (calls s) one_second_later (tesseract_cmd s).

(** Two writes, one second apart. *)
Definition after_first : state :=
  (OCRProcessor.save_to_pdf permissive "first" None start).2.

Definition after_second : state :=
  (OCRProcessor.save_to_pdf permissive "second" None (a_second_on after_first)).2.
End Sample.

(** ** Vocabulary for the blocks the queue loop collects *)

Module BlockSpec.
Import Difflib DifflibSpec.

Section blocks.
Context `{Countable A}.

(** The characters matched inside a window: the size of the block found
    there plus what is matched in the windows the loop pushes for it.
    A pushed window has fewer rows than its parent, which bounds the
    depth by the number of rows. *)
Fixpoint matched_in (s : SequenceMatcher A) (depth : nat) (w : Window) : Z :=
  match depth with
  | O => 0
  | S depth' =>
      let '(alo, ahi, blo, bhi) := w in
      let m := find_longest_match s alo ahi blo bhi in
      if bool_decide (m.2 = 0) then 0
      else m.2 + total (matched_in s depth' <$> pushed (alo, ahi, blo, bhi) m)
  end.

Definition rows (w : Window) : nat :=
  let '(alo, ahi, _, _) := w in Z.to_nat (ahi - alo).

Definition matched_window (s : SequenceMatcher A) (w : Window) : Z :=
  matched_in s (S (rows w)) w.

(** The smaller side of a window. *)
Definition capacity (w : Window) : Z :=
  let '(alo, ahi, blo, bhi) := w in Z.min (ahi - alo) (bhi - blo).
End blocks.
End BlockSpec.

(** ** Formatting a score: [f"{accuracy:.2f}"]

    [format(x, ".2f")] prints the decimal with two digits after the point
    that is nearest to the exact value of the double [x], ties going to the
    even neighbour. *)

Module Format.
Import Py.

Fixpoint dec_digits (fuel : nat) (n : Z) (acc : string) : string :=
  match fuel with
  | O => acc
  | S fuel' =>
      let acc' := String (digit (n `mod` 10)) acc in
      if bool_decide (n < 10) then acc' else dec_digits fuel' (n `div` 10) acc'
  end.

(** [str(n)] for [n >= 0] *)
Definition decimal (n : Z) : string :=
  dec_digits (S (Z.to_nat (Z.log2 n))) n EmptyString.

(** [num / den] rounded to the nearest integer, ties to even ([den > 0]). *)
Definition round_half_even (num den : Z) : Z :=
  let q := num `div` den in
  let r := num `mod` den in
  if bool_decide (2 * r < den) then q
  else if bool_decide (den < 2 * r) then q + 1
  else if Z.even q then q else q + 1.

(** The sign of a finite double and its absolute value in hundredths,
    rounded; nothing for infinities and NaN. *)
Definition hundredths (x : float) : option (bool * Z) :=
  match Prim2SF x with
  | S754_zero s => Some (s, 0)
  | S754_finite s m e =>
      Some (s, if bool_decide (0 ≤ e) then Z.pos m * 100 * 2 ^ e
               else round_half_even (Z.pos m * 100) (2 ^ (- e)))
  | S754_infinity _ | S754_nan => None
  end.

Definition format_2f (x : float) : string :=
  match hundredths x with
  | Some (s, h) =>
      (if s then "-" else EmptyString) ++ decimal (h `div` 100) ++ "." ++ pad2 (h `mod` 100)
  | None =>
      if PrimFloat.is_nan x then "nan"
      else if PrimFloat.ltb x 0 then "-inf" else "inf"
  end.
End Format.

(** ** The window: tkinter as the application uses it

    The calls made to tkinter are recorded in order. What the user does is
    an input: the file chosen in the dialog, and the buttons clicked. *)

Module Tk.
Import Py.

(** The bound methods given to the buttons. *)
Inductive command : Type := browse_files_command | convert_to_pdf_command.

Definition font : Type := string * Z * string.

Inductive widget : Type :=
| Label (text : string) (width height : option Z) (fnt : font) (fg bg : string)
| Button (text : string) (fg bg : string) (fnt : font) (width : Z) (cmd : command)
| Progressbar (orient : string) (length : Z) (mode : string).

Inductive event : Type :=
| title_call (text : string)
| geometry_call (size : string)
| config_call (background : string)
| place_call (w : widget) (x y : Z) (anchor : option string)
| askopenfilename_call (initialdir title : string) (filetypes : list (string * string))
| progress_start_call
| progress_stop_call
| configure_call (text : string)
| showinfo_call (title message : string)
| showerror_call (title message : string)
| showwarning_call (title message : string)
| report_callback_exception_call (e : exn).

Definition HORIZONTAL : string := "horizontal".

(** An [OCRApp] object together with the world it runs in. *)
Record gui : Type := Gui {
  result : string;                 (* [self.result] *)
  label_file_explorer : string;    (* the text of [self.label_file_explorer] *)
  progress : bool;                 (* whether [self.progress] is running *)
  ui : list event;
  world : state
}.

(** Running a handler gives an outcome and a new state, or nothing when a
    step budget inside it ran out. *)
Definition G (X : Type) : Type := gui → option (outcome X * gui).

Definition gret {X} (x : X) : G X := λ self, Some (Return x, self).

Definition gbind {X Y} (m : G X) (k : X → G Y) : G Y :=
  λ self, match m self with
          | Some (Return x, self') => k x self'
          | Some (Raise e, self') => Some (Raise e, self')
          | None => None
          end.

Global Instance G_ret : MRet G := @gret.
Global Instance G_bind : MBind G := λ X Y k m, gbind m k.

(** A call into the pipeline. *)
Definition lift {X} (m : M X) : G X :=
  λ self, let '(o, w) := m (world self) in
          Some (o, Gui (result self) (label_file_explorer self) (progress self) (ui self) w).

(** A computation that runs on a step budget. *)
Definition budgeted {X} (o : option X) : G X :=
  λ self, match o with Some x => Some (Return x, self) | None => None end.

Definition tk (e : event) : G unit :=
  λ self, Some (Return tt,
                Gui (result self) (label_file_explorer self) (progress self)
                    (ui self ++ [e]) (world self)).

Definition get_result : G string := λ self, Some (Return (result self), self).

Definition set_result (text : string) : G unit :=
  λ self, Some (Return tt,
                Gui text (label_file_explorer self) (progress self) (ui self) (world self)).

(** [filedialog.askopenfilename(...)]: the user's choice, the empty
    string when the dialog is cancelled. *)
Definition askopenfilename (initialdir title : string)
    (filetypes : list (string * string)) (chosen : string) : G string :=
  tk (askopenfilename_call initialdir title filetypes) ;; mret chosen.

(** [self.label_file_explorer.configure(text=...)] *)
Definition configure (text : string) : G unit :=
  λ self, Some (Return tt,
                Gui (result self) text (progress self)
                    (ui self ++ [configure_call text]) (world self)).

(** [self.progress.start()] and [self.progress.stop()] *)
Definition progress_start : G unit :=
  λ self, Some (Return tt,
                Gui (result self) (label_file_explorer self) true
                    (ui self ++ [progress_start_call]) (world self)).

Definition progress_stop : G unit :=
  λ self, Some (Return tt,
                Gui (result self) (label_file_explorer self) false
                    (ui self ++ [progress_stop_call]) (world self)).

Definition showinfo (title message : string) : G unit := tk (showinfo_call title message).
Definition showerror (title message : string) : G unit := tk (showerror_call title message).
Definition showwarning (title message : string) : G unit := tk (showwarning_call title message).

(** [isinstance(e, RuntimeError)]: the class itself and its subclasses. *)
Definition is_RuntimeError (e : exn) : bool :=
  bool_decide (exn_class e ∈ ["RuntimeError"; "NotImplementedError"; "RecursionError"]).

(** [try: body  except RuntimeError as e: handler(e)] *)
Definition try_except_RuntimeError {X} (body : G X) (handler : exn → G X) : G X :=
  λ self, match body self with
          | Some (Raise e, self') =>
              if is_RuntimeError e then handler e self' else Some (Raise e, self')
          | r => r
          end.

(** [try: body  finally: final] *)
Definition try_finally {X} (body : G X) (final : G unit) : G X :=
  λ self, match body self with
          | Some (o, self') =>
              match final self' with
              | Some (Return _, self'') => Some (o, self'')
              | Some (Raise e, self'') => Some (Raise e, self'')
              | None => None
              end
          | None => None
          end.

(** What the user does while the window is open; [wait now] lets the
    clock move to [now]. *)
Inductive action : Type :=
| click_browse (chosen : string)
| click_convert
| wait (now : datetime).

Definition set_clock (now : datetime) : G unit :=
  λ self, Some (Return tt,
                Gui (result self) (label_file_explorer self) (progress self) (ui self)
                    (State (fs (world self)) (stdout (world self)) (calls (world self))
                           now (tesseract_cmd (world self)))).

(** Tk catches what a callback raises, reports it and goes on. *)
Definition callback (m : G unit) : G unit :=
  λ self, match m self with
          | Some (Raise e, self') => tk (report_callback_exception_call e) self'
          | r => r
          end.
End Tk.

(** ** main.py: the window *)

Definition nl : string := String (ascii_of_nat 10) EmptyString.

(** [self.ocr_processor.calculate_similarity(sample_text, self.result)],
    on doubles as Python computes it. *)
Definition accuracy_of (sample_text result : string) : Tk.G float :=
  Tk.budgeted (Binary64.calculate_similarity (str sample_text) (str result)).

Module OCRApp.
Import Tk.

Section OCRApp.
Variable L : lib.

(** [OCRApp.create_widgets(self)] *)
Definition create_widgets : list event :=
  [place_call (Label "Handwritten Text Recognition Using Pytesseract" (Some 80) (Some 2)
                 ("Arial", 12, "bold") "black" "lightgrey") 370 18 (Some "center");
   place_call (Label "See the Output Here" (Some 90) (Some 12)
                 ("Arial", 10, "bold") "blue" "white") 0 35 None;
   place_call (Button "Browse Files" "white" "black" ("Arial", 10, "bold") 10
                 browse_files_command) 250 270 None;
   place_call (Label "(Select an image)" None None ("Arial", 8, "bold") "black" "white")
              242 300 None;
   place_call (Button "Convert text to PDF" "white" "black" ("Arial", 10, "bold") 15
                 convert_to_pdf_command) 370 270 None;
   place_call (Progressbar HORIZONTAL 300 "indeterminate") 200 320 None].

(** [OCRApp.__init__(self, window, ocr_processor)] *)
Definition __init__ (w : state) : gui :=
  Gui EmptyString "See the Output Here" false
      ([title_call "Handwritten Text Recognition"; geometry_call "700x350";
        config_call "white"] ++ create_widgets)
      w.

Definition sample_text : string :=
  "We start With good" ++ nl ++ nl ++ "Because all businesses should" ++ nl ++ nl
  ++ "be doing something good".

(** [OCRApp.browse_files(self)] *)
Definition browse_files (chosen : string) : G unit :=
  let filetypes := [("Image files", "*.png *.jpg *.jpeg"); ("All files", "*.*")] in
  filename ← askopenfilename "C:\Users\dcrub\OneDrive\Desktop\code\New folder"
               "Select a File" filetypes chosen;
  if bool_decide (filename = EmptyString) then mret tt
  else
    progress_start ;;
    try_finally
      (try_except_RuntimeError
         (text ← lift (OCRProcessor.process_image L filename);
          set_result text ;;
          shown ← get_result;
          configure shown ;;
          recognised ← get_result;
          accuracy ← accuracy_of sample_text recognised;
          showinfo "Accuracy"
            ("The accuracy of the model is " ++ Format.format_2f accuracy ++ "%"))
         (λ e, showerror "Error" (exn_str e)))
      progress_stop.

(** [OCRApp.convert_to_pdf(self)] *)
Definition convert_to_pdf : G unit :=
  text ← get_result;
  if bool_decide (text = EmptyString)
  then showwarning "No text" "No text found to convert to PDF!"
  else
    try_except_RuntimeError
      (written ← get_result;
       pdf_filename ← lift (OCRProcessor.save_to_pdf L written None);
       showinfo "Success"
         ("Text successfully converted to PDF!" ++ nl ++ "Saved as " ++ pdf_filename))
      (λ e, showerror "Error" (exn_str e)).

(** [root.mainloop()] over what the user does: a click runs the method
    the button is bound to. *)
Definition dispatch (a : action) : G unit :=
  match a with
  | click_browse chosen => callback (browse_files chosen)
  | click_convert => callback convert_to_pdf
  | wait now => set_clock now
  end.

Fixpoint mainloop (actions : list action) : G unit :=
  match actions with
  | [] => mret tt
  | a :: rest => dispatch a ;; mainloop rest
  end.
End OCRApp.
End OCRApp.

(** The script: [OCRProcessor(TESSERACT_PATH)], [OCRApp(root, ocr_processor)],
    [root.mainloop()]. *)
Definition TESSERACT_PATH : string := "C:\Program Files\Tesseract-OCR\tesseract.exe".

Definition main (L : lib) (actions : list Tk.action) (w : state)
    : option (outcome unit * Tk.gui) :=
  match OCRProcessor.__init__ TESSERACT_PATH w with
  | (Return _, w') => OCRApp.mainloop L actions (OCRApp.__init__ w')
  | (Raise e, w') => Some (Raise e, OCRApp.__init__ w')
  end.

(** ** Engines that read a fixed text, to run the window on concrete files *)

Module Readers.
Definition constant (text : string) : lib :=
  Build_lib Sample.decode Sample.luma Sample.otsu (λ _ _, Return text) (λ _, None).

Definition perfect : lib := constant OCRApp.sample_text.
Definition blind : lib := constant EmptyString.
End Readers.

(** ** Vocabulary for the writer and the window *)

Module AppSpec.
Import Py Tk.

(** Two clock readings fall in the same second. *)
Definition same_second (d1 d2 : datetime) : Prop :=
  year d1 = year d2 ∧ month d1 = month d2 ∧ day d1 = day d2 ∧
  hour d1 = hour d2 ∧ minute d1 = minute d2 ∧ second d1 = second d2.

(** Clock readings of dates that exist: the day lies within its month. *)
Definition days_in_month (y m : Z) : Z :=
  if bool_decide (m = 2) then (if is_leap y then 29 else 28)
  else if bool_decide (m ∈ [4; 6; 9; 11]) then 30 else 31.

Definition real_datetime (d : datetime) : Prop :=
  valid_datetime d ∧ day d ≤ days_in_month (year d) (month d).

(** A clock reading down to the second as one number, its digits in the
    order in which the timestamp prints them. *)
Definition second_key (d : datetime) : Z :=
  ((((year d * 100 + month d) * 100 + day d) * 100 + hour d) * 100 + minute d) * 100
  + second d.

(** Seconds since the start of day 0. *)
Definition seconds_of (d : datetime) : Z :=
  toordinal d * 86400 + (second d + minute d * 60 + hour d * 3600).

(** The directories [save_to_pdf] may create for an output directory. *)
Definition created_for (dir : string) : list string := ancestors dir ++ [dir].

(** The output label shows the text a conversion to PDF would write, or
    its first text while nothing has been recognised. *)
Definition label_in_step (self : gui) : Prop :=
  label_file_explorer self = result self
  ∨ (result self = EmptyString ∧ label_file_explorer self = "See the Output Here").

(** No callback has raised. *)
Definition no_callback_exception (self : gui) : Prop :=
  ∀ e, report_callback_exception_call e ∉ ui self.

(** The window at rest: the progress bar is stopped, the label is in
    step, no callback has raised, and the engine command is [cmd]. *)
Definition at_rest (cmd : string) (self : gui) : Prop :=
  progress self = false ∧ label_in_step self ∧ no_callback_exception self ∧
  tesseract_cmd (world self) = cmd.

(** The same object after more calls to tkinter. *)
Definition shown (self : gui) (events : list event) : gui :=
  Gui (result self) (label_file_explorer self) (progress self)
      (ui self ++ events) (world self).

(** The file dialog [browse_files] opens, and the texts of its dialogs. *)
Definition file_dialog : event :=
  askopenfilename_call "C:\Users\dcrub\OneDrive\Desktop\code\New folder" "Select a File"
    [("Image files", "*.png *.jpg *.jpeg"); ("All files", "*.*")].

Definition accuracy_message (accuracy : float) : string :=
  "The accuracy of the model is " ++ Format.format_2f accuracy ++ "%".

Definition success_message (path : string) : string :=
  "Text successfully converted to PDF!" ++ nl ++ "Saved as " ++ path.
End AppSpec.

(** ** Local time: what [datetime.now()] reads

    [datetime.now()] converts the instant given by the system clock to the
    local wall-clock time of the time zone in force at that instant, and
    returns it as a naive [datetime]. An instant is a number of microseconds
    since the epoch; a zone gives the offset from UTC, in seconds, at every
    second since the epoch. *)

Module LocalTime.
Import Py AppSpec.

Definition DI400Y : Z := 146097.
Definition DI100Y : Z := 36524.
Definition DI4Y : Z := 1461.

(** [_ord2ymd(n)]: year, month and day of the date with ordinal [n]. *)
Definition fromordinal (n : Z) : Z * Z * Z :=
  let n := n - 1 in
  let n400 := n `div` DI400Y in
  let n := n `mod` DI400Y in
  let year := n400 * 400 + 1 in
  let n100 := n `div` DI100Y in
  let n := n `mod` DI100Y in
  let n4 := n `div` DI4Y in
  let n := n `mod` DI4Y in
  let n1 := n `div` 365 in
  let n := n `mod` 365 in
  let year := year + n100 * 100 + n4 * 4 + n1 in
  if bool_decide (n1 = 4) || bool_decide (n100 = 4) then (year - 1, 12, 31)
  else
    let month := (n + 50) ≫ 5 in
    let preceding := days_before_month year month in
    if bool_decide (n < preceding)
    then (year, month - 1, n - (preceding - days_in_month year (month - 1)) + 1)
    else (year, month, n - preceding + 1).

(** The ordinal of 1970-01-01. *)
Definition EPOCH : Z := 719163.

(** [datetime.fromtimestamp(t)] for the local zone. *)
Definition fromtimestamp (utcoffset : Z → Z) (instant : Z) : datetime :=
  let t := instant `div` 1000000 in
  let wall := t + utcoffset t in
  let '(y, m, d) := fromordinal (EPOCH + wall `div` 86400) in
  let r := wall `mod` 86400 in
  Datetime y m d (r `div` 3600) ((r `div` 60) `mod` 60) (r `mod` 60)
           (instant `mod` 1000000).

(** Central European time around the end of summer time in 2026: two
    hours ahead of UTC until 2026-10-25 01:00 UTC, one hour from then on. *)
Definition summer_time_ends : Z := 1792890000.

Definition central_europe (t : Z) : Z :=
  if bool_decide (t < summer_time_ends) then 7200 else 3600.

(** The state with the clock reading [now]. *)
Definition at_clock (now : datetime) (s : state) : state :=
  State (fs s) (stdout s) (calls s) now (tesseract_cmd s).
End LocalTime.

(** ** Two writes on either side of the end of summer time *)

Module FallBack.
Import Py LocalTime.

(** Half an hour before the clocks go back, and half an hour after: one
    hour apart. *)
Definition first_instant : Z := (summer_time_ends - 1800) * 1000000.
Definition second_instant : Z := (summer_time_ends + 1800) * 1000000.

Definition before_first : state :=
  at_clock (fromtimestamp central_europe first_instant) Sample.start.

Definition after_first : state :=
  (OCRProcessor.save_to_pdf Sample.permissive "first" None before_first).2.

Definition before_second : state :=
  at_clock (fromtimestamp central_europe second_instant) after_first.

Definition after_second : state :=
  (OCRProcessor.save_to_pdf Sample.permissive "second" None before_second).2.
End FallBack.

(** ** Two writes into a directory three levels down *)

Module Nested.
Import Py.

Definition output_dir : string := "out/2026/pdf".

Definition after_first : state :=
  (OCRProcessor.save_to_pdf Sample.permissive "first" (Some output_dir) Sample.start).2.

Definition after_second : state :=
  (OCRProcessor.save_to_pdf Sample.permissive "second" (Some output_dir)
     (Sample.a_second_on after_first)).2.
End Nested.

(** ** Vocabulary for the error kinds, the levels and the texts *)

Module KindSpec.
Import Py Lib PipelineSpec.

(** The reading of the decode-failure sentence that is tested, in its
    weakest form: for a file that passes validation and does not decode,
    the error the caller sees is of the class [ImageError], or at least of a
    class that no failure of the access validation has. *)
Definition decode_failure_own_kind : Prop :=
  ∀ L s filename e,
    accessible s filename → load L (fs s) filename = None →
    (OCRProcessor.process_image L filename s).1 = Raise e →
    exn_class e = "ImageError"
    ∨ ∀ s' filename' e',
        ¬ accessible s' filename' →
        (OCRProcessor.process_image L filename' s').1 = Raise e' →
        exn_class e' ≠ exn_class e.


(** Gray values above the threshold, and gray values not above it. *)
Definition some_above (t : Z) (gray : gray_image) : Prop := ∃ g, g ∈ concat gray ∧ t < g.
Definition some_at_or_below (t : Z) (gray : gray_image) : Prop :=
  ∃ g, g ∈ concat gray ∧ g ≤ t.

(** [text.isascii()] *)
Definition isascii (text : string) : Prop :=
  Forall (λ c, (N_of_ascii c < 128)%N) (str text).
End KindSpec.

(** ** A window that already shows a text *)

Module Session.
Import Py Tk.

(** The window after the scan has been read. *)
Definition after_scan : gui :=
  default (OCRApp.__init__ Sample.start)
    (snd <$> OCRApp.browse_files Sample.permissive "scan.png" (OCRApp.__init__ Sample.start)).
End Session.

(** ** Facts about the matcher *)

Module DifflibFacts.
Import Grid Difflib DifflibSpec.

Section filters.
Context {B : Type} (P Q : B → Prop) `{!∀ x, Decision (P x), !∀ x, Decision (Q x)}.

Lemma filter_agree (l : list B) :
  (∀ x, x ∈ l → P x ↔ Q x) → filter P l = filter Q l.
Proof.
  induction l as [|x l IH]; intros Hl; [done|].
  rewrite !filter_cons, IH by (intros; apply Hl; set_solver).
  destruct (decide (P x)) as [HP|HP]; destruct (decide (Q x)) as [HQ|HQ];
    try done; exfalso; apply (Hl x) in HP || apply (Hl x) in HQ; set_solver.
Qed.

Lemma filter_none (l : list B) : (∀ x, x ∈ l → ¬ P x) → filter P l = [].
Proof.
  induction l as [|x l IH]; intros Hl; [done|].
  rewrite filter_cons_False by (apply Hl; set_solver).
  apply IH. intros; apply Hl; set_solver.
Qed.

Lemma filter_all (l : list B) : (∀ x, x ∈ l → P x) → filter P l = l.
Proof.
  induction l as [|x l IH]; intros Hl; [done|].
  rewrite filter_cons_True by (apply Hl; set_solver).
  f_equal. apply IH. intros; apply Hl; set_solver.
Qed.
End filters.

Section index.
Context `{Countable A}.
Implicit Types a b : list A.

Lemma getitem_Some b i e :
  getitem b i = Some e ↔ 0 ≤ i ∧ b !! Z.to_nat i = Some e.
Proof. unfold getitem. case_bool_decide; naive_solver. Qed.

Lemma getitem_lt b i e : getitem b i = Some e → 0 ≤ i < Z.of_nat (length b).
Proof.
  rewrite getitem_Some. intros [? Hl]. apply lookup_lt_Some in Hl. lia.
Qed.

Lemma getitem_is_Some b i : 0 ≤ i < Z.of_nat (length b) → is_Some (getitem b i).
Proof.
  intros ?. unfold getitem. rewrite bool_decide_true by lia.
  apply lookup_lt_is_Some. lia.
Qed.

Lemma getitem_app_l b x i :
  i < Z.of_nat (length b) → getitem (b ++ [x]) i = getitem b i.
Proof.
  intros ?. unfold getitem. case_bool_decide; [|done].
  apply lookup_app_l. lia.
Qed.

Lemma getitem_app_last b x : getitem (b ++ [x]) (Z.of_nat (length b)) = Some x.
Proof.
  unfold getitem. rewrite bool_decide_true by lia.
  rewrite Nat2Z.id. apply list_lookup_middle. done.
Qed.

Lemma enumerate_snoc b x :
  enumerate (b ++ [x]) = enumerate b ++ [(Z.of_nat (length b), x)].
Proof.
  unfold enumerate. rewrite length_app. simpl.
  replace (Z.of_nat (length b + 1)) with (Z.of_nat (length b) + 1) by lia.
  rewrite seqZ_app by lia.
  rewrite zip_with_app by (rewrite length_seqZ; lia).
  done.
Qed.

Lemma positions_snoc b x e :
  positions (b ++ [x]) e =
  positions b e ++ (if decide (x = e) then [Z.of_nat (length b)] else []).
Proof.
  unfold positions. rewrite length_app. simpl.
  replace (Z.of_nat (length b + 1)) with (Z.of_nat (length b) + 1) by lia.
  rewrite seqZ_app by lia. rewrite filter_app. f_equal.
  - apply filter_agree. intros j Hj%elem_of_seqZ.
    by rewrite getitem_app_l by lia.
  - change (seqZ (0 + Z.of_nat (length b)) 1) with [0 + Z.of_nat (length b)].
    rewrite Z.add_0_l, filter_cons, filter_nil, getitem_app_last.
    destruct (decide (x = e)); subst.
    + by rewrite decide_True.
    + rewrite decide_False; [done|congruence].
Qed.

Lemma index_b_lookup b e :
  index_b b !! e = if decide (e ∈ b) then Some (positions b e) else None.
Proof.
  unfold index_b. induction b as [|x b IH] using rev_ind.
  - case_decide as Hin; [by apply elem_of_nil in Hin|]. apply lookup_empty.
  - rewrite enumerate_snoc, foldl_snoc, positions_snoc.
    unfold chain_step at 1. simpl.
    destruct (decide (x = e)) as [->|Hne].
    + rewrite lookup_insert_eq, IH.
      rewrite (decide_True (P := e ∈ b ++ [e])) by set_solver.
      f_equal. f_equal. case_decide as Hin; [done|].
      simpl. unfold positions. symmetry. apply filter_none.
      intros j _ Hj. apply Hin.
      apply getitem_Some in Hj as [_ Hj]. by eapply list_elem_of_lookup_2.
    + rewrite lookup_insert_ne by done. rewrite IH, app_nil_r.
      destruct (decide (e ∈ b)).
      * rewrite decide_True; [done|set_solver].
      * rewrite decide_False; [done|set_solver].
Qed.
End index.
End DifflibFacts.

Module ScanFacts.
Import Grid Difflib DifflibSpec DifflibFacts.

Section chained.
Context `{Countable A}.
Implicit Types a b : list A.

Lemma popular_of_spec b e :
  e ∈ popular_of b (index_b b) ↔
  200 ≤ Z.of_nat (length b) ∧
  Z.of_nat (length b) `div` 100 + 1 < Z.of_nat (length (positions b e)).
Proof.
  unfold popular_of. case_bool_decide as Hn.
  - rewrite elem_of_dom. unfold is_Some. setoid_rewrite map_lookup_filter_Some.
    setoid_rewrite index_b_lookup. simpl. split.
    + intros (js & Hjs & ?). case_decide; naive_solver.
    + intros [_ Hlt]. exists (positions b e). split; [|done].
      case_decide as Hin; [done|]. exfalso.
      replace (positions b e) with (@nil Z) in Hlt.
      { simpl in Hlt. assert (0 ≤ Z.of_nat (length b) `div` 100) by (apply Z.div_pos; lia). lia. }
      symmetry. apply filter_none. intros j _ Hj. apply Hin.
      apply getitem_Some in Hj as [_ Hj]. by eapply list_elem_of_lookup_2.
  - split; [set_solver|lia].
Qed.

Lemma positions_not_in b e : e ∉ b → positions b e = [].
Proof.
  intros Hin. apply filter_none. intros j _ Hj. apply Hin.
  apply getitem_Some in Hj as [_ Hj]. by eapply list_elem_of_lookup_2.
Qed.

Lemma b2j_new_lookup a b e :
  default [] (b2j (new a b) !! e) =
  if decide (e ∈ bpopular (new a b)) then [] else positions b e.
Proof.
  simpl. case_decide as Hp.
  - rewrite (proj2 (map_lookup_filter_None _ _ _)); [done|].
    right. intros js _. simpl. auto.
  - destruct (decide (e ∈ b)) as [Hin|Hin].
    + rewrite (map_lookup_filter_Some_2 _ _ e (positions b e)); [done| |done].
      rewrite index_b_lookup. by rewrite decide_True.
    + rewrite positions_not_in by done.
      rewrite (proj2 (map_lookup_filter_None _ _ _)); [done|].
      left. rewrite index_b_lookup. by rewrite decide_False.
Qed.

Lemma chained_new a b : chained (new a b).
Proof.
  split; [done|]. intros i. unfold b2j_get, hit.
  destruct (getitem (sm_a (new a b)) i) as [e|] eqn:He.
  - rewrite b2j_new_lookup. case_decide as Hp.
    + symmetry. apply filter_none. intros j _.
      rewrite andb_true_iff, bool_decide_eq_true. naive_solver.
    + unfold positions. apply filter_agree. intros j _. simpl.
      rewrite andb_true_iff, !bool_decide_eq_true. naive_solver.
  - symmetry. by apply filter_none.
Qed.
End chained.
End ScanFacts.

Module RowFacts.
Import Grid Difflib DifflibSpec DifflibFacts.

Section rows.
Context `{Countable A}.
Variable s : SequenceMatcher A.
Hypothesis Hs : chained s.

Lemma row_loop_skip j2len i blo bhi l1 l2 st :
  Forall (λ j, j < blo) l1 →
  row_loop j2len i blo bhi (l1 ++ l2) st = row_loop j2len i blo bhi l2 st.
Proof.
  induction 1 as [|j l1 Hj _ IH]; [done|].
  simpl. by rewrite bool_decide_true.
Qed.

Lemma row_loop_inside j2len i blo bhi l l3 st :
  Forall (λ j, blo ≤ j < bhi) l → Forall (λ j, bhi ≤ j) l3 →
  row_loop j2len i blo bhi (l ++ l3) st = foldl (cell j2len i) st l.
Proof.
  intros Hl Hl3. revert st. induction Hl as [|j l Hj _ IH]; intros st.
  - simpl. induction Hl3 as [|j l3 Hj _ IH]; [done|].
    simpl. case_bool_decide; [done|]. by rewrite bool_decide_true.
  - simpl. rewrite !bool_decide_false by lia.
    destruct st as [[[besti bestj] bestsize] newj2len]. by rewrite IH.
Qed.

Lemma row_window blo bhi st i :
  0 ≤ blo → blo ≤ bhi → bhi ≤ Z.of_nat (length (sm_b s)) →
  row s blo bhi st i =
  foldl (cell st.2 i) (st.1, ∅)
    (filter (λ j, hit s i j = true) (seqZ blo (bhi - blo))).
Proof.
  intros ???. unfold row. rewrite (proj2 Hs i).
  set (lb := Z.of_nat (length (sm_b s))) in *.
  replace lb with (blo + ((bhi - blo) + (lb - bhi))) by lia.
  rewrite !seqZ_app, !filter_app by lia.
  rewrite row_loop_skip.
  2:{ apply Forall_forall. intros j [_ Hj%elem_of_seqZ]%list_elem_of_filter. lia. }
  apply row_loop_inside; apply Forall_forall;
    intros j [_ Hj%elem_of_seqZ]%list_elem_of_filter; lia.
Qed.

Section window.
Variables alo blo : Z.

Lemma back_nonneg n i j : 0 ≤ back s alo blo n i j.
Proof.
  revert i j. induction n as [|n IH]; intros i j; simpl; [done|].
  destruct (_ && _); [|done]. specialize (IH (i - 1) (j - 1)). lia.
Qed.

Lemma run_len_nonneg i j : 0 ≤ run_len s alo blo i j.
Proof. apply back_nonneg. Qed.

Lemma run_len_below i j : i < alo → run_len s alo blo i j = 0.
Proof.
  intros ?. unfold run_len. by replace (Z.to_nat (i - alo + 1)) with O by lia.
Qed.

Lemma run_len_step i j :
  alo ≤ i →
  run_len s alo blo i j =
  if bool_decide (blo ≤ j) && hit s i j
  then 1 + run_len s alo blo (i - 1) (j - 1) else 0.
Proof.
  intros ?. unfold run_len.
  replace (Z.to_nat (i - alo + 1)) with (S (Z.to_nat (i - 1 - alo + 1))) by lia.
  simpl. by rewrite bool_decide_true by done.
Qed.

Lemma run_len_left i j : j < blo → run_len s alo blo i j = 0.
Proof.
  intros ?. destruct (decide (alo ≤ i)).
  - rewrite run_len_step by done. by rewrite bool_decide_false by lia.
  - apply run_len_below. lia.
Qed.

Lemma run_len_miss i j : hit s i j = false → run_len s alo blo i j = 0.
Proof.
  intros Hh. destruct (decide (alo ≤ i)).
  - rewrite run_len_step by done. by rewrite Hh, andb_false_r.
  - apply run_len_below. lia.
Qed.

(** One row: the cells the loop visits are the hits of the row, and
    visiting every cell of the row with the table of run lengths gives
    the same best block. *)
Lemma row_cells bhi m i best (n : nat) :
  alo ≤ i → 0 ≤ best.2 → blo + Z.of_nat n ≤ bhi →
  (∀ j, j < bhi → default 0 (m !! j) = run_len s alo blo (i - 1) j) →
  let r := foldl (cell m i) (best, ∅)
             (filter (λ j, hit s i j = true) (seqZ blo (Z.of_nat n))) in
  r.1 = foldl (upd (run_len s alo blo)) best ((λ j, (i, j)) <$> seqZ blo (Z.of_nat n))
  ∧ 0 ≤ r.1.2
  ∧ ∀ j, default 0 (r.2 !! j) =
         if bool_decide (j < blo + Z.of_nat n) then run_len s alo blo i j else 0.
Proof.
  intros Hi Hbest Hn Hm. induction n as [|n IH].
  - simpl. split_and!; [done..|]. intros j. rewrite lookup_empty. simpl.
    case_bool_decide; [|done]. symmetry. apply run_len_left. lia.
  - destruct IH as (IH1 & IH2 & IH3); [lia|].
    rewrite seqZ_S, filter_app, fmap_app, !foldl_app. simpl.
    set (j0 := blo + Z.of_nat n) in *.
    rewrite filter_cons, filter_nil.
    destruct (decide (hit s i j0 = true)) as [Hh|Hh].
    + simpl. rewrite Hm, IH1 by lia.
      assert (run_len s alo blo (i - 1) (j0 - 1) + 1 = run_len s alo blo i j0) as ->.
      { rewrite (run_len_step i j0) by done.
        rewrite bool_decide_true by lia. rewrite Hh. simpl. lia. }
      split_and!.
      * done.
      * unfold upd in *. simpl. rewrite <-IH1.
        case_bool_decide; simpl; lia.
      * intros j. destruct (decide (j = j0)) as [->|].
        -- rewrite lookup_insert_eq. simpl. by rewrite bool_decide_true by lia.
        -- rewrite lookup_insert_ne by done. rewrite IH3.
           repeat case_bool_decide; try done; lia.
    + simpl. apply not_true_is_false in Hh.
      assert (run_len s alo blo i j0 = 0) as Hz by by apply run_len_miss.
      split_and!.
      * rewrite IH1. unfold upd at 2. simpl. rewrite Hz.
        rewrite bool_decide_false; [done|]. rewrite <-IH1. lia.
      * done.
      * intros j. rewrite IH3. destruct (decide (j = j0)) as [->|].
        -- rewrite bool_decide_false by lia. rewrite bool_decide_true by lia. done.
        -- repeat case_bool_decide; try done; lia.
Qed.

Lemma cells_S bhi (n : nat) :
  cells alo (alo + Z.of_nat (S n)) blo bhi =
  cells alo (alo + Z.of_nat n) blo bhi ++
  ((λ j, (alo + Z.of_nat n, j)) <$> seqZ blo (bhi - blo)).
Proof.
  unfold cells.
  replace (alo + Z.of_nat (S n) - alo) with (Z.of_nat (S n)) by lia.
  replace (alo + Z.of_nat n - alo) with (Z.of_nat n) by lia.
  rewrite seqZ_S, bind_app. simpl. by rewrite app_nil_r.
Qed.

(** The whole scan: the best block is the first strict maximum of the
    run lengths over the cells of the window, row by row. *)
Lemma scan_rows bhi (n : nat) :
  0 ≤ blo → blo ≤ bhi → bhi ≤ Z.of_nat (length (sm_b s)) →
  let r := foldl (row s blo bhi) ((alo, blo, 0), ∅) (seqZ alo (Z.of_nat n)) in
  r.1 = foldl (upd (run_len s alo blo)) (alo, blo, 0)
          (cells alo (alo + Z.of_nat n) blo bhi)
  ∧ 0 ≤ r.1.2
  ∧ ∀ j, j < bhi →
         default 0 (r.2 !! j) = run_len s alo blo (alo + Z.of_nat n - 1) j.
Proof.
  intros ???. cbv zeta. induction n as [|n IH].
  - unfold cells. rewrite Z.add_0_r, Z.sub_diag. simpl. split_and!; [done..|].
    intros j _. rewrite lookup_empty. simpl. symmetry. apply run_len_below. lia.
  - destruct IH as (IH1 & IH2 & IH3).
    rewrite seqZ_S, foldl_snoc, (cells_S bhi), foldl_app.
    rewrite row_window by done.
    pose proof (row_cells bhi
      (foldl (row s blo bhi) (alo, blo, 0, ∅) (seqZ alo (Z.of_nat n))).2
      (alo + Z.of_nat n)
      (foldl (row s blo bhi) (alo, blo, 0, ∅) (seqZ alo (Z.of_nat n))).1
      (Z.to_nat (bhi - blo))) as Hrow.
    rewrite Z2Nat.id in Hrow by lia.
    destruct Hrow as (R1 & R2 & R3); [lia|done|lia|done|].
    split_and!.
    + etrans; [apply R1|]. by rewrite IH1.
    + apply R2.
    + intros j Hj. etrans; [apply R3|]. rewrite bool_decide_true by lia.
      f_equal. lia.
Qed.

Lemma scan_cells ahi bhi :
  alo ≤ ahi → 0 ≤ blo → blo ≤ bhi → bhi ≤ Z.of_nat (length (sm_b s)) →
  (scan s alo ahi blo bhi).1 =
  foldl (upd (run_len s alo blo)) (alo, blo, 0) (cells alo ahi blo bhi).
Proof.
  intros ????. unfold scan.
  pose proof (scan_rows bhi (Z.to_nat (ahi - alo))) as Hr.
  rewrite Z2Nat.id in Hr by lia.
  replace (alo + (ahi - alo)) with ahi in Hr by lia.
  by apply Hr.
Qed.
End window.
End rows.
End RowFacts.

Module BestFacts.
Import Grid Difflib DifflibSpec DifflibFacts RowFacts.

Section first_maximum.
Variable blk : Z * Z → Z → Match.
Variable f : Z → Z → Z.
Hypothesis blk_size : ∀ c k, (blk c k).2 = k.

(** The fold of [pick] keeps the first cell whose value is strictly above
    everything before it and at least everything after it. *)
Lemma first_max cs init :
  let r := foldl (pick blk f) init cs in
  (∀ c, c ∈ cs → f c.1 c.2 ≤ r.2) ∧ init.2 ≤ r.2 ∧
  (r = init ∨
   ∃ pre c post, cs = pre ++ c :: post ∧
     r = blk c r.2 ∧ f c.1 c.2 = r.2 ∧
     init.2 < r.2 ∧ ∀ c', c' ∈ pre → f c'.1 c'.2 < r.2).
Proof.
  cbv zeta. induction cs as [|c cs IH] using rev_ind.
  - simpl. split_and!; [by intros ? ?%elem_of_nil|done|by left].
  - rewrite foldl_snoc. destruct IH as (IH1 & IH2 & IH3).
    set (r := foldl (pick blk f) init cs) in *.
    assert (pick blk f r c = blk c (f c.1 c.2) ∧ r.2 < f c.1 c.2
            ∨ pick blk f r c = r ∧ ¬ r.2 < f c.1 c.2) as [[-> Hlt]|[-> Hlt]].
    { unfold pick. case_bool_decide; auto. }
    + rewrite blk_size. split_and!.
      * intros c' [Hc'| ->%list_elem_of_singleton]%elem_of_app; [|done].
        specialize (IH1 _ Hc'). lia.
      * lia.
      * right. exists cs, c, []. split_and!; [done..|lia|].
        intros c' Hc'. specialize (IH1 _ Hc'). lia.
    + split_and!.
      * intros c' [Hc'| ->%list_elem_of_singleton]%elem_of_app; [by apply IH1|lia].
      * done.
      * destruct IH3 as [->|(pre & c0 & post & -> & ? & ? & ? & ?)]; [by left|].
        right. exists pre, c0, (post ++ [c]).
        by rewrite <-app_assoc.
Qed.
End first_maximum.

Section cells.
Lemma elem_of_cells alo ahi blo bhi c :
  c ∈ cells alo ahi blo bhi ↔ (alo ≤ c.1 < ahi ∧ blo ≤ c.2 < bhi).
Proof.
  unfold cells. rewrite list_elem_of_bind. destruct c as [i j]. simpl. split.
  - intros (i' & (j' & [= -> ->] & Hj%elem_of_seqZ)%list_elem_of_fmap & Hi%elem_of_seqZ).
    lia.
  - intros [? ?]. exists i. split; [|apply elem_of_seqZ; lia].
    apply list_elem_of_fmap. exists j. split; [done|apply elem_of_seqZ; lia].
Qed.

Lemma cells_sorted alo ahi blo bhi :
  StronglySorted cell_lt (cells alo ahi blo bhi).
Proof.
  unfold cells. generalize (ahi - alo). intros n.
  destruct (decide (0 ≤ n)) as [Hn|Hn]; [|rewrite (seqZ_nil alo n) by lia; constructor].
  rewrite <-(Z2Nat.id n) by done. generalize (Z.to_nat n). clear n Hn. intros n.
  induction n as [|n IH]; [constructor|].
  rewrite seqZ_S, bind_app. simpl. rewrite app_nil_r.
  apply StronglySorted_app_2; [|done|].
  - intros c1 c2 (i & (j & -> & Hj)%list_elem_of_fmap & Hi%elem_of_seqZ)%list_elem_of_bind
      (j2 & -> & Hj2)%list_elem_of_fmap. left. simpl. lia.
  - generalize (bhi - blo). intros m.
    destruct (decide (0 ≤ m)) as [Hm|Hm]; [|rewrite (seqZ_nil blo m) by lia; constructor].
    rewrite <-(Z2Nat.id m) by done. generalize (Z.to_nat m). clear m Hm. intros m.
    induction m as [|m IHm]; [constructor|].
    rewrite seqZ_S, fmap_app. simpl.
    apply StronglySorted_app_2; [|done|repeat constructor].
    intros c1 c2 (j & -> & Hj%elem_of_seqZ)%list_elem_of_fmap
      ->%list_elem_of_singleton. right. simpl. lia.
Qed.

Lemma cells_before alo ahi blo bhi pre c post c' :
  cells alo ahi blo bhi = pre ++ c :: post →
  c' ∈ cells alo ahi blo bhi → cell_lt c' c → c' ∈ pre.
Proof.
  intros Heq Hin Hlt. pose proof (cells_sorted alo ahi blo bhi) as Hs.
  rewrite Heq in Hin, Hs.
  apply elem_of_app in Hin as [?|Hin]; [done|]. exfalso.
  apply StronglySorted_app_1_r in Hs.
  apply StronglySorted_cons in Hs as [Hs _].
  apply elem_of_cons in Hin as [->|Hin].
  - unfold cell_lt in Hlt. lia.
  - rewrite Forall_forall in Hs. specialize (Hs _ Hin).
    unfold cell_lt in *. lia.
Qed.
End cells.
End BestFacts.

Module WindowFacts.
Import Grid Difflib DifflibSpec DifflibFacts RowFacts BestFacts.

Section window.
Context `{Countable A}.
Variable s : SequenceMatcher A.
Hypothesis Hs : chained s.
Variables alo blo : Z.

(** The table entry of a cell is a run of hits inside the window ... *)
Lemma back_run n i j :
  let k := back s alo blo n i j in
  hit_run s (i - k + 1) (j - k + 1) k ∧
  (0 < k → alo ≤ i - k + 1 ∧ blo ≤ j - k + 1).
Proof.
  cbv zeta. revert i j. induction n as [|n IH]; intros i j; simpl.
  - split; [|lia]. intros d ?. lia.
  - destruct (bool_decide (alo ≤ i) && bool_decide (blo ≤ j) && hit s i j) eqn:Hc.
    2:{ split; [|lia]. intros d ?. lia. }
    apply andb_true_iff in Hc as [[Hi%bool_decide_eq_true Hj%bool_decide_eq_true]%andb_true_iff Hh].
    destruct (IH (i - 1) (j - 1)) as [IH1 IH2].
    pose proof (back_nonneg s alo blo n (i - 1) (j - 1)) as Hk.
    set (k := back s alo blo n (i - 1) (j - 1)) in *. split.
    + intros d Hd. destruct (decide (d = k)) as [->|].
      * by replace (i - (1 + k) + 1 + k) with i by lia;
           replace (j - (1 + k) + 1 + k) with j by lia.
      * replace (i - (1 + k) + 1) with (i - 1 - k + 1) by lia.
        replace (j - (1 + k) + 1) with (j - 1 - k + 1) by lia.
        apply IH1. lia.
    + intros _. destruct (decide (k = 0)); [lia|].
      destruct IH2; lia.
Qed.

Lemma run_len_run i j :
  let k := run_len s alo blo i j in
  hit_run s (i - k + 1) (j - k + 1) k ∧
  (0 < k → alo ≤ i - k + 1 ∧ blo ≤ j - k + 1).
Proof. apply back_run. Qed.

(** ... and it is at least as long as any run of hits that ends there. *)
Lemma run_len_ge i j (k : nat) :
  alo ≤ i → blo ≤ j → hit_run s i j (Z.of_nat k) →
  Z.of_nat k ≤ run_len s alo blo (i + Z.of_nat k - 1) (j + Z.of_nat k - 1).
Proof.
  intros Hi Hj. induction k as [|k IH]; intros Hrun.
  - apply run_len_nonneg.
  - rewrite run_len_step by lia.
    rewrite bool_decide_true by lia.
    replace (i + Z.of_nat (S k) - 1) with (i + Z.of_nat k) by lia.
    replace (j + Z.of_nat (S k) - 1) with (j + Z.of_nat k) by lia.
    rewrite Hrun by lia. simpl.
    replace (i + Z.of_nat k - 1) with (i + Z.of_nat k - 1) by lia.
    assert (Z.of_nat k ≤ run_len s alo blo (i + Z.of_nat k - 1) (j + Z.of_nat k - 1)).
    { apply IH. intros d ?. apply Hrun. lia. }
    lia.
Qed.

Lemma back_enough n i j :
  i - alo + 1 ≤ Z.of_nat n → back s alo blo n i j = run_len s alo blo i j.
Proof.
  revert i j. induction n as [|n IH]; intros i j Hn.
  - simpl. symmetry. apply run_len_below. lia.
  - destruct (decide (alo ≤ i)).
    + rewrite run_len_step by done. simpl.
      rewrite bool_decide_true by done. simpl.
      destruct (_ && _); [|done]. rewrite IH by lia. done.
    + simpl. rewrite bool_decide_false by done. simpl.
      symmetry. apply run_len_below. lia.
Qed.

(** What the scan of a window returns. *)
Lemma scan_spec ahi bhi :
  alo ≤ ahi → 0 ≤ blo → blo ≤ bhi → bhi ≤ Z.of_nat (length (sm_b s)) →
  let r := (scan s alo ahi blo bhi).1 in
  in_window (alo, ahi, blo, bhi) r ∧
  hit_run s r.1.1 r.1.2 r.2 ∧
  (r.2 = 0 → r = (alo, blo, 0)) ∧
  ∀ i j k, in_window (alo, ahi, blo, bhi) (i, j, k) → hit_run s i j k →
    k ≤ r.2 ∧ (k = r.2 → 0 < k → ¬ cell_lt (i, j) (r.1.1, r.1.2)).
Proof.
  intros Ha Hb0 Hb Hlb. cbv zeta. rewrite scan_cells by done.
  pose proof (first_max end_block (run_len s alo blo) (λ _ _, eq_refl)
                (cells alo ahi blo bhi) (alo, blo, 0))
    as (Hmax & Hge & Hr).
  change (pick end_block (run_len s alo blo)) with (upd (run_len s alo blo)) in *.
  unfold end_block in Hr.
  cbv zeta in *.
  set (r := foldl (upd (run_len s alo blo)) (alo, blo, 0) (cells alo ahi blo bhi)) in *.
  simpl in Hge.
  assert (∀ i j k, in_window (alo, ahi, blo, bhi) (i, j, k) → hit_run s i j k →
            k ≤ run_len s alo blo (i + k - 1) (j + k - 1)) as Hrun.
  { intros i j k (? & ? & ? & ? & ?) Hrun.
    rewrite <-(Z2Nat.id k) in * by done. apply run_len_ge; [lia..|done]. }
  assert (∀ i j k, in_window (alo, ahi, blo, bhi) (i, j, k) → hit_run s i j k →
            k ≤ r.2) as Hle.
  { intros i j k Hw Hh. destruct (decide (k = 0)); [lia|].
    etrans; [by apply Hrun|].
    apply (Hmax (i + k - 1, j + k - 1)). apply elem_of_cells. simpl.
    destruct Hw as (? & ? & ? & ? & ?). lia. }
  destruct Hr as [Hr|(pre & [ei ej] & post & Hcs & Hr & Hf & Hpos & Hpre)].
  - rewrite Hr in *. simpl in *. split_and!; [lia..| |done|].
    + intros d ?. lia.
    + intros i j k Hw Hh. split; [by eapply Hle|]. intros -> ?. lia.
  - simpl in *.
    assert ((ei, ej) ∈ cells alo ahi blo bhi) as Hin.
    { rewrite Hcs. set_solver. }
    apply elem_of_cells in Hin. simpl in Hin.
    destruct (run_len_run ei ej) as [Hrun1 Hrun2]. rewrite Hf in Hrun1, Hrun2.
    rewrite Hr. simpl. split_and!; [lia..| |lia| |lia| | |].
    + lia.
    + lia.
    + done.
    + lia.
    + intros i j k Hw Hh. split; [by eapply Hle|]. intros -> Hk Hlt.
      assert ((i + r.2 - 1, j + r.2 - 1) ∈ pre) as Hp.
      { eapply cells_before; [done| |].
        - apply elem_of_cells. simpl. destruct Hw as (? & ? & ? & ? & ?). lia.
        - unfold cell_lt in *. simpl in *. lia. }
      apply Hpre in Hp. simpl in Hp.
      pose proof (Hrun _ _ _ Hw Hh). lia.
Qed.

Lemma scan_longest_first ahi bhi :
  alo ≤ ahi → 0 ≤ blo → blo ≤ bhi → bhi ≤ Z.of_nat (length (sm_b s)) →
  longest_first (hit s) (alo, ahi, blo, bhi) (scan s alo ahi blo bhi).1.
Proof.
  intros ????. pose proof (scan_spec ahi bhi) as Hsp. cbv zeta in Hsp.
  destruct Hsp as (? & ? & Hz & ?); [done..|]. split_and!; [done..| |done].
  intros Hk. by rewrite (Hz Hk).
Qed.
End window.
End WindowFacts.

Module ExtendFacts.
Import Grid Difflib DifflibSpec DifflibFacts RowFacts BestFacts WindowFacts.

Section extend.
Context `{Countable A}.
Variable s : SequenceMatcher A.
Hypothesis Hs : chained s.

Lemma isbjunk_chained x : isbjunk s x = false.
Proof.
  destruct x as [e|]; [|done]. simpl. rewrite (proj1 Hs).
  by rewrite bool_decide_false by set_solver.
Qed.

Lemma extend_left_window junk alo ahi blo bhi n m :
  in_window (alo, ahi, blo, bhi) m →
  in_window (alo, ahi, blo, bhi) (extend_left s junk alo blo n m).
Proof.
  revert m. induction n as [|n IH]; intros [[i j] k] Hw; cbn [extend_left]; [done|].
  destruct (can_extend_left s junk alo blo (i, j, k)) eqn:Hc; [|done].
  unfold can_extend_left in Hc.
  repeat (apply andb_true_iff in Hc as [Hc ?]).
  apply bool_decide_eq_true in Hc. repeat case_bool_decide; try done.
  apply IH. simpl in *. lia.
Qed.

Lemma extend_right_window junk alo ahi blo bhi n m :
  in_window (alo, ahi, blo, bhi) m →
  in_window (alo, ahi, blo, bhi) (extend_right s junk ahi bhi n m).
Proof.
  revert m. induction n as [|n IH]; intros [[i j] k] Hw; cbn [extend_right]; [done|].
  destruct (can_extend_right s junk ahi bhi (i, j, k)) eqn:Hc; [|done].
  unfold can_extend_right in Hc.
  repeat (apply andb_true_iff in Hc as [Hc ?]).
  apply bool_decide_eq_true in Hc. repeat case_bool_decide; try done.
  apply IH. simpl in *. lia.
Qed.

(** The bound given to each loop is enough: where the recursion ends, the
    loop's condition is false. *)
Lemma extend_left_exhausted junk alo blo n m :
  m.1.1 - alo ≤ Z.of_nat n →
  can_extend_left s junk alo blo (extend_left s junk alo blo n m) = false.
Proof.
  revert m. induction n as [|n IH]; intros [[i j] k] Hn; cbn [extend_left].
  - unfold can_extend_left. simpl in Hn. by rewrite bool_decide_false by lia.
  - destruct (can_extend_left s junk alo blo (i, j, k)) eqn:Hc; [|done].
    apply IH. simpl in *. lia.
Qed.

Lemma extend_right_exhausted junk ahi bhi n m :
  ahi - (m.1.1 + m.2) ≤ Z.of_nat n →
  can_extend_right s junk ahi bhi (extend_right s junk ahi bhi n m) = false.
Proof.
  revert m. induction n as [|n IH]; intros [[i j] k] Hn; cbn [extend_right].
  - unfold can_extend_right. simpl in Hn. by rewrite bool_decide_false by lia.
  - destruct (can_extend_right s junk ahi bhi (i, j, k)) eqn:Hc; [|done].
    apply IH. simpl in *. lia.
Qed.

(** The junk-absorbing loops never run: there is no junk. *)
Lemma extend_left_junk alo blo n m : extend_left s true alo blo n m = m.
Proof.
  destruct n as [|n], m as [[i j] k]; cbn [extend_left]; [done|].
  unfold can_extend_left.
  rewrite isbjunk_chained. rewrite (bool_decide_false (false = true)) by done.
  by rewrite andb_false_r.
Qed.

Lemma extend_right_junk ahi bhi n m : extend_right s true ahi bhi n m = m.
Proof.
  destruct n as [|n], m as [[i j] k]; cbn [extend_right]; [done|].
  unfold can_extend_right.
  rewrite isbjunk_chained. rewrite (bool_decide_false (false = true)) by done.
  by rewrite andb_false_r.
Qed.

Lemma find_longest_match_extend alo ahi blo bhi :
  find_longest_match s alo ahi blo bhi =
  let m0 := (scan s alo ahi blo bhi).1 in
  let m1 := extend_left s false alo blo (left_room alo m0) m0 in
  extend_right s false ahi bhi (right_room ahi m1) m1.
Proof.
  unfold find_longest_match. cbv zeta.
  by rewrite extend_right_junk, extend_left_junk.
Qed.

(** The block returned for a window lies inside that window. *)
Lemma find_longest_match_window alo ahi blo bhi :
  valid_window s (alo, ahi, blo, bhi) →
  in_window (alo, ahi, blo, bhi) (find_longest_match s alo ahi blo bhi).
Proof.
  intros (? & ? & ? & ? & ? & ?). rewrite find_longest_match_extend. cbv zeta.
  apply extend_right_window, extend_left_window.
  by apply scan_spec.
Qed.

(** The extension loops stop at once on a block that cannot grow. *)
Lemma extend_left_stop alo blo n i j k :
  (alo < i → blo < j → same_elt (sm_a s) (sm_b s) (i - 1) (j - 1) = false) →
  extend_left s false alo blo n (i, j, k) = (i, j, k).
Proof.
  intros Hstop. destruct n as [|n]; cbn [extend_left]; [done|].
  unfold can_extend_left.
  repeat case_bool_decide; simpl; try done. by rewrite Hstop.
Qed.

Lemma extend_right_stop ahi bhi n i j k :
  (i + k < ahi → j + k < bhi →
   same_elt (sm_a s) (sm_b s) (i + k) (j + k) = false) →
  extend_right s false ahi bhi n (i, j, k) = (i, j, k).
Proof.
  intros Hstop. destruct n as [|n]; cbn [extend_right]; [done|].
  unfold can_extend_right.
  repeat case_bool_decide; simpl; try done. by rewrite Hstop.
Qed.

(** On the diagonal of a window whose cells all agree, the loops run to
    both ends of the window. *)
Lemma extend_left_diagonal lo n i k :
  (∀ d, lo ≤ d < i → same_elt (sm_a s) (sm_b s) d d = true) →
  Z.of_nat n = i - lo →
  extend_left s false lo lo n (i, i, k) = (lo, lo, k + (i - lo)).
Proof.
  revert i k. induction n as [|n IH]; intros i k Hd Hn; cbn [extend_left].
  - assert (i = lo) as -> by lia. f_equal; lia.
  - unfold can_extend_left.
    rewrite !bool_decide_true by lia. rewrite isbjunk_chained.
    rewrite bool_decide_true by done. rewrite Hd by lia. cbn [andb fst snd].
    rewrite IH; [f_equal; lia| |lia]. intros d ?. apply Hd. lia.
Qed.

Lemma extend_right_diagonal hi n i k :
  (∀ d, i + k ≤ d < hi → same_elt (sm_a s) (sm_b s) d d = true) →
  Z.of_nat n = hi - (i + k) →
  extend_right s false hi hi n (i, i, k) = (i, i, hi - i).
Proof.
  revert k. induction n as [|n IH]; intros k Hd Hn; cbn [extend_right].
  - f_equal; lia.
  - unfold can_extend_right.
    rewrite !bool_decide_true by lia. rewrite isbjunk_chained.
    rewrite bool_decide_true by done. rewrite Hd by lia. cbn [andb fst snd].
    rewrite IH; [done| |lia]. intros d ?. apply Hd. lia.
Qed.

(** [find_longest_match] returns where all four loops have run out. *)
Lemma find_longest_match_done alo ahi blo bhi :
  let m := find_longest_match s alo ahi blo bhi in
  can_extend_left s false alo blo m = false ∧
  can_extend_right s false ahi bhi m = false.
Proof.
  cbv zeta. rewrite find_longest_match_extend. cbv zeta.
  set (m0 := (scan s alo ahi blo bhi).1).
  set (m1 := extend_left s false alo blo (left_room alo m0) m0).
  assert (can_extend_left s false alo blo m1 = false) as H1.
  { apply extend_left_exhausted. unfold left_room. lia. }
  assert (∀ n, (extend_right s false ahi bhi n m1).1 = m1.1) as Hsame.
  { intros n. generalize m1. induction n as [|n IH]; intros [[i j] k];
      cbn [extend_right]; [done|].
    destruct (can_extend_right _ _ _ _ _); [|done]. by rewrite IH. }
  split.
  - specialize (Hsame (right_room ahi m1)).
    destruct (extend_right s false ahi bhi (right_room ahi m1) m1) as [[i j] k].
    destruct m1 as [[i1 j1] k1]. simpl in Hsame. injection Hsame as -> ->.
    unfold can_extend_left in *. destruct (bool_decide (alo < i1)); [|done].
    destruct (bool_decide (blo < j1)); [|done]. done.
  - apply extend_right_exhausted. unfold right_room. lia.
Qed.
End extend.
End ExtendFacts.

Module LoopFacts.
Import Grid Difflib DifflibSpec DifflibFacts RowFacts BestFacts WindowFacts ExtendFacts.

Lemma total_app l1 l2 : total (l1 ++ l2) = total l1 + total l2.
Proof. unfold total. induction l1 as [|x l1 IH]; simpl; lia. Qed.

Lemma total_nil : total [] = 0.
Proof. done. Qed.

Lemma total_cons x l : total (x :: l) = x + total l.
Proof. done. Qed.

Ltac total_simpl :=
  cbn [andb];
  repeat (rewrite ?fmap_app, ?fmap_cons, ?fmap_nil, ?total_app, ?total_cons, ?total_nil);
  unfold size_of; cbn [fst snd].

Lemma total_Permutation l1 l2 : l1 ≡ₚ l2 → total l1 = total l2.
Proof. unfold total. induction 1; simpl; lia. Qed.

Section loop.
Context `{Countable A}.
Variable s : SequenceMatcher A.
Hypothesis Hs : chained s.

Lemma blocks_loop_step fuel w queue acc :
  blocks_loop s (S fuel) (w :: queue) acc =
  let '(alo, ahi, blo, bhi) := w in
  let m := find_longest_match s alo ahi blo bhi in
  if bool_decide (m.2 = 0) then blocks_loop s fuel queue acc
  else blocks_loop s fuel (pushed w m ++ queue) (acc ++ [m]).
Proof.
  destruct w as [[[alo ahi] blo] bhi]. simpl.
  destruct (find_longest_match s alo ahi blo bhi) as [[i j] k]. simpl.
  case_bool_decide; [done|].
  by destruct (bool_decide (alo < i) && bool_decide (blo < j)),
    (bool_decide (i + k < ahi) && bool_decide (j + k < bhi)).
Qed.

Lemma pushed_valid w m :
  valid_window s w → in_window w m → Forall (valid_window s) (pushed w m).
Proof.
  destruct w as [[[alo ahi] blo] bhi], m as [[i j] k]. simpl.
  intros ? ?. apply Forall_app. split.
  - destruct (_ && _); repeat constructor; lia.
  - destruct (_ && _); repeat constructor; lia.
Qed.

Lemma pushed_weight w m :
  in_window w m → m.2 ≠ 0 →
  (sum_list_with weight (pushed w m) < weight w)%nat.
Proof.
  destruct w as [[[alo ahi] blo] bhi], m as [[i j] k]. simpl.
  intros ? ?. rewrite sum_list_with_app.
  destruct (_ && _), (_ && _); simpl; lia.
Qed.

(** The queue loop drains its queue within the turns its windows weigh. *)
Lemma blocks_loop_total fuel queue acc :
  Forall (valid_window s) queue →
  (sum_list_with weight queue ≤ fuel)%nat →
  ∃ blocks, blocks_loop s fuel queue acc = Some (acc ++ blocks).
Proof.
  revert queue acc. induction fuel as [|fuel IH]; intros queue acc Hv Hw.
  - destruct queue as [|[[[alo ahi] blo] bhi] queue]; simpl in *; [|lia].
    exists []. by rewrite app_nil_r.
  - destruct queue as [|w queue]; [exists []; by rewrite app_nil_r|].
    rewrite blocks_loop_step. apply Forall_cons in Hv as [Hv Hq].
    pose proof (pushed_valid w) as Hpv. pose proof (pushed_weight w) as Hpw.
    simpl in Hw.
    destruct w as [[[alo ahi] blo] bhi]. cbv zeta.
    pose proof (find_longest_match_window s Hs _ _ _ _ Hv) as Hin.
    set (m := find_longest_match s alo ahi blo bhi) in *.
    case_bool_decide as Hk.
    + apply IH; [done|]. simpl in Hw. lia.
    + destruct (IH (pushed (alo, ahi, blo, bhi) m ++ queue) (acc ++ [m]))
        as [blocks Hb].
      * apply Forall_app. split; [by apply Hpv|done].
      * rewrite sum_list_with_app. specialize (Hpw m Hin Hk). lia.
      * exists (m :: blocks). rewrite Hb. by rewrite <-app_assoc.
Qed.

(** Any quantity that splits over a window the way the loop does is what
    the collected blocks add up to. *)
Lemma blocks_loop_sum (V : Window → Z) fuel queue acc res :
  (∀ alo ahi blo bhi, valid_window s (alo, ahi, blo, bhi) →
     let m := find_longest_match s alo ahi blo bhi in
     V (alo, ahi, blo, bhi) =
     if bool_decide (m.2 = 0) then 0
     else m.2 + total (V <$> pushed (alo, ahi, blo, bhi) m)) →
  Forall (valid_window s) queue →
  blocks_loop s fuel queue acc = Some res →
  total (size_of <$> res) = total (size_of <$> acc) + total (V <$> queue).
Proof.
  intros HV. revert queue acc.
  induction fuel as [|fuel IH]; intros queue acc Hv Hres.
  - destruct queue as [|[[[alo ahi] blo] bhi] queue]; simpl in *; [|done].
    injection Hres as <-. total_simpl. lia.
  - destruct queue as [|w queue].
    { simpl in Hres. injection Hres as <-. total_simpl. lia. }
    rewrite blocks_loop_step in Hres. apply Forall_cons in Hv as [Hv Hq].
    pose proof (pushed_valid w) as Hpv.
    destruct w as [[[alo ahi] blo] bhi]. cbv zeta in Hres.
    pose proof (find_longest_match_window s Hs _ _ _ _ Hv) as Hin.
    specialize (HV _ _ _ _ Hv). cbv zeta in HV.
    set (m := find_longest_match s alo ahi blo bhi) in *.
    rewrite fmap_cons, total_cons, HV. case_bool_decide as Hk.
    + rewrite (IH _ _ Hq Hres). lia.
    + rewrite (IH _ _ (proj2 (Forall_app _ _ _) (conj (Hpv m Hv Hin) Hq)) Hres).
      total_simpl. lia.
Qed.

(** Sorting and merging adjacent blocks keep the sum of the sizes. *)
Lemma collapse_total cur blocks acc :
  total (size_of <$> collapse cur blocks acc) =
  total (size_of <$> acc) + size_of cur + total (size_of <$> blocks).
Proof.
  revert cur acc. induction blocks as [|[[i2 j2] k2] blocks IH];
    intros [[i1 j1] k1] acc; cbn [collapse].
  - case_bool_decide; [subst|]; total_simpl; lia.
  - destruct (_ && _).
    + rewrite IH. total_simpl. lia.
    + rewrite IH. case_bool_decide; [subst|]; total_simpl; lia.
Qed.

Lemma matches_of_blocks blocks :
  blocks_loop s (queue_budget s)
    [(0, Z.of_nat (length (sm_a s)), 0, Z.of_nat (length (sm_b s)))] [] = Some blocks →
  matches s = Some (total (size_of <$> blocks)).
Proof.
  intros Hb. unfold matches, get_matching_blocks. rewrite Hb. simpl. f_equal.
  fold (total (size_of <$> (collapse (0, 0, 0) (merge_sort Match_le blocks) []
    ++ [(Z.of_nat (length (sm_a s)), Z.of_nat (length (sm_b s)), 0)]))).
  rewrite fmap_app, total_app, collapse_total.
  rewrite (total_Permutation (size_of <$> merge_sort Match_le blocks) (size_of <$> blocks)).
  2:{ apply fmap_Permutation, merge_sort_Permutation. }
  total_simpl. lia.
Qed.

Lemma matches_total (V : Window → Z) :
  (∀ alo ahi blo bhi, valid_window s (alo, ahi, blo, bhi) →
     let m := find_longest_match s alo ahi blo bhi in
     V (alo, ahi, blo, bhi) =
     if bool_decide (m.2 = 0) then 0
     else m.2 + total (V <$> pushed (alo, ahi, blo, bhi) m)) →
  matches s =
  Some (V (0, Z.of_nat (length (sm_a s)), 0, Z.of_nat (length (sm_b s)))).
Proof.
  intros HV.
  set (w0 := (0, Z.of_nat (length (sm_a s)), 0, Z.of_nat (length (sm_b s)))).
  assert (valid_window s w0) as Hw0 by (simpl; lia).
  destruct (blocks_loop_total (queue_budget s) [w0] []) as [blocks Hb].
  { by constructor. }
  { unfold queue_budget. simpl. lia. }
  rewrite (matches_of_blocks _ Hb). f_equal.
  assert (Forall (valid_window s) [w0]) as Hq by by constructor.
  pose proof (blocks_loop_sum V _ _ _ _ HV Hq Hb) as Hsum.
  revert Hsum. total_simpl. lia.
Qed.

Lemma matches_is_Some : is_Some (matches s).
Proof.
  unfold matches, get_matching_blocks.
  set (w0 := (0, Z.of_nat (length (sm_a s)), 0, Z.of_nat (length (sm_b s)))).
  destruct (blocks_loop_total (queue_budget s) [w0] []) as [blocks Hb].
  { constructor; [simpl; lia|done]. }
  { unfold queue_budget. simpl. lia. }
  rewrite Hb. simpl. eauto.
Qed.
End loop.
End LoopFacts.

Module CaseFacts.
Import Grid Difflib DifflibSpec DifflibFacts RowFacts BestFacts WindowFacts
  ExtendFacts LoopFacts.

Section cases.
Context `{Countable A}.
Variable s : SequenceMatcher A.
Hypothesis Hs : chained s.

Lemma hit_same_elt i j :
  hit s i j = true → same_elt (sm_a s) (sm_b s) i j = true.
Proof.
  unfold hit, same_elt. destruct (getitem (sm_a s) i) as [e|]; [|done].
  intros [_ ->%bool_decide_eq_true]%andb_true_iff. by apply bool_decide_eq_true.
Qed.

Lemma same_elt_diagonal (x : list A) d :
  0 ≤ d < Z.of_nat (length x) → same_elt x x d d = true.
Proof.
  intros Hd. unfold same_elt.
  destruct (getitem_is_Some x d Hd) as [e ->]. by apply bool_decide_eq_true.
Qed.

Lemma hit_diagonal i j :
  sm_a s = sm_b s → hit s i j = true → hit s i i = true ∧ hit s j j = true.
Proof.
  intros Hab. unfold hit. rewrite <-Hab.
  destruct (getitem (sm_a s) i) as [e|] eqn:Hi; [|done].
  intros [Hp Hj%bool_decide_eq_true]%andb_true_iff.
  rewrite Hj, Hp. simpl. split; by apply bool_decide_eq_true.
Qed.

(** No element in common: every window yields the empty block. *)
Lemma find_longest_match_disjoint alo ahi blo bhi :
  (∀ i j, same_elt (sm_a s) (sm_b s) i j = false) →
  valid_window s (alo, ahi, blo, bhi) →
  find_longest_match s alo ahi blo bhi = (alo, blo, 0).
Proof.
  intros Hd (? & ? & ? & ? & ? & ?). rewrite (find_longest_match_extend s Hs). cbv zeta.
  pose proof (scan_spec s Hs alo blo ahi bhi) as Hsp. cbv zeta in Hsp.
  destruct Hsp as (Hk & Hrun & Hz & _); [lia..|].
  destruct (scan s alo ahi blo bhi).1 as [[i j] k] eqn:Hr. simpl in *.
  assert (k = 0) as ->.
  { destruct (decide (k = 0)); [done|]. exfalso.
    pose proof (hit_same_elt (i + 0) (j + 0) (Hrun 0 ltac:(lia))) as Hh.
    by rewrite Hd in Hh. }
  rewrite Hz by done.
  rewrite (extend_left_stop s) by (intros; apply Hd).
  by rewrite (extend_right_stop s) by (intros; apply Hd).
Qed.

Lemma matches_disjoint :
  (∀ i j, same_elt (sm_a s) (sm_b s) i j = false) → matches s = Some 0.
Proof.
  intros Hd. rewrite (matches_total s Hs (λ _, 0)); [done|].
  intros alo ahi blo bhi Hw. cbv zeta.
  by rewrite find_longest_match_disjoint.
Qed.

(** The same sequence on both sides: the whole window is one block. *)
Lemma find_longest_match_diagonal :
  sm_a s = sm_b s →
  let n := Z.of_nat (length (sm_a s)) in
  find_longest_match s 0 n 0 n = (0, 0, n).
Proof.
  intros Hab n. rewrite (find_longest_match_extend s Hs). cbv zeta.
  assert (Z.of_nat (length (sm_b s)) = n) as Hn by by rewrite <-Hab.
  pose proof (scan_spec s Hs 0 0 n n) as Hsp. cbv zeta in Hsp.
  destruct Hsp as (Hw & Hrun & Hz & Hbest); [lia..|].
  destruct (scan s 0 n 0 n).1 as [[i j] k] eqn:Hr. simpl in *.
  assert (i = j) as <-.
  { destruct (decide (k = 0)) as [->|]; [by injection (Hz eq_refl) as -> ->|].
    assert (hit_run s i i k ∧ hit_run s j j k) as [Hi Hj].
    { split; intros d Hd; by destruct (hit_diagonal _ _ Hab (Hrun d Hd)). }
    destruct (Hbest i i k) as [_ Hii]; [lia|done|].
    destruct (Hbest j j k) as [_ Hjj]; [lia|done|].
    specialize (Hii eq_refl ltac:(lia)). specialize (Hjj eq_refl ltac:(lia)).
    unfold cell_lt in *. simpl in *. lia. }
  unfold left_room. cbn [fst snd].
  rewrite (extend_left_diagonal s Hs 0 (Z.to_nat (i - 0)) i k); [|
    intros d ?; rewrite <-Hab; apply same_elt_diagonal; lia | lia].
  unfold right_room. cbn [fst snd].
  rewrite (extend_right_diagonal s Hs n _ 0 (k + (i - 0))); [f_equal; lia| |lia].
  intros d ?. rewrite <-Hab. apply same_elt_diagonal. lia.
Qed.

Lemma matches_diagonal :
  sm_a s = sm_b s → matches s = Some (Z.of_nat (length (sm_a s))).
Proof.
  intros Hab. destruct (decide (length (sm_a s) = 0%nat)) as [Hz|Hz].
  - rewrite Hz. apply matches_disjoint. intros i j. unfold same_elt.
    destruct (getitem (sm_a s) i) as [e|] eqn:He; [|done].
    apply getitem_lt in He. lia.
  - rewrite (matches_of_blocks s [(0, 0, Z.of_nat (length (sm_a s)))]).
    { total_simpl. f_equal. lia. }
    unfold queue_budget. rewrite blocks_loop_step. cbv zeta.
    assert (Z.of_nat (length (sm_b s)) = Z.of_nat (length (sm_a s))) as -> by by rewrite <-Hab.
    rewrite (find_longest_match_diagonal Hab). cbn [fst snd].
    rewrite bool_decide_false by lia. unfold pushed.
    rewrite !bool_decide_false by lia. simpl.
    by destruct (length (sm_a s) + (length (sm_a s) + 0))%nat.
Qed.
End cases.
End CaseFacts.

Module ReferenceFacts.
Import Grid Difflib DifflibSpec DifflibFacts BestFacts Reference.

Section runs.
Context `{Countable A}.
Implicit Types a b xs ys : list A.

Lemma prefix_len_nonneg xs ys : 0 ≤ prefix_len xs ys.
Proof.
  revert ys. induction xs as [|x xs IH]; intros [|y ys]; simpl; try done.
  case_decide; [|done]. specialize (IH ys). lia.
Qed.

Lemma prefix_len_length xs ys :
  prefix_len xs ys ≤ Z.of_nat (length xs) ∧ prefix_len xs ys ≤ Z.of_nat (length ys).
Proof.
  revert ys. induction xs as [|x xs IH]; intros [|y ys]; simpl; try lia.
  case_decide; [|lia]. specialize (IH ys). lia.
Qed.

Lemma prefix_len_agree xs ys (d : nat) :
  Z.of_nat d < prefix_len xs ys → ∃ e, xs !! d = Some e ∧ ys !! d = Some e.
Proof.
  revert ys d. induction xs as [|x xs IH]; intros [|y ys] d; simpl; try lia.
  case_decide as Hxy; [|lia]. subst y. destruct d as [|d]; simpl; [eauto|].
  intros ?. apply IH. lia.
Qed.

Lemma prefix_len_max xs ys (k : nat) :
  (∀ d, (d < k)%nat → ∃ e, xs !! d = Some e ∧ ys !! d = Some e) →
  Z.of_nat k ≤ prefix_len xs ys.
Proof.
  revert xs ys. induction k as [|k IH]; intros xs ys Hk.
  - apply prefix_len_nonneg.
  - destruct (Hk 0%nat ltac:(lia)) as (e & Hx & Hy).
    destruct xs as [|x xs], ys as [|y ys]; simplify_eq/=.
    rewrite decide_True by done.
    assert (Z.of_nat k ≤ prefix_len xs ys); [|lia].
    apply IH. intros d ?. apply (Hk (S d)). lia.
Qed.

Lemma same_elt_spec a b i j :
  same_elt a b i j = true ↔ ∃ e, getitem a i = Some e ∧ getitem b j = Some e.
Proof.
  unfold same_elt. destruct (getitem a i) as [x|], (getitem b j) as [y|];
    rewrite ?bool_decide_eq_true; naive_solver.
Qed.

Lemma getitem_from a i d :
  0 ≤ i → 0 ≤ d → from a i !! Z.to_nat d = getitem a (i + d).
Proof.
  intros ??. unfold from, getitem. rewrite bool_decide_true by lia.
  rewrite lookup_drop. f_equal. lia.
Qed.

Lemma run_at_nonneg a b i j : 0 ≤ run_at a b i j.
Proof. apply prefix_len_nonneg. Qed.

Lemma run_at_run a b i j :
  0 ≤ i → 0 ≤ j → run_of (same_elt a b) i j (run_at a b i j).
Proof.
  intros Hi Hj d Hd. apply same_elt_spec.
  destruct (prefix_len_agree (from a i) (from b j) (Z.to_nat d)) as (e & Ha & Hb).
  { unfold run_at in Hd. lia. }
  exists e. by rewrite <-!getitem_from by lia.
Qed.

Lemma run_at_ge a b i j k :
  0 ≤ i → 0 ≤ j → run_of (same_elt a b) i j k → k ≤ run_at a b i j.
Proof.
  intros Hi Hj Hrun. destruct (decide (0 ≤ k)); [|pose proof (run_at_nonneg a b i j); lia].
  rewrite <-(Z2Nat.id k) by done. apply prefix_len_max. intros d Hd.
  specialize (Hrun (Z.of_nat d) ltac:(lia)).
  apply same_elt_spec in Hrun as (e & Ha & Hb). exists e.
  rewrite <-(Nat2Z.id d). by rewrite !getitem_from by lia.
Qed.

Lemma run_at_bound a b i j :
  0 ≤ i ≤ Z.of_nat (length a) → 0 ≤ j ≤ Z.of_nat (length b) →
  i + run_at a b i j ≤ Z.of_nat (length a) ∧
  j + run_at a b i j ≤ Z.of_nat (length b).
Proof.
  intros ??. pose proof (prefix_len_length (from a i) (from b j)) as [??].
  unfold run_at, from in *. rewrite !length_drop in *. lia.
Qed.

(** The run the reference picks is the longest, and the first among the
    longest. *)
Lemma longest_common_run_spec a b :
  longest_first (same_elt a b)
    (0, Z.of_nat (length a), 0, Z.of_nat (length b))
    (longest_common_run a b).
Proof.
  unfold longest_common_run.
  set (la := Z.of_nat (length a)). set (lb := Z.of_nat (length b)).
  pose proof (first_max start_block (run_at a b) (λ _ _, eq_refl)
                (cells 0 la 0 lb) (0, 0, 0)) as (Hmax & Hge & Hr).
  cbv zeta in *.
  change (foldl _ (0, 0, 0) (cells 0 la 0 lb))
    with (foldl (pick start_block (run_at a b)) (0, 0, 0) (cells 0 la 0 lb)).
  set (r := foldl (pick start_block (run_at a b)) (0, 0, 0) (cells 0 la 0 lb)) in *.
  simpl in Hge.
  assert (∀ i j k, in_window (0, la, 0, lb) (i, j, k) →
            run_of (same_elt a b) i j k → k ≤ r.2) as Hle.
  { intros i j k (? & ? & ? & ? & ?) Hrun. destruct (decide (k = 0)); [lia|].
    etrans; [apply (run_at_ge a b i j k); [lia..|done]|].
    apply (Hmax (i, j)). apply elem_of_cells. simpl. lia. }
  destruct Hr as [Hr|(pre & [ci cj] & post & Hcs & Hr & Hf & Hpos & Hpre)].
  - rewrite Hr in *. split_and!; simpl; [lia..| |done|].
    + intros d ?. lia.
    + intros i j k Hw Hrun. split; [by eapply Hle|]. intros -> ?. lia.
  - assert ((ci, cj) ∈ cells 0 la 0 lb) as Hin by (rewrite Hcs; set_solver).
    apply elem_of_cells in Hin. simpl in Hin, Hf.
    pose proof (run_at_bound a b ci cj ltac:(lia) ltac:(lia)) as [??].
    pose proof (run_at_run a b ci cj ltac:(lia) ltac:(lia)) as Hrun.
    rewrite Hf in *. rewrite Hr. unfold start_block. simpl in Hpos.
    split_and!; simpl; [lia|done|intros; lia|].
    intros i j k Hw Hh. split; [by eapply Hle|]. intros -> Hk Hlt.
    assert ((i, j) ∈ pre) as Hp.
    { eapply cells_before; [done| |done].
      apply elem_of_cells. simpl. destruct Hw as (? & ? & ? & ? & ?). lia. }
    apply Hpre in Hp. simpl in Hp.
    pose proof (run_at_ge a b i j r.2) as Hge'.
    destruct Hw as (? & ? & ? & ? & ?). specialize (Hge' ltac:(lia) ltac:(lia) Hh). lia.
Qed.
End runs.
End ReferenceFacts.

Module SliceFacts.
Import Grid Difflib DifflibSpec DifflibFacts BestFacts Reference ReferenceFacts.

Section longest_first.
Lemma longest_first_unique h w r r' :
  longest_first h w r → longest_first h w r' → r = r'.
Proof.
  destruct r as [[i j] k], r' as [[i' j'] k'].
  intros (Hw & Hrun & Hz & Hbest) (Hw' & Hrun' & Hz' & Hbest'). simpl in *.
  destruct (Hbest _ _ _ Hw' Hrun') as [? Ht].
  destruct (Hbest' _ _ _ Hw Hrun) as [? Ht'].
  assert (k = k') as <- by lia.
  destruct (decide (k = 0)) as [->|].
  - specialize (Hz eq_refl). specialize (Hz' eq_refl). congruence.
  - destruct w as [[[alo ahi] blo] bhi]. simpl in Hw.
    specialize (Ht eq_refl ltac:(lia)). specialize (Ht' eq_refl ltac:(lia)).
    unfold cell_lt in *. simpl in *.
    assert (i = i') by lia. assert (j = j') by lia. congruence.
Qed.

Lemma longest_first_shift (h h' : Z → Z → bool) alo ahi blo bhi r :
  (∀ i j, 0 ≤ i < ahi - alo → 0 ≤ j < bhi - blo →
     h' i j = h (alo + i) (blo + j)) →
  longest_first h' (0, ahi - alo, 0, bhi - blo) r →
  longest_first h (alo, ahi, blo, bhi) (alo + r.1.1, blo + r.1.2, r.2).
Proof.
  destruct r as [[i j] k]. intros Hh (Hw & Hrun & Hz & Hbest). simpl in *.
  split_and!; simpl.
  - lia.
  - intros d Hd. rewrite <-!Z.add_assoc, <-Hh by lia. by apply Hrun.
  - intros Hk. injection (Hz Hk) as -> ->. f_equal; lia.
  - intros i' j' k' Hw' Hrun'.
    destruct (Hbest (i' - alo) (j' - blo) k') as [? Ht]; [lia| |].
    + intros d Hd. rewrite Hh by lia.
      replace (alo + (i' - alo + d)) with (i' + d) by lia.
      replace (blo + (j' - blo + d)) with (j' + d) by lia. by apply Hrun'.
    + split; [done|]. intros Hk Hpos Hlt. apply (Ht Hk Hpos).
      unfold cell_lt in *. simpl in *. lia.
Qed.
End longest_first.

Section slices.
Context `{Countable A}.
Implicit Types a b x : list A.

Lemma length_slice x lo hi :
  0 ≤ lo → lo ≤ hi → hi ≤ Z.of_nat (length x) →
  Z.of_nat (length (slice x lo hi)) = hi - lo.
Proof.
  intros ???. unfold slice. rewrite length_drop, length_take. lia.
Qed.

Lemma getitem_slice x lo hi i :
  0 ≤ lo → 0 ≤ i < hi - lo → getitem (slice x lo hi) i = getitem x (lo + i).
Proof.
  intros ??. unfold getitem, slice. rewrite !bool_decide_true by lia.
  rewrite lookup_drop, lookup_take_lt by lia. f_equal. lia.
Qed.

Lemma upto_slice x lo hi i :
  0 ≤ lo → 0 ≤ i → lo + i ≤ hi → upto (slice x lo hi) i = slice x lo (lo + i).
Proof.
  intros ???. unfold upto, slice.
  rewrite take_drop_commute, take_take. do 2 f_equal. lia.
Qed.

Lemma from_slice x lo hi i :
  0 ≤ lo → 0 ≤ i → from (slice x lo hi) i = slice x (lo + i) hi.
Proof.
  intros ??. unfold from, slice. rewrite drop_drop. f_equal. lia.
Qed.

Lemma slice_all x : slice x 0 (Z.of_nat (length x)) = x.
Proof. unfold slice. simpl. rewrite drop_0. apply take_ge. lia. Qed.

Lemma slice_empty x lo hi : 0 ≤ lo → hi ≤ lo → slice x lo hi = [].
Proof.
  intros ??. unfold slice. apply drop_ge. rewrite length_take. lia.
Qed.

Lemma same_elt_slice a b alo ahi blo bhi i j :
  0 ≤ alo → 0 ≤ blo → 0 ≤ i < ahi - alo → 0 ≤ j < bhi - blo →
  same_elt (slice a alo ahi) (slice b blo bhi) i j =
  same_elt a b (alo + i) (blo + j).
Proof.
  intros ????. unfold same_elt. by rewrite !getitem_slice by lia.
Qed.

(** The reference search on an empty text, and its recursion equation. *)
Lemma longest_common_run_window a b :
  in_window (0, Z.of_nat (length a), 0, Z.of_nat (length b)) (longest_common_run a b).
Proof. apply longest_common_run_spec. Qed.

Lemma longest_common_run_nil_l b : (longest_common_run (@nil A) b).2 = 0.
Proof.
  pose proof (longest_common_run_window [] b) as Hw.
  destruct (longest_common_run [] b) as [[i j] k]. simpl in *. lia.
Qed.

Lemma longest_common_run_nil_r a : (longest_common_run a (@nil A)).2 = 0.
Proof.
  pose proof (longest_common_run_window a []) as Hw.
  destruct (longest_common_run a []) as [[i j] k]. simpl in *. lia.
Qed.

Lemma matched_upto_nil_l n b : matched_upto n (@nil A) b = 0.
Proof.
  destruct n as [|n]; cbn [matched_upto]; [done|].
  pose proof (longest_common_run_nil_l b) as Hk.
  destruct (longest_common_run [] b) as [[i j] k]. simpl in Hk.
  by rewrite bool_decide_true.
Qed.

Lemma matched_upto_nil_r n a : matched_upto n a (@nil A) = 0.
Proof.
  destruct n as [|n]; cbn [matched_upto]; [done|].
  pose proof (longest_common_run_nil_r a) as Hk.
  destruct (longest_common_run a []) as [[i j] k]. simpl in Hk.
  by rewrite bool_decide_true.
Qed.

Lemma matched_upto_enough n m a b :
  (length a ≤ n)%nat → (length a ≤ m)%nat →
  matched_upto n a b = matched_upto m a b.
Proof.
  revert m a b. induction n as [|n IH]; intros m a b Hn Hm.
  - destruct a; [|simpl in Hn; lia]. by rewrite !matched_upto_nil_l.
  - destruct m as [|m].
    { destruct a; [|simpl in Hm; lia]. by rewrite !matched_upto_nil_l. }
    cbn [matched_upto]. pose proof (longest_common_run_window a b) as Hw.
    destruct (longest_common_run a b) as [[i j] k]. simpl in Hw.
    case_bool_decide; [done|].
    rewrite (IH m (upto a i)), (IH m (from a (i + k))); [done|..];
      unfold upto, from; rewrite ?length_take, ?length_drop; lia.
Qed.

Lemma matched_unfold a b :
  matched a b =
  let '(i, j, k) := longest_common_run a b in
  if bool_decide (k = 0) then 0
  else k + matched (upto a i) (upto b j)
         + matched (from a (i + k)) (from b (j + k)).
Proof.
  unfold matched at 1. destruct a as [|x a].
  { rewrite matched_upto_nil_l.
    pose proof (longest_common_run_nil_l b) as Hk.
    destruct (longest_common_run [] b) as [[i j] k]. simpl in Hk.
    by rewrite bool_decide_true. }
  cbn [length matched_upto].
  pose proof (longest_common_run_window (x :: a) b) as Hw.
  destruct (longest_common_run (x :: a) b) as [[i j] k]. simpl in Hw.
  case_bool_decide; [done|]. unfold matched.
  rewrite (matched_upto_enough (length a) (length (upto (x :: a) i))),
    (matched_upto_enough (length a) (length (from (x :: a) (i + k)))); [done|..];
    unfold upto, from; rewrite ?length_take, ?length_drop; simpl; lia.
Qed.

Lemma matched_nil_l b : matched (@nil A) b = 0.
Proof. apply matched_upto_nil_l. Qed.

Lemma matched_nil_r a : matched a (@nil A) = 0.
Proof. apply matched_upto_nil_r. Qed.
End slices.
End SliceFacts.

Module RefinementFacts.
Import Grid Difflib DifflibSpec DifflibFacts RowFacts BestFacts WindowFacts
  ExtendFacts LoopFacts Reference ReferenceFacts SliceFacts.

Section no_popular.
Context `{Countable A}.
Variable s : SequenceMatcher A.
Hypothesis Hs : chained s.
Hypothesis Hpop : bpopular s = ∅.

Lemma hit_no_popular i j : hit s i j = same_elt (sm_a s) (sm_b s) i j.
Proof.
  unfold hit, same_elt. destruct (getitem (sm_a s) i) as [e|]; [|done].
  rewrite Hpop. rewrite (bool_decide_true (e ∉ ∅)) by set_solver. simpl.
  destruct (getitem (sm_b s) j) as [y|]; [|done].
  apply bool_decide_ext. naive_solver.
Qed.

(** Without popular elements the scan already returns a block that cannot
    grow, so the extension loops leave it alone. *)
Lemma find_longest_match_scan alo ahi blo bhi :
  valid_window s (alo, ahi, blo, bhi) →
  find_longest_match s alo ahi blo bhi = (scan s alo ahi blo bhi).1.
Proof.
  intros (? & ? & ? & ? & ? & ?). rewrite (find_longest_match_extend s Hs). cbv zeta.
  destruct (scan_longest_first s Hs alo blo ahi bhi) as (Hw & Hrun & _ & Hbest);
    [done..|].
  destruct (scan s alo ahi blo bhi).1 as [[i j] k]. simpl in *.
  rewrite extend_left_stop.
  2:{ intros ??. destruct (same_elt _ _ (i - 1) (j - 1)) eqn:He; [|done]. exfalso.
      destruct (Hbest (i - 1) (j - 1) (k + 1)) as [? _]; [lia| |lia].
      intros d Hd. destruct (decide (d = 0)) as [->|].
      - by rewrite hit_no_popular, !Z.add_0_r.
      - replace (i - 1 + d) with (i + (d - 1)) by lia.
        replace (j - 1 + d) with (j + (d - 1)) by lia. apply Hrun. lia. }
  rewrite extend_right_stop; [done|].
  intros ??. destruct (same_elt _ _ (i + k) (j + k)) eqn:He; [|done]. exfalso.
  destruct (Hbest i j (k + 1)) as [? _]; [lia| |lia].
  intros d Hd. destruct (decide (d = k)) as [->|].
  - by rewrite hit_no_popular.
  - apply Hrun. lia.
Qed.

(** Every window is answered as the reference algorithm answers on the
    two slices. *)
Lemma find_longest_match_reference alo ahi blo bhi :
  valid_window s (alo, ahi, blo, bhi) →
  find_longest_match s alo ahi blo bhi =
  let r := longest_common_run (slice (sm_a s) alo ahi) (slice (sm_b s) blo bhi) in
  (alo + r.1.1, blo + r.1.2, r.2).
Proof.
  intros Hv. rewrite find_longest_match_scan by done.
  destruct Hv as (? & ? & ? & ? & ? & ?). cbv zeta.
  apply (longest_first_unique (hit s) (alo, ahi, blo, bhi)).
  - by apply scan_longest_first.
  - apply (longest_first_shift (hit s)
      (same_elt (slice (sm_a s) alo ahi) (slice (sm_b s) blo bhi))).
    + intros i j ??. by rewrite hit_no_popular, same_elt_slice.
    + rewrite <-(length_slice (sm_a s) alo ahi),
        <-(length_slice (sm_b s) blo bhi) by lia.
      apply longest_common_run_spec.
Qed.

Lemma matches_reference : matches s = Some (matched (sm_a s) (sm_b s)).
Proof.
  rewrite (matches_total s Hs
    (λ w, matched (slice (sm_a s) w.1.1.1 w.1.1.2) (slice (sm_b s) w.1.2 w.2))).
  { simpl. by rewrite !slice_all. }
  intros alo ahi blo bhi Hv. cbv zeta. cbn [fst snd].
  rewrite find_longest_match_reference by done. cbv zeta. cbn [fst snd].
  rewrite matched_unfold.
  destruct Hv as (? & ? & ? & ? & ? & ?).
  pose proof (longest_common_run_window (slice (sm_a s) alo ahi) (slice (sm_b s) blo bhi)) as Hw.
  rewrite !length_slice in Hw by lia.
  destruct (longest_common_run _ _) as [[i j] k]. simpl in Hw. cbn [fst snd].
  case_bool_decide; [done|]. unfold pushed.
  rewrite !upto_slice, !from_slice by lia.
  replace (alo + (i + k)) with (alo + i + k) by lia.
  replace (blo + (j + k)) with (blo + j + k) by lia.
  assert (∀ lo hi lo' hi', 0 ≤ lo → 0 ≤ lo' → hi ≤ lo ∨ hi' ≤ lo' →
            matched (slice (sm_a s) lo hi) (slice (sm_b s) lo' hi') = 0) as Hempty.
  { intros lo hi lo' hi' ?? [?|?].
    - rewrite (slice_empty (sm_a s)) by lia. apply matched_nil_l.
    - rewrite (slice_empty (sm_b s)) by lia. apply matched_nil_r. }
  repeat case_bool_decide; total_simpl;
    rewrite ?(Hempty alo (alo + i) blo (blo + j)) by lia;
    rewrite ?(Hempty (alo + i + k) ahi (blo + j + k) bhi) by lia; lia.
Qed.
End no_popular.
End RefinementFacts.

(** ** Properties of [calculate_similarity] *)

Section similarity.
Context `{Countable A}.
Implicit Types a b x : list A.
Import Difflib DifflibSpec DifflibFacts ScanFacts LoopFacts CaseFacts RefinementFacts.

Lemma Qc_of_Z_nonzero n : n ≠ 0 → Qc_of_Z n ≠ 0%Qc.
Proof. intros Hn. rewrite <-Z2Qc_inj_0. by intros ?%Z2Qc_inj. Qed.

Lemma calculate_similarity_matches a b m :
  matches (new a b) = Some m →
  calculate_similarity a b =
  Some (_calculate_ratio m (Z.of_nat (length a) + Z.of_nat (length b)) * Qc_of_Z 100)%Qc.
Proof. intros Hm. unfold calculate_similarity, ratio. by rewrite Hm. Qed.

(** The similarity is a value for every pair of texts. *)
Lemma calculate_similarity_total a b : is_Some (calculate_similarity a b).
Proof.
  destruct (matches_is_Some (new a b) (chained_new a b)) as [m Hm].
  rewrite (calculate_similarity_matches a b m Hm). eauto.
Qed.

Lemma heuristic_idle_popular a b : heuristic_idle b → bpopular (new a b) = ∅.
Proof.
  intros Hidle. apply set_eq. intros e. split; [|set_solver].
  simpl. rewrite popular_of_spec. intros [? ?]. exfalso.
  destruct Hidle as [?|Hidle]; [lia|]. specialize (Hidle e). lia.
Qed.

Lemma disjoint_same_elt a b i j : disjoint_texts a b → same_elt a b i j = false.
Proof.
  intros Hd. unfold same_elt.
  destruct (getitem a i) as [x|] eqn:Ha; [|done].
  destruct (getitem b j) as [y|] eqn:Hb; [|done].
  apply bool_decide_eq_false. intros ->.
  apply getitem_Some in Ha as [_ Ha]. apply getitem_Some in Hb as [_ Hb].
  apply (Hd y); by eapply list_elem_of_lookup_2.
Qed.

Lemma calculate_similarity_disjoint a b :
  disjoint_texts a b →
  calculate_similarity a b =
  Some (if bool_decide (Z.of_nat (length a) + Z.of_nat (length b) = 0)
        then Qc_of_Z 100 else Qc_of_Z 0).
Proof.
  intros Hd. rewrite (calculate_similarity_matches a b 0).
  2:{ apply matches_disjoint; [apply chained_new|].
      intros i j. by apply disjoint_same_elt. }
  f_equal. unfold _calculate_ratio. case_bool_decide.
  - apply Qc_is_canon. reflexivity.
  - rewrite !Z2Qc_inj_0. field. by apply Qc_of_Z_nonzero.
Qed.

Lemma calculate_similarity_same x :
  x ≠ [] → calculate_similarity x x = Some (Qc_of_Z 100).
Proof.
  intros Hx. rewrite (calculate_similarity_matches x x (Z.of_nat (length x))).
  2:{ apply (matches_diagonal (new x x)); [apply chained_new|done]. }
  assert (Z.of_nat (length x) ≠ 0) as Hn by (destruct x; simpl; [done|lia]).
  f_equal. unfold _calculate_ratio. rewrite bool_decide_false by lia.
  rewrite Z2Qc_inj_add, Z2Qc_inj_2. field.
  rewrite <-Z2Qc_inj_add. apply Qc_of_Z_nonzero. lia.
Qed.
End similarity.

(** ** Facts about the pipeline *)

Module PipelineFacts.
Import Py Lib PipelineSpec.

Lemma bind_run {X Y} (m : M X) (k : X → M Y) s :
  (m ≫= k) s =
  match m s with
  | (Return x, s') => k x s'
  | (Raise e, s') => (Raise e, s')
  end.
Proof. done. Qed.

Lemma logged_nil s : logged s [] [] = s.
Proof. destruct s. unfold logged. simpl. by rewrite !app_nil_r. Qed.

Lemma logged_logged s cs1 ls1 cs2 ls2 :
  logged (logged s cs1 ls1) cs2 ls2 = logged s (cs1 ++ cs2) (ls1 ++ ls2).
Proof. unfold logged. simpl. by rewrite !app_assoc. Qed.

Lemma record_call_run c s : record_call c s = (Return tt, logged s [c] []).
Proof. unfold record_call, logged. by rewrite app_nil_r. Qed.

Lemma print_run line s : print line s = (Return tt, logged s [] [line]).
Proof. unfold print, logged. by rewrite app_nil_r. Qed.

Lemma os_path_exists_run path s :
  os_path_exists path s =
  (Return (bool_decide (is_Some (fs s !! path))), logged s [os_path_exists_call path] []).
Proof. unfold os_path_exists. by rewrite bind_run, record_call_run. Qed.

Lemma os_access_run path mode s :
  os_access path mode s =
  (Return (match fs s !! path with Some n => r_ok n | None => false end),
   logged s [os_access_call path mode] []).
Proof. unfold os_access. by rewrite bind_run, record_call_run. Qed.

Lemma os_stat_run path n s :
  fs s !! path = Some n →
  os_stat path s = (Return n, logged s [os_stat_call path] []).
Proof.
  intros Hn. unfold os_stat. rewrite bind_run, record_call_run.
  rewrite bind_run. unfold get. simpl. by rewrite Hn.
Qed.

(** The three checks, in their order, each with its own message. *)
Lemma check_file_access_run filename s :
  check_file_access filename s =
  match fs s !! filename with
  | None =>
      (Return false,
       logged s [os_path_exists_call filename] ["File does not exist."])
  | Some n =>
      if negb (r_ok n) then
        (Return false,
         logged s [os_path_exists_call filename; os_access_call filename R_OK]
           ["File is not readable. Permission denied."])
      else if negb (S_ISREG (st_mode n)) then
        (Return false,
         logged s [os_path_exists_call filename; os_access_call filename R_OK;
                   os_stat_call filename]
           ["File permissions: " +:+ oct (st_mode n); "File is not a regular file."])
      else
        (Return true,
         logged s [os_path_exists_call filename; os_access_call filename R_OK;
                   os_stat_call filename]
           ["File permissions: " +:+ oct (st_mode n);
            "File is accessible and ready for processing."])
  end.
Proof.
  unfold check_file_access. rewrite bind_run, os_path_exists_run.
  destruct (fs s !! filename) as [n|] eqn:Hn.
  - rewrite bool_decide_true by eauto. cbn [negb].
    rewrite bind_run, os_access_run. cbn [fs logged]. rewrite Hn.
    destruct (r_ok n); cbn [negb].
    + rewrite bind_run, (os_stat_run _ n) by done.
      rewrite bind_run, print_run.
      destruct (S_ISREG (st_mode n)); cbn [negb];
        rewrite bind_run, print_run; unfold mret, M_ret, ret;
        by rewrite !logged_logged.
    + rewrite bind_run, print_run. unfold mret, M_ret, ret.
      by rewrite !logged_logged.
  - rewrite bool_decide_false by (by intros [??]). cbn [negb].
    rewrite bind_run, print_run. unfold mret, M_ret, ret.
    by rewrite !logged_logged.
Qed.

Lemma check_file_access_accessible filename s :
  accessible s filename →
  ∃ mode,
    check_file_access filename s =
    (Return true,
     logged s [os_path_exists_call filename; os_access_call filename R_OK;
               os_stat_call filename]
       ["File permissions: " +:+ oct mode;
        "File is accessible and ready for processing."]).
Proof.
  intros (n & Hn & Hr & Hreg). exists (st_mode n).
  by rewrite check_file_access_run, Hn, Hr, Hreg.
Qed.

Lemma check_file_access_logged filename s :
  ∃ b cs ls, check_file_access filename s = (Return b, logged s cs ls).
Proof.
  rewrite check_file_access_run.
  destruct (fs s !! filename) as [n|]; [|eauto].
  destruct (r_ok n); cbn [negb]; [|eauto].
  destruct (S_ISREG (st_mode n)); cbn [negb]; eauto.
Qed.

Section conversion.
Variable L : lib.

Lemma cv2_imread_run path s :
  cv2_imread L path s = (Return (load L (fs s) path), logged s [cv2_imread_call path] []).
Proof. unfold cv2_imread. by rewrite bind_run, record_call_run. Qed.

Lemma cv2_cvtColor_run img s :
  cv2_cvtColor L img COLOR_BGR2GRAY s =
  (Return (grayscale L img), logged s [cv2_cvtColor_call COLOR_BGR2GRAY] []).
Proof. unfold cv2_cvtColor. by rewrite bind_run, record_call_run. Qed.

Lemma cv2_dilate_run img kernel s :
  cv2_dilate img kernel 1 s =
  (Return (morph Z.max kernel img), logged s [cv2_dilate_call kernel 1] []).
Proof. unfold cv2_dilate. by rewrite bind_run, record_call_run. Qed.

Lemma cv2_erode_run img kernel s :
  cv2_erode img kernel 1 s =
  (Return (morph Z.min kernel img), logged s [cv2_erode_call kernel 1] []).
Proof. unfold cv2_erode. by rewrite bind_run, record_call_run. Qed.

Lemma cv2_threshold_run src s :
  cv2_threshold L src 128 255 (THRESH_BINARY + THRESH_OTSU) s =
  (Return (otsu L src, binarize (otsu L src) 255 src),
   logged s [cv2_threshold_call 128 255 (THRESH_BINARY + THRESH_OTSU)] []).
Proof. unfold cv2_threshold. by rewrite bind_run, record_call_run. Qed.

Lemma image_to_string_run img s :
  image_to_string L img s =
  (recognise L (tesseract_cmd s) img,
   logged s [image_to_string_call (tesseract_cmd s)] []).
Proof.
  unfold image_to_string. rewrite bind_run. unfold get.
  rewrite bind_run, record_call_run.
  by destruct (recognise L (tesseract_cmd s) img).
Qed.

(** What [process_image] does once the outcome of the access check is
    known. *)
Lemma process_image_after_check filename s b cs ls :
  check_file_access filename s = (Return b, logged s cs ls) →
  OCRProcessor.process_image L filename s =
  if b then
    match load L (fs s) filename with
    | None =>
        (Raise (RuntimeError "Failed to process image: Failed to read image. The file may be inaccessible or corrupted."),
         logged s (cs ++ [cv2_imread_call filename]) ls)
    | Some img =>
        (match recognise L (tesseract_cmd s) (preprocessed L img) with
         | Return text => Return text
         | Raise e => Raise (RuntimeError ("Failed to process image: " +:+ exn_str e))
         end,
         logged s (cs ++ [cv2_imread_call filename; cv2_cvtColor_call COLOR_BGR2GRAY;
                          cv2_dilate_call [[1]] 1; cv2_erode_call [[1]] 1;
                          cv2_threshold_call 128 255 (THRESH_BINARY + THRESH_OTSU);
                          image_to_string_call (tesseract_cmd s)]) ls)
    end
  else
    (Raise (RuntimeError "Failed to process image: File is not accessible."),
     logged s cs ls).
Proof.
  intros Hcheck.
  unfold OCRProcessor.process_image, try_except, OCRProcessor.process_image_body.
  rewrite bind_run, Hcheck. destruct b; cbn [negb]; [|done].
  rewrite bind_run, cv2_imread_run. cbn [fs logged].
  destruct (load L (fs s) filename) as [img|].
  2:{ unfold raise. cbn [exn_str RuntimeError]. by rewrite logged_logged, app_nil_r. }
  rewrite bind_run, cv2_cvtColor_run.
  change (np_ones 1 1) with [[1]].
  rewrite bind_run, cv2_dilate_run, bind_run, cv2_erode_run.
  rewrite bind_run, cv2_threshold_run. cbn [snd].
  rewrite bind_run, image_to_string_run. cbn [tesseract_cmd logged].
  fold (logged s cs ls). rewrite !logged_logged, !app_nil_r.
  change (binarize _ 255 _) with (preprocessed L img).
  cbn [app].
  by destruct (recognise L (tesseract_cmd s) (preprocessed L img)).
Qed.
End conversion.
End PipelineFacts.

Module ImageFacts.
Import Py Lib PipelineSpec.

Lemma imap_same {X} (f : nat → X → X) (l : list X) :
  (∀ i x, l !! i = Some x → f i x = x) → imap f l = l.
Proof.
  revert f. induction l as [|x l IH]; intros f Hf; [done|].
  simpl. rewrite (Hf 0%nat x) by done. f_equal.
  apply IH. intros i y Hy. by apply (Hf (S i)).
Qed.

(** A 1x1 kernel of ones leaves every pixel as it is. *)
Lemma morph_1x1 best (img : gray_image) : morph best (np_ones 1 1) img = img.
Proof.
  unfold gray_image in *. unfold morph. apply imap_same. intros y row Hrow.
  apply imap_same. intros x v Hv.
  unfold morph_pixel. change (offsets (np_ones 1 1)) with [(0, 0)].
  cbn [omap list_omap fst snd]. unfold pixel, gray_image.
  rewrite !Z.add_0_r, !bool_decide_true by lia. cbn [andb].
  rewrite !Nat2Z.id. rewrite Hrow. simpl. by rewrite Hv.
Qed.

Lemma preprocessed_binarize L img :
  preprocessed L img = binarize (otsu L (grayscale L img)) 255 (grayscale L img).
Proof. unfold preprocessed. cbv zeta. by rewrite !morph_1x1. Qed.

Lemma binarize_two_level t maxval src :
  Forall (Forall (λ v, v = 0 ∨ v = maxval)) (binarize t maxval src).
Proof.
  unfold binarize. apply Forall_fmap, Forall_true. intros row.
  apply Forall_fmap, Forall_true. intros v. simpl. case_bool_decide; auto.
Qed.

Lemma map_replicate {X Y} (f : X → Y) n x :
  map f (replicate n x) = replicate n (f x).
Proof. induction n as [|n IH]; simpl; [done|]. by rewrite IH. Qed.

Lemma remove_dups_constant (x : Z) (l : list Z) :
  Forall (λ y, y = x) l → (length (remove_dups l) ≤ 1)%nat.
Proof.
  induction 1 as [|y l -> Hl IH]; simpl; [lia|].
  case_decide as Hin; [done|]. destruct l as [|z l]; [simpl; lia|].
  exfalso. apply Hin. apply Forall_cons in Hl as [-> _]. set_solver.
Qed.

(** An image whose pixels are all the same comes out with a single level,
    whatever the grayscale weights and whatever threshold is selected. *)
Lemma uniform_image_single_level L rows cols p :
  (length (levels (preprocessed L (replicate rows (replicate cols p)))) ≤ 1)%nat.
Proof.
  rewrite preprocessed_binarize. unfold grayscale, binarize, levels.
  rewrite !map_replicate.
  set (t := otsu L _). set (v := if bool_decide (t < luma L p) then 255 else 0).
  apply (remove_dups_constant v). apply Forall_forall. intros y Hy.
  apply list_elem_of_In, in_concat in Hy as (row & Hrow & Hy).
  apply list_elem_of_In in Hrow, Hy.
  apply elem_of_replicate in Hrow as [-> _].
  by apply elem_of_replicate in Hy as [-> _].
Qed.
End ImageFacts.

Module ClockFacts.
Import Py.

Lemma digit_inj a b : 0 ≤ a ≤ 9 → 0 ≤ b ≤ 9 → digit a = digit b → a = b.
Proof.
  intros ?? Heq. unfold digit in Heq. apply (f_equal N_of_ascii) in Heq.
  rewrite !N_ascii_embedding in Heq by lia.
  apply N.add_cancel_l in Heq. apply (f_equal Z.of_N) in Heq.
  by rewrite !Z2N.id in Heq by lia.
Qed.

Ltac div_lia := Z.div_mod_to_equations; lia.

Lemma pad2_inj a b : 0 ≤ a ≤ 99 → 0 ≤ b ≤ 99 → pad2 a = pad2 b → a = b.
Proof.
  intros ?? [= H1 H0]. apply digit_inj in H1, H0; div_lia.
Qed.

Lemma pad4_inj a b : 0 ≤ a ≤ 9999 → 0 ≤ b ≤ 9999 → pad4 a = pad4 b → a = b.
Proof.
  intros ?? [= H3 H2 H1 H0]. apply digit_inj in H3, H2, H1, H0; div_lia.
Qed.




End ClockFacts.

Module WriterFacts.
Import Py Lib PipelineSpec PipelineFacts ClockFacts.

Lemma add_directories_lookup (fs : gmap string inode) ds p :
  foldr add_directory fs ds !! p =
  match fs !! p with
  | Some n => Some n
  | None => if bool_decide (p ∈ ds) then Some new_directory else None
  end.
Proof.
  revert p. induction ds as [|d ds IH]; intros p; cbn [foldr].
  - rewrite bool_decide_false by apply not_elem_of_nil. by destruct (fs !! p).
  - assert (∀ q, bool_decide (q ∈ d :: ds) = bool_decide (q = d) || bool_decide (q ∈ ds)) as Hcons.
    { intros q. apply eq_true_iff_eq.
      rewrite orb_true_iff, !bool_decide_eq_true. set_solver. }
    rewrite Hcons. unfold add_directory at 1.
    destruct (foldr add_directory fs ds !! d) as [n|] eqn:Hd.
    + rewrite IH. destruct (fs !! p) eqn:Hp; [done|].
      destruct (decide (p = d)) as [->|Hpd].
      * rewrite (bool_decide_true (d = d)) by done. cbn [orb].
        rewrite IH, Hp in Hd. by destruct (bool_decide (d ∈ ds)).
      * by rewrite (bool_decide_false (p = d)) by done.
    + destruct (decide (p = d)) as [->|Hpd].
      * rewrite (bool_decide_true (d = d)) by done. cbn [orb].
        rewrite lookup_insert_eq. rewrite IH in Hd. by destruct (fs !! d).
      * rewrite (bool_decide_false (p = d)) by done.
        rewrite lookup_insert_ne by done. by rewrite IH.
Qed.

Section writer.
Variable L : lib.

Lemma os_makedirs_success path s s' :
  os_makedirs L path s = (Return tt, s') →
  fs s' = foldr add_directory (fs s) (ancestors path ++ [path]) ∧
  clock s' = clock s.
Proof.
  unfold os_makedirs. rewrite bind_run, record_call_run, bind_run. unfold get.
  cbn [fs logged]. case_bool_decide; [done|]. case_bool_decide; [done|].
  destruct (refuse L path); [done|]. destruct (forallb _ _); [|done].
  unfold set_fs. by intros [= <-].
Qed.

Lemma output_success pdf name s s' :
  output L pdf name s = (Return tt, s') →
  fs s' = <[name := new_file (Document pdf)]> (fs s) ∧ clock s' = clock s.
Proof.
  unfold output. rewrite bind_run, record_call_run, bind_run. unfold get.
  cbn [fs logged]. destruct (refuse L name); [done|].
  destruct (_ || _); [|done]. destruct (is_directory _ _); [done|].
  unfold set_fs. by intros [= <-].
Qed.

Lemma ensure_directory_success dir s s' :
  (if negb (bool_decide (is_Some (fs s !! dir)))
   then os_makedirs L dir else mret tt) s = (Return tt, s') →
  is_Some (fs s' !! dir) ∧
  (fs s !! dir = None → Forall (λ d, is_Some (fs s' !! d)) (ancestors dir)) ∧
  (∀ p n, fs s !! p = Some n → fs s' !! p = Some n) ∧
  clock s' = clock s.
Proof.
  case_bool_decide as Hex; cbn [negb].
  - intros [= <-]. split_and!; [done| |done..].
    intros Hnone. rewrite Hnone in Hex. by destruct Hex.
  - intros [Hfs Hclock]%os_makedirs_success. rewrite Hfs. split_and!.
    + rewrite add_directories_lookup. destruct (fs s !! dir); [done|].
      rewrite bool_decide_true by set_solver. done.
    + intros _. apply Forall_forall. intros d Hd.
      rewrite add_directories_lookup. destruct (fs s !! d); [done|].
      rewrite bool_decide_true by set_solver. done.
    + intros p n Hp. by rewrite add_directories_lookup, Hp.
    + done.
Qed.

Lemma datetime_now_run s :
  datetime_now s = (Return (clock s), logged s [datetime_now_call] []).
Proof. unfold datetime_now. by rewrite bind_run, record_call_run. Qed.

(** What a successful [save_to_pdf] leaves behind. *)
Lemma save_to_pdf_success text output_dir s path s' :
  OCRProcessor.save_to_pdf L text output_dir s = (Return path, s') →
  let dir := default "output" output_dir in
  path = os_path_join dir (artifact_name (clock s)) ∧
  is_Some (fs s' !! dir) ∧
  (fs s !! dir = None → Forall (λ d, is_Some (fs s' !! d)) (ancestors dir)) ∧
  fs s' !! path = Some (new_file (Document (pdf_of text))) ∧
  (∀ p n, fs s !! p = Some n → p ≠ path → fs s' !! p = Some n).
Proof.
  unfold OCRProcessor.save_to_pdf, try_except, OCRProcessor.save_to_pdf_body.
  set (dir := default "output" output_dir). cbv zeta.
  rewrite bind_run, os_path_exists_run, bind_run.
  pose proof (ensure_directory_success dir (logged s [os_path_exists_call dir] [])) as Hdir.
  cbn [fs logged] in Hdir.
  destruct ((if negb (bool_decide (is_Some (fs s !! dir)))
             then os_makedirs L dir else ret tt)
              (logged s [os_path_exists_call dir] [])) as [[[]|e] s1] eqn:He; [|done].
  destruct (Hdir s1 He) as (Hd1 & Hd2 & Hd3 & Hc1). clear Hdir.
  cbn [clock logged] in Hc1.
  rewrite bind_run, datetime_now_run. cbn [clock logged]. rewrite bind_run.
  fold (artifact_name (clock s1)).
  change (write (set_font (add_page (FPDF_new "letter")) "Arial" 12) 5 text)
    with (pdf_of text).
  pose proof (output_success (pdf_of text)
    (os_path_join dir (artifact_name (clock s1)))
    (logged s1 [datetime_now_call] [])) as Hout.
  destruct (output L (pdf_of text) (os_path_join dir (artifact_name (clock s1)))
              (logged s1 [datetime_now_call] [])) as [[[]|e] s2]; [|done].
  destruct (Hout s2 eq_refl) as [Hfs2 Hc2]. clear Hout. cbn [fs logged] in Hfs2.
  rewrite Hc1 in *. intros [= <- <-]. split_and!.
  - done.
  - rewrite Hfs2. apply lookup_insert_is_Some'. by right.
  - intros Hnone. apply Forall_forall. intros d Hd. rewrite Hfs2.
    specialize (Hd2 Hnone). rewrite Forall_forall in Hd2.
    apply lookup_insert_is_Some'. right. by apply Hd2.
  - rewrite Hfs2. apply lookup_insert_eq.
  - intros p n Hp Hne. rewrite Hfs2, lookup_insert_ne by done. by apply Hd3.
Qed.

(** A failed [save_to_pdf] reports the cause inside a [RuntimeError]. *)
Lemma save_to_pdf_failure text output_dir s e s' :
  OCRProcessor.save_to_pdf L text output_dir s = (Raise e, s') →
  ∃ cause,
    (OCRProcessor.save_to_pdf_body L text (default "output" output_dir) s).1 = Raise cause ∧
    e = RuntimeError ("Failed to save PDF: " +:+ exn_str cause).
Proof.
  unfold OCRProcessor.save_to_pdf, try_except.
  destruct (OCRProcessor.save_to_pdf_body L text (default "output" output_dir) s)
    as [[path|cause] s1]; [done|].
  unfold raise. intros [= <- <-]. eauto.
Qed.
End writer.
End WriterFacts.

Module ChoiceFacts.
Import Grid Difflib DifflibSpec DifflibFacts BestFacts Reference ReferenceFacts SliceFacts.

Section choice.
Context `{Countable A}.
Implicit Types a b : list A.

Lemma common_run_spec a b i j k :
  common_run a b i j k ↔
  in_window (0, Z.of_nat (length a), 0, Z.of_nat (length b)) (i, j, k) ∧
  run_of (same_elt a b) i j k.
Proof.
  unfold common_run, in_window, run_of. split.
  - intros (? & ? & ? & ? & ? & Heq). split; [lia|]. intros d Hd.
    apply same_elt_spec.
    destruct (getitem_is_Some a (i + d) ltac:(lia)) as [e He]. exists e.
    split; [done|]. rewrite <-getitem_from in He |- * by lia.
    apply (f_equal (λ l, l !! Z.to_nat d)) in Heq. unfold upto in Heq.
    rewrite !lookup_take_lt in Heq by lia. by rewrite <-Heq.
  - intros [(? & ? & ? & ? & ?) Hrun]. split_and!; [lia..|].
    unfold upto. apply list_eq. intros n.
    destruct (decide (n < Z.to_nat k)%nat) as [Hn|Hn].
    + rewrite !lookup_take_lt by done.
      specialize (Hrun (Z.of_nat n) ltac:(lia)).
      apply same_elt_spec in Hrun as (e & Ha & Hb).
      rewrite <-(Nat2Z.id n). by rewrite !getitem_from, Ha, Hb by lia.
    + by rewrite !lookup_take_ge by lia.
Qed.

Lemma matched_by_choice_nonneg a b m : matched_by_choice a b m → 0 ≤ m.
Proof. induction 1; lia. Qed.

(** The reference function is one of the admissible totals. *)
Lemma matched_is_a_choice a b : matched_by_choice a b (matched a b).
Proof.
  remember (length a) as n eqn:Hn. assert (length a ≤ n)%nat as Hle by lia.
  clear Hn. revert a b Hle. induction n as [|n IH]; intros a b Hle.
  - destruct a; [|simpl in Hle; lia]. rewrite matched_nil_l.
    apply nothing_in_common. intros i j k (? & ? & ? & ? & ? & ?). simpl in *. lia.
  - rewrite matched_unfold.
    pose proof (longest_common_run_spec a b) as (Hw & Hrun & _ & Hbest).
    destruct (longest_common_run a b) as [[i j] k]. simpl in Hw, Hrun, Hbest.
    case_bool_decide as Hk.
    + subst k. apply nothing_in_common. intros i' j' k' Hc.
      apply common_run_spec in Hc as [Hw' Hrun'].
      destruct (Hbest _ _ _ Hw' Hrun') as [? _]. simpl in Hw'. lia.
    + apply (around_a_longest_run a b i j k).
      * lia.
      * apply common_run_spec. by split.
      * intros i' j' k' Hc. apply common_run_spec in Hc as [Hw' Hrun'].
        by destruct (Hbest _ _ _ Hw' Hrun').
      * apply IH. unfold upto. rewrite length_take. lia.
      * apply IH. unfold from. rewrite length_drop. lia.
Qed.
End choice.
End ChoiceFacts.

(** ** Facts about the directories of a write and the levels of an image *)

Module DirectoryFacts.
Import Py Lib PipelineSpec PipelineFacts ClockFacts WriterFacts.









Section directories.
Variable L : lib.


End directories.
End DirectoryFacts.

Module LevelFacts.
Import Py Lib PipelineSpec ImageFacts KindSpec.

Lemma concat_binarize t maxval (src : gray_image) :
  concat (binarize t maxval src)
  = map (λ v, if bool_decide (t < v) then maxval else 0) (concat src).
Proof. unfold binarize. symmetry. apply concat_map. Qed.

(** Which values a thresholded image holds. *)
Lemma elem_of_binarize t (src : gray_image) v :
  v ∈ concat (binarize t 255 src) ↔
  (v = 255 ∧ some_above t src) ∨ (v = 0 ∧ some_at_or_below t src).
Proof.
  rewrite concat_binarize. unfold some_above, some_at_or_below. split.
  - intros (g & -> & Hg)%list_elem_of_fmap. case_bool_decide.
    + left. eauto.
    + right. split; [done|]. exists g. split; [done|lia].
  - intros [(-> & g & Hg & ?)|(-> & g & Hg & ?)];
      apply list_elem_of_fmap; exists g; (split; [|done]).
    + by rewrite bool_decide_true.
    + by rewrite bool_decide_false by lia.
Qed.

(** The number of distinct values of a list that holds nothing but 0
    and 255. *)
Lemma two_valued_length (l : list Z) :
  (∀ v, v ∈ l → v = 0 ∨ v = 255) →
  length (remove_dups l) =
  Nat.add (if decide (0 ∈ l) then 1%nat else 0%nat)
          (if decide (255 ∈ l) then 1%nat else 0%nat).
Proof.
  intros Hvals.
  assert (remove_dups l ≡ₚ
          (if decide (0 ∈ l) then [0] else []) ++ (if decide (255 ∈ l) then [255] else []))
    as ->.
  { apply NoDup_Permutation.
    - apply NoDup_remove_dups.
    - destruct (decide (0 ∈ l)), (decide (255 ∈ l)); cbn [app];
        repeat constructor; set_solver.
    - intros v. rewrite elem_of_remove_dups. split.
      + intros Hv. destruct (Hvals v Hv) as [->| ->].
        * rewrite decide_True by done. set_solver.
        * rewrite (decide_True (P := 255 ∈ l)) by done. set_solver.
      + destruct (decide (0 ∈ l)), (decide (255 ∈ l)); cbn [app]; set_solver. }
  rewrite length_app. by destruct (decide (0 ∈ l)), (decide (255 ∈ l)).
Qed.

Lemma binarize_levels t (src : gray_image) :
  (length (levels (binarize t 255 src)) = 2%nat ↔ some_above t src ∧ some_at_or_below t src)
  ∧ (length (levels (binarize t 255 src)) ≤ 2)%nat
  ∧ (length (levels (binarize t 255 src)) = 0%nat ↔ concat src = []).
Proof.
  unfold levels. rewrite two_valued_length.
  2:{ intros v [[-> _]|[-> _]]%elem_of_binarize; auto. }
  assert (0 ∈ concat (binarize t 255 src) ↔ some_at_or_below t src) as H0.
  { rewrite elem_of_binarize. naive_solver. }
  assert (255 ∈ concat (binarize t 255 src) ↔ some_above t src) as H255.
  { rewrite elem_of_binarize. naive_solver. }
  assert (concat src = [] ↔ ¬ some_above t src ∧ ¬ some_at_or_below t src) as Hnil.
  { unfold some_above, some_at_or_below. split.
    - intros ->. split; intros (g & Hg & _); by apply elem_of_nil in Hg.
    - intros [Ha Hb]. destruct (concat src) as [|g l]; [done|]. exfalso.
      destruct (decide (t < g)); [apply Ha|apply Hb]; exists g; split;
        (apply list_elem_of_here || lia). }
  rewrite Hnil, <-H0, <-H255.
  destruct (decide (0 ∈ _)), (decide (255 ∈ _)); split_and!; naive_solver lia.
Qed.
End LevelFacts.

(** ** The similarity score *)

Section similarity_claims.
Context `{Countable A}.
Implicit Types a b x : list A.
Import Difflib DifflibSpec DifflibFacts ScanFacts LoopFacts CaseFacts RefinementFacts.

Lemma disjoint_texts_Forall a b : Forall (λ e, e ∉ b) a → disjoint_texts a b.
Proof. intros Hall e He. by apply (proj1 (Forall_forall _ _) Hall). Qed.

Lemma disjoint_texts_sym a b : disjoint_texts a b → disjoint_texts b a.
Proof. intros Hd e Hb Ha. by apply (Hd e). Qed.

(** C1, as amended. For every pair of texts that are not both empty and
    whose candidate leaves the popularity heuristic idle (fewer than 200
    characters, or no character occurring more than [len // 100 + 1]
    times), [calculate_similarity] returns 100 times the ratio of the
    reference algorithm: longest common contiguous run (the earliest in the
    reference, then in the candidate, among the longest), recursion on the
    remainders left and right of it, [2 * matched / (len(reference) +
    len(candidate))]. *)
Theorem similarity_matches_reference a b :
  heuristic_idle b → a ≠ [] ∨ b ≠ [] →
  calculate_similarity a b = Reference.similarity a b.
Proof.
  intros Hidle Hne.
  pose proof (matches_reference (new a b) (chained_new a b)
                (heuristic_idle_popular a b Hidle)) as Hm.
  cbn [sm_a sm_b new] in Hm.
  rewrite (calculate_similarity_matches a b _ Hm).
  unfold Reference.similarity, Reference.ratio, _calculate_ratio.
  assert (Z.of_nat (length a) + Z.of_nat (length b) ≠ 0).
  { destruct Hne as [?|?]; [destruct a|destruct b]; simpl; try done; lia. }
  by rewrite !bool_decide_false by done.
Qed.

(** C2, as amended. [calculate_similarity a b] equals
    [calculate_similarity b a] when the two texts are equal or have no
    character in common (this covers an empty text on either side). *)
Theorem similarity_symmetric_cases a b :
  a = b ∨ disjoint_texts a b →
  calculate_similarity a b = calculate_similarity b a.
Proof.
  intros [->|Hd]; [done|].
  rewrite (calculate_similarity_disjoint a b Hd).
  rewrite (calculate_similarity_disjoint b a (disjoint_texts_sym a b Hd)).
  by rewrite (Z.add_comm (Z.of_nat (length b))).
Qed.

(** C3. For every non-empty text [x], the similarity of [x] with itself
    is 100 and the similarity of [x] with the empty text is 0. *)
Theorem similarity_self_and_empty x :
  x ≠ [] →
  calculate_similarity x x = Some (Qc_of_Z 100) ∧
  calculate_similarity x [] = Some (Qc_of_Z 0).
Proof.
  intros Hx. split; [by apply calculate_similarity_same|].
  rewrite calculate_similarity_disjoint by (intros e _ ?%elem_of_nil; done).
  rewrite bool_decide_false; [done|]. destruct x; simpl; [done|lia].
Qed.

(** C10. The similarity of the empty text with the empty text is 100. *)
Theorem similarity_empty_empty :
  calculate_similarity (@nil A) [] = Some (Qc_of_Z 100).
Proof.
  rewrite calculate_similarity_disjoint by (intros e ?%elem_of_nil; done).
  by rewrite bool_decide_true.
Qed.
End similarity_claims.

(** C1, as stated, fails: on a candidate of 200 equal characters the letter
    [a] is popular and is never matched, so the score is 0, while the
    reference algorithm matches one character (whichever of the equally long
    runs it takes) and scores 200/202. *)
Lemma similarity_departs_from_reference :
  calculate_similarity (str "xa") (replicate 200 "a"%char)
  ≠ Reference.similarity (str "xa") (replicate 200 "a"%char).
Proof. vm_compute. intros [= ?]. Qed.

(** No rule for ties repairs this: whichever longest run is taken at each
    level, at least one character of "xa" is matched against the 200 "a"s,
    so every admissible reference score is positive. *)
Lemma no_choice_of_run_agrees (m : Z) :
  Reference.matched_by_choice (str "xa") (replicate 200 "a"%char) m →
  calculate_similarity (str "xa") (replicate 200 "a"%char)
  ≠ Some (Qc_of_Z 2 * Qc_of_Z m / Qc_of_Z 202 * Qc_of_Z 100)%Qc.
Proof.
  intros Hm.
  assert (0 < m) as Hpos.
  { inversion Hm as [a b Hnone|a b i j k m1 m2 Hk _ _ H1 H2]; subst.
    - assert (1 = 0); [|done]. apply (Hnone 1 0 1).
      unfold Reference.common_run. by vm_compute.
    - apply ChoiceFacts.matched_by_choice_nonneg in H1, H2. lia. }
  assert (calculate_similarity (str "xa") (replicate 200 "a"%char) = Some (Qc_of_Z 0))
    as -> by (vm_compute; f_equal; apply Qc_is_canon; reflexivity).
  intros Heq. apply (f_equal (default 0%Qc)) in Heq.
  cbn [default from_option id] in Heq. unfold id in Heq.
  assert (Qc_of_Z m = Qc_of_Z 0) as Hz%Z2Qc_inj; [|lia].
  assert (Qc_of_Z 2 ≠ 0%Qc ∧ Qc_of_Z 202 ≠ 0%Qc ∧ Qc_of_Z 100 ≠ 0%Qc)
    as (? & ? & ?) by (split_and!; by apply Qc_of_Z_nonzero).
  transitivity (Qc_of_Z 2 * Qc_of_Z m / Qc_of_Z 202 * Qc_of_Z 100
                * (Qc_of_Z 202 / (Qc_of_Z 2 * Qc_of_Z 100)))%Qc.
  - field. done.
  - rewrite <-Heq, !Z2Qc_inj_0. field. done.
Qed.

Lemma similarity_matches_reference_witness :
  heuristic_idle (str "diet") ∧ (str "tide" ≠ [] ∨ str "diet" ≠ []) ∧
  calculate_similarity (str "tide") (str "diet")
  = Reference.similarity (str "tide") (str "diet").
Proof.
  assert (heuristic_idle (str "diet")) as Hidle by (left; simpl; lia).
  assert (str "tide" ≠ [] ∨ str "diet" ≠ []) as Hne by (left; discriminate).
  split; [exact Hidle|]. split; [exact Hne|].
  exact (similarity_matches_reference (str "tide") (str "diet") Hidle Hne).
Defined.

(** C2, as stated, fails: the score of "tide" against "diet" is 25, the
    score of "diet" against "tide" is 50. *)
Lemma similarity_not_symmetric :
  calculate_similarity (str "tide") (str "diet")
  ≠ calculate_similarity (str "diet") (str "tide").
Proof. vm_compute. intros [= ?]. Qed.

(** The same values come out of the binary64 arithmetic. *)
Example similarity_binary64 :
  Binary64.calculate_similarity (str "tide") (str "diet") = Some 25%float ∧
  Binary64.calculate_similarity (str "diet") (str "tide") = Some 50%float ∧
  Binary64.calculate_similarity (str "HELLO WORLD") (str "HELLO WORLD") = Some 100%float ∧
  Binary64.calculate_similarity (str "HELLO WORLD") [] = Some 0%float ∧
  Binary64.calculate_similarity (@nil ascii) [] = Some 100%float ∧
  Binary64.calculate_similarity (str "xa") (replicate 200 "a"%char) = Some 0%float.
Proof. repeat split; vm_compute; reflexivity. Qed.

Example similarity_tide_diet :
  calculate_similarity (str "tide") (str "diet") = Some (Qc_of_Z 25) ∧
  calculate_similarity (str "diet") (str "tide") = Some (Qc_of_Z 50).
Proof. split; vm_compute; f_equal; apply Qc_is_canon; reflexivity. Qed.

Lemma similarity_symmetric_cases_witness :
  (str "abc" = str "xyz" ∨ disjoint_texts (str "abc") (str "xyz")) ∧
  calculate_similarity (str "abc") (str "xyz")
  = calculate_similarity (str "xyz") (str "abc").
Proof.
  assert (disjoint_texts (str "abc") (str "xyz")) as Hd.
  { apply disjoint_texts_Forall. apply (bool_decide_unpack _). vm_compute. exact I. }
  split; [right; exact Hd|].
  exact (similarity_symmetric_cases (str "abc") (str "xyz") (or_intror Hd)).
Defined.

Lemma similarity_self_and_empty_witness :
  str "HELLO WORLD" ≠ [] ∧
  calculate_similarity (str "HELLO WORLD") (str "HELLO WORLD") = Some (Qc_of_Z 100) ∧
  calculate_similarity (str "HELLO WORLD") [] = Some (Qc_of_Z 0).
Proof.
  assert (str "HELLO WORLD" ≠ []) as Hne by discriminate.
  split; [exact Hne|].
  exact (similarity_self_and_empty (str "HELLO WORLD") Hne).
Defined.

(** ** The conversion pipeline *)

Import Py Lib PipelineSpec PipelineFacts ImageFacts ClockFacts WriterFacts.
Import KindSpec DirectoryFacts LevelFacts.

(** C5. Access validation checks existence, then read permission, then the
    regular-file type, and stops at the first check that fails: the calls it
    makes and the line it prints are those of the first failing check, the
    three reasons differ from one another, and a path that exists, is
    readable and is a regular file gives [True]. *)
Theorem check_file_access_checks (filename : string) (s : state) :
  check_file_access filename s =
  match fs s !! filename with
  | None =>
      (Return false,
       logged s [os_path_exists_call filename] ["File does not exist."])
  | Some n =>
      if negb (r_ok n) then
        (Return false,
         logged s [os_path_exists_call filename; os_access_call filename R_OK]
           ["File is not readable. Permission denied."])
      else if negb (S_ISREG (st_mode n)) then
        (Return false,
         logged s [os_path_exists_call filename; os_access_call filename R_OK;
                   os_stat_call filename]
           ["File permissions: " +:+ oct (st_mode n); "File is not a regular file."])
      else
        (Return true,
         logged s [os_path_exists_call filename; os_access_call filename R_OK;
                   os_stat_call filename]
           ["File permissions: " +:+ oct (st_mode n);
            "File is accessible and ready for processing."])
  end
  ∧ NoDup ["File does not exist."; "File is not readable. Permission denied.";
           "File is not a regular file."].
Proof.
  split; [apply check_file_access_run|].
  apply (bool_decide_unpack _). vm_compute. exact I.
Qed.

Example check_file_access_samples :
  (check_file_access "scan.png" Sample.start).1 = Return true ∧
  stdout (check_file_access "nothing.png" Sample.start).2 = ["File does not exist."] ∧
  stdout (check_file_access "secret.png" Sample.start).2
    = ["File is not readable. Permission denied."] ∧
  stdout (check_file_access "photos" Sample.start).2
    = ["File permissions: 0o40755"; "File is not a regular file."].
Proof. by vm_compute. Qed.

(** C6, as amended. For a file that exists, is readable and is a regular
    file but does not decode as an image, access validation succeeds and
    [process_image] then raises a [RuntimeError], the class of every other
    failure, whose message "Failed to process image: Failed to read image.
    ..." tells the decode failure; the recognition engine is not called and
    no text comes back. *)
Theorem undecodable_file_fails (L : lib) (filename : string) (s : state) :
  accessible s filename → load L (fs s) filename = None →
  (check_file_access filename s).1 = Return true ∧
  (OCRProcessor.process_image L filename s).1 =
    Raise (RuntimeError "Failed to process image: Failed to read image. The file may be inaccessible or corrupted.") ∧
  calls (OCRProcessor.process_image L filename s).2 =
    calls s ++ [os_path_exists_call filename; os_access_call filename R_OK;
                os_stat_call filename; cv2_imread_call filename].
Proof.
  intros Hacc Hload.
  destruct (check_file_access_accessible filename s Hacc) as [mode Hcheck].
  rewrite (process_image_after_check L filename s true _ _ Hcheck), Hcheck, Hload.
  done.
Qed.

Lemma undecodable_file_fails_witness :
  accessible Sample.start "empty.png" ∧
  load Sample.permissive (fs Sample.start) "empty.png" = None ∧
  (check_file_access "empty.png" Sample.start).1 = Return true ∧
  (OCRProcessor.process_image Sample.permissive "empty.png" Sample.start).1 =
    Raise (RuntimeError "Failed to process image: Failed to read image. The file may be inaccessible or corrupted.") ∧
  calls (OCRProcessor.process_image Sample.permissive "empty.png" Sample.start).2 =
    calls Sample.start ++
      [os_path_exists_call "empty.png"; os_access_call "empty.png" R_OK;
       os_stat_call "empty.png"; cv2_imread_call "empty.png"].
Proof.
  assert (accessible Sample.start "empty.png") as Hacc.
  { exists (Inode 0x81A4 true (Bytes EmptyString)). by vm_compute. }
  assert (load Sample.permissive (fs Sample.start) "empty.png" = None) as Hload
    by reflexivity.
  split; [exact Hacc|]. split; [exact Hload|].
  exact (undecodable_file_fails Sample.permissive "empty.png" Sample.start Hacc Hload).
Defined.

(** C6, as stated, fails: the empty file passes validation and does not
    decode, and the error that reaches the caller is a [RuntimeError]: it
    is not an [ImageError], and it has the class of the error raised for a
    file that does not exist. *)
Lemma decode_failure_has_no_kind_of_its_own : ¬ decode_failure_own_kind.
Proof.
  intros Hkind.
  assert (accessible Sample.start "empty.png") as Hacc.
  { exists (Inode 0x81A4 true (Bytes EmptyString)). by vm_compute. }
  destruct (Hkind Sample.permissive Sample.start "empty.png"
    (RuntimeError "Failed to process image: Failed to read image. The file may be inaccessible or corrupted.")
    Hacc eq_refl eq_refl) as [Hclass|Hother].
  - discriminate Hclass.
  - apply (Hother Sample.start "nothing.png"
             (RuntimeError "Failed to process image: File is not accessible."));
      [|reflexivity|reflexivity].
    intros (n & Hn & _). vm_compute in Hn. discriminate Hn.
Qed.

(** C7. For a file that passes validation and decodes to [img],
    [process_image] calls, in this order, [cv2.cvtColor] with
    [COLOR_BGR2GRAY], [cv2.dilate] and then [cv2.erode] with a 1x1 kernel of
    ones and one iteration each, [cv2.threshold] with 128, 255 and
    [THRESH_BINARY + THRESH_OTSU], and the engine; each step works on the
    output of the previous one, and the outcome is the engine's. *)
Theorem process_image_steps (L : lib) (filename : string) (s : state)
    (img : color_image) :
  accessible s filename → load L (fs s) filename = Some img →
  let gray := map (map (luma L)) img in
  let img_dilated := morph Z.max (np_ones 1 1) gray in
  let img_eroded := morph Z.min (np_ones 1 1) img_dilated in
  let img_thresh := binarize (otsu L img_eroded) 255 img_eroded in
  (OCRProcessor.process_image L filename s).1 =
    match recognise L (tesseract_cmd s) img_thresh with
    | Return text => Return text
    | Raise e => Raise (RuntimeError ("Failed to process image: " +:+ exn_str e))
    end ∧
  calls (OCRProcessor.process_image L filename s).2 =
    calls s ++
      [os_path_exists_call filename; os_access_call filename R_OK; os_stat_call filename;
       cv2_imread_call filename; cv2_cvtColor_call COLOR_BGR2GRAY;
       cv2_dilate_call [[1]] 1; cv2_erode_call [[1]] 1;
       cv2_threshold_call 128 255 (THRESH_BINARY + THRESH_OTSU);
       image_to_string_call (tesseract_cmd s)].
Proof.
  intros Hacc Hload. cbv zeta.
  destruct (check_file_access_accessible filename s Hacc) as [mode Hcheck].
  rewrite (process_image_after_check L filename s true _ _ Hcheck), Hload.
  done.
Qed.

Lemma process_image_steps_witness :
  accessible Sample.start "scan.png" ∧
  load Sample.permissive (fs Sample.start) "scan.png"
    = Sample.decode "  ~~ ~~  " ∧
  (OCRProcessor.process_image Sample.permissive "scan.png" Sample.start).1
    = Return "##..#..##".
Proof.
  assert (accessible Sample.start "scan.png") as Hacc.
  { exists (Inode 0x81A4 true (Bytes "  ~~ ~~  ")). by vm_compute. }
  split; [exact Hacc|]. split; [reflexivity|].
  etrans;
    [exact (proj1 (process_image_steps Sample.permissive "scan.png" Sample.start _
                     Hacc eq_refl))|].
  by vm_compute.
Defined.

(** The two morphological passes change nothing: the image handed to the
    engine is the thresholded grayscale image. *)
Lemma preprocessed_is_threshold_of_gray (L : lib) (img : color_image) :
  preprocessed L img = binarize (otsu L (grayscale L img)) 255 (grayscale L img).
Proof. apply preprocessed_binarize. Qed.

(** C8, as amended. For a file that passes validation and decodes,
    [process_image] hands the engine a buffer that holds 255 exactly when
    some gray value of the image is above the threshold Otsu's method
    selected, 0 exactly when some gray value is at or below it, and nothing
    else. So the buffer has exactly two distinct values exactly when the
    selected threshold has gray values on both of its sides, a single value
    when all gray values lie on one side, and none only for an image
    without pixels. *)
Theorem engine_input_levels (L : lib) (filename : string) (s : state)
    (img : color_image) :
  accessible s filename → load L (fs s) filename = Some img →
  let gray := map (map (luma L)) img in
  let img_dilated := morph Z.max (np_ones 1 1) gray in
  let img_eroded := morph Z.min (np_ones 1 1) img_dilated in
  let t := otsu L img_eroded in
  let img_thresh := binarize t 255 img_eroded in
  (OCRProcessor.process_image L filename s).1 =
    match recognise L (tesseract_cmd s) img_thresh with
    | Return text => Return text
    | Raise e => Raise (RuntimeError ("Failed to process image: " +:+ exn_str e))
    end ∧
  (∀ v, v ∈ concat img_thresh ↔
        (v = 255 ∧ some_above t gray) ∨ (v = 0 ∧ some_at_or_below t gray)) ∧
  (length (levels img_thresh) = 2%nat ↔ some_above t gray ∧ some_at_or_below t gray) ∧
  (length (levels img_thresh) ≤ 2)%nat ∧
  (length (levels img_thresh) = 0%nat ↔ concat gray = []).
Proof.
  intros Hacc Hload. cbv zeta. rewrite !morph_1x1.
  destruct (check_file_access_accessible filename s Hacc) as [mode Hcheck].
  rewrite (process_image_after_check L filename s true _ _ Hcheck), Hload.
  rewrite preprocessed_binarize. cbn [fst]. split; [done|].
  split; [apply elem_of_binarize|]. apply binarize_levels.
Qed.

Lemma engine_input_levels_witness :
  accessible Sample.start "scan.png" ∧
  ∃ img,
    load Sample.permissive (fs Sample.start) "scan.png" = Some img ∧
    (OCRProcessor.process_image Sample.permissive "scan.png" Sample.start).1
      = Return "##..#..##" ∧
    length (levels (preprocessed Sample.permissive img)) = 2%nat.
Proof.
  assert (accessible Sample.start "scan.png") as Hacc.
  { exists (Inode 0x81A4 true (Bytes "  ~~ ~~  ")). by vm_compute. }
  split; [exact Hacc|]. eexists. split; [reflexivity|].
  destruct (engine_input_levels Sample.permissive "scan.png" Sample.start _ Hacc eq_refl)
    as (Hrun & _ & Htwo & _).
  split; [etrans; [exact Hrun|]; vm_compute; reflexivity|].
  apply Htwo. split.
  - exists 126. split; [apply (bool_decide_unpack _); vm_compute; exact I|].
    vm_compute. reflexivity.
  - exists 32. split; [apply (bool_decide_unpack _); vm_compute; exact I|].
    vm_compute. discriminate.
Defined.

(** On the two-tone scan both levels occur. *)
Example two_tone_scan_two_levels :
  ∃ img,
    load Sample.permissive (fs Sample.start) "scan.png" = Some img ∧
    levels (preprocessed Sample.permissive img) = [255; 0].
Proof. eexists. split; [reflexivity|]. vm_compute. reflexivity. Qed.

(** C8, as stated, fails: a blank scan (every pixel the same) decodes and
    is converted, and its preprocessed image has a single level. *)
Lemma blank_scan_single_level :
  ∃ img,
    load Sample.permissive (fs Sample.start) "blank.png" = Some img ∧
    (OCRProcessor.process_image Sample.permissive "blank.png" Sample.start).1
      = Return "...." ∧
    levels (preprocessed Sample.permissive img) = [255].
Proof. eexists. split; [reflexivity|]. by vm_compute. Qed.




Example fall_back_overwrites :
  FallBack.second_instant - FallBack.first_instant = 3600 * 1000000 ∧
  clock FallBack.before_first = Datetime 2026 10 25 2 30 0 0 ∧
  clock FallBack.before_second = Datetime 2026 10 25 2 30 0 0 ∧
  fs FallBack.after_first !! "output/converted_20261025_023000.pdf"
    = Some (new_file (Document (pdf_of "first"))) ∧
  fs FallBack.after_second !! "output/converted_20261025_023000.pdf"
    = Some (new_file (Document (pdf_of "second"))).
Proof. repeat split; vm_compute; reflexivity. Qed.

(** C4, as stated, fails: a missing file stops the conversion at access
    validation, an empty file stops it at decoding, and both are reported
    with the same error class. *)
Lemma stages_share_error_kind : ¬ each_stage_own_kind.
Proof.
  intros Hown.
  apply (Hown Sample.permissive Sample.start "nothing.png" Sample.start "empty.png"
           AccessValidation Decoding
           (RuntimeError "Failed to process image: File is not accessible.")
           (RuntimeError "Failed to process image: Failed to read image. The file may be inaccessible or corrupted."));
    by vm_compute.
Qed.

(** C4, as amended. Every failure of [process_image] and of [save_to_pdf]
    reaches the caller as a [RuntimeError] whose message names the operation
    and carries the cause: "File is not accessible." when access validation
    fails, "Failed to read image. ..." when decoding fails, the engine's own
    message when recognition fails, the cause of the write failure for
    [save_to_pdf]. Access validation itself raises nothing. *)
Theorem failures_surface_as_runtime_error (L : lib) (filename text : string)
    (output_dir : option string) (s : state) (e : exn) :
  (OCRProcessor.process_image L filename s).1 = Raise e
  ∨ (OCRProcessor.save_to_pdf L text output_dir s).1 = Raise e →
  exn_class e = "RuntimeError" ∧
  (∃ b, (check_file_access filename s).1 = Return b) ∧
  ((failing_stage L s filename = Some AccessValidation ∧
    exn_str e = "Failed to process image: File is not accessible.")
   ∨ (failing_stage L s filename = Some Decoding ∧
      exn_str e = "Failed to process image: Failed to read image. The file may be inaccessible or corrupted.")
   ∨ (failing_stage L s filename = Some Recognition ∧
      ∃ img cause,
        load L (fs s) filename = Some img ∧
        recognise L (tesseract_cmd s) (preprocessed L img) = Raise cause ∧
        exn_str e = "Failed to process image: " +:+ exn_str cause)
   ∨ (∃ cause,
        (OCRProcessor.save_to_pdf_body L text (default "output" output_dir) s).1
          = Raise cause ∧
        exn_str e = "Failed to save PDF: " +:+ exn_str cause)).
Proof.
  intros Hfail.
  assert (∃ b, (check_file_access filename s).1 = Return b) as Hcheck.
  { destruct (check_file_access_logged filename s) as (b & cs & ls & ->). eauto. }
  destruct Hfail as [Hfail|Hfail].
  - destruct (check_file_access_logged filename s) as (b & cs & ls & Hc).
    rewrite (process_image_after_check L filename s b cs ls Hc) in Hfail.
    pose proof (check_file_access_run filename s) as Hrun. rewrite Hc in Hrun.
    unfold failing_stage.
    destruct (fs s !! filename) as [n|] eqn:Hn.
    2:{ injection Hrun as -> _. injection Hfail as <-. auto 10. }
    destruct (r_ok n); cbn [negb orb] in *.
    2:{ injection Hrun as -> _. injection Hfail as <-. auto 10. }
    destruct (S_ISREG (st_mode n)); cbn [negb] in *.
    2:{ injection Hrun as -> _. injection Hfail as <-. auto 10. }
    injection Hrun as -> _.
    destruct (load L (fs s) filename) as [img|].
    2:{ injection Hfail as <-. auto 10. }
    cbn [fst] in Hfail.
    destruct (recognise L (tesseract_cmd s) (preprocessed L img)) as [t|cause] eqn:Hr;
      [done|].
    injection Hfail as <-. split_and!; [done..|]. right. right. left. eauto 10.
  - destruct (OCRProcessor.save_to_pdf L text output_dir s) as [o s'] eqn:Hs.
    cbn [fst] in Hfail. subst o.
    destruct (save_to_pdf_failure L _ _ _ _ _ Hs) as (cause & Hbody & ->).
    split_and!; [done..|]. right. right. right. eauto.
Qed.

Lemma failures_surface_as_runtime_error_witness :
  (OCRProcessor.process_image Sample.permissive "secret.png" Sample.start).1
    = Raise (RuntimeError "Failed to process image: File is not accessible.") ∧
  exn_class (RuntimeError "Failed to process image: File is not accessible.")
    = "RuntimeError".
Proof.
  assert ((OCRProcessor.process_image Sample.permissive "secret.png" Sample.start).1
          = Raise (RuntimeError "Failed to process image: File is not accessible."))
    as Hfail by reflexivity.
  split; [exact Hfail|].
  exact (proj1 (failures_surface_as_runtime_error Sample.permissive "secret.png" EmptyString
                  None Sample.start _ (or_introl Hfail))).
Defined.

Example failure_messages :
  (OCRProcessor.process_image Sample.permissive "scan.png"
     (State Sample.files [] [] Sample.noon EmptyString)).1
    = Raise (RuntimeError "Failed to process image: tesseract is not installed or it's not in your PATH.") ∧
  (OCRProcessor.save_to_pdf Sample.restrictive "text" (Some "/proc/out") Sample.start).1
    = Raise (RuntimeError "Failed to save PDF: [Errno 13] Permission denied: /proc/out").
Proof. by vm_compute. Qed.

(** ** Facts about the blocks the queue loop collects *)

Module BlockFacts.
Import Grid Difflib DifflibSpec DifflibFacts RowFacts BestFacts WindowFacts ExtendFacts
  LoopFacts CaseFacts SliceFacts BlockSpec.

Section slices.
Context {A : Type}.
Implicit Types x : list A.

Lemma slice_split x lo mid hi :
  0 ≤ lo → lo ≤ mid → mid ≤ hi →
  slice x lo hi = slice x lo mid ++ slice x mid hi.
Proof.
  intros ???. unfold slice.
  replace (Z.to_nat mid) with (Z.to_nat lo + (Z.to_nat mid - Z.to_nat lo))%nat by lia.
  rewrite <-(take_drop (Z.to_nat mid - Z.to_nat lo) (drop (Z.to_nat lo) (take (Z.to_nat hi) x))).
  f_equal.
  - rewrite take_drop_commute, take_take. do 2 f_equal. lia.
  - rewrite drop_drop. done.
Qed.
End slices.

Section blocks.
Context `{Countable A}.
Variable s : SequenceMatcher A.
Hypothesis Hs : chained s.

(** The extension loops only add positions on which the texts agree. *)
Lemma extend_left_run junk alo blo n m :
  run_of (same_elt (sm_a s) (sm_b s)) m.1.1 m.1.2 m.2 →
  let r := extend_left s junk alo blo n m in run_of (same_elt (sm_a s) (sm_b s)) r.1.1 r.1.2 r.2.
Proof.
  revert m. induction n as [|n IH]; intros [[i j] k] Hrun; cbn [extend_left]; [done|].
  destruct (can_extend_left s junk alo blo (i, j, k)) eqn:Hc; [|done].
  apply IH. cbn [fst snd] in *.
  unfold can_extend_left in Hc. apply andb_true_iff in Hc as [_ Hsame].
  intros d Hd. destruct (decide (d = 0)) as [->|].
  - by rewrite !Z.add_0_r.
  - replace (i - 1 + d) with (i + (d - 1)) by lia.
    replace (j - 1 + d) with (j + (d - 1)) by lia. apply Hrun. lia.
Qed.

Lemma extend_right_run junk ahi bhi n m :
  0 ≤ m.2 → run_of (same_elt (sm_a s) (sm_b s)) m.1.1 m.1.2 m.2 →
  let r := extend_right s junk ahi bhi n m in run_of (same_elt (sm_a s) (sm_b s)) r.1.1 r.1.2 r.2.
Proof.
  revert m. induction n as [|n IH]; intros [[i j] k] Hk Hrun; cbn [extend_right]; [done|].
  destruct (can_extend_right s junk ahi bhi (i, j, k)) eqn:Hc; [|done].
  apply IH; cbn [fst snd] in *; [lia|].
  unfold can_extend_right in Hc. apply andb_true_iff in Hc as [_ Hsame].
  intros d Hd. destruct (decide (d = k)) as [->|]; [done|]. apply Hrun. lia.
Qed.

(** Every block [find_longest_match] returns is a common run. *)
Lemma find_longest_match_run alo ahi blo bhi :
  valid_window s (alo, ahi, blo, bhi) →
  let m := find_longest_match s alo ahi blo bhi in run_of (same_elt (sm_a s) (sm_b s)) m.1.1 m.1.2 m.2.
Proof.
  intros (? & ? & ? & ? & ? & ?). rewrite (find_longest_match_extend s Hs). cbv zeta.
  destruct (scan_spec s Hs alo blo ahi bhi) as (Hw & Hrun & _); [done..|].
  set (m0 := (scan s alo ahi blo bhi).1) in *.
  assert (run_of (same_elt (sm_a s) (sm_b s)) m0.1.1 m0.1.2 m0.2) as Hrun0.
  { intros d Hd. by apply hit_same_elt, Hrun. }
  pose proof (extend_left_window s false alo ahi blo bhi (left_room alo m0) m0 Hw) as Hw1.
  pose proof (extend_left_run false alo blo (left_room alo m0) m0 Hrun0) as Hrun1.
  cbv zeta in Hrun1.
  set (m1 := extend_left s false alo blo (left_room alo m0) m0) in *.
  apply extend_right_run; [|done].
  destruct m1 as [[i j] k]. simpl in *. lia.
Qed.

(** A common run is the same slice of both texts. *)
Lemma run_slices i j k :
  0 ≤ i → 0 ≤ j → 0 ≤ k →
  i + k ≤ Z.of_nat (length (sm_a s)) → j + k ≤ Z.of_nat (length (sm_b s)) →
  run_of (same_elt (sm_a s) (sm_b s)) i j k → slice (sm_a s) i (i + k) = slice (sm_b s) j (j + k).
Proof.
  intros ????? Hrun.
  apply (list_eq_same_length _ _ (Z.to_nat k)).
  { apply Nat2Z.inj. rewrite length_slice by lia. lia. }
  { apply Nat2Z.inj. rewrite length_slice by lia. lia. }
  intros d x y Hd Hx Hy.
  specialize (Hrun (Z.of_nat d) ltac:(lia)).
  apply ReferenceFacts.same_elt_spec in Hrun as (e & Ha & Hb).
  rewrite <-(getitem_slice _ i (i + k)) in Ha by lia.
  rewrite <-(getitem_slice _ j (j + k)) in Hb by lia.
  apply getitem_Some in Ha as [_ Ha]. apply getitem_Some in Hb as [_ Hb].
  rewrite Nat2Z.id in Ha, Hb. congruence.
Qed.

(** *** The total matched in a window *)

Lemma pushed_rows w m :
  in_window w m → m.2 ≠ 0 → Forall (λ w', (rows w' < rows w)%nat) (pushed w m).
Proof.
  destruct w as [[[alo ahi] blo] bhi], m as [[i j] k]. simpl.
  intros ? ?. apply Forall_app. split.
  - destruct (_ && _); repeat constructor; simpl; lia.
  - destruct (_ && _); repeat constructor; simpl; lia.
Qed.

Lemma matched_in_enough d d' w :
  valid_window s w → (rows w < d)%nat → (rows w < d')%nat →
  matched_in s d w = matched_in s d' w.
Proof.
  revert d' w. induction d as [|d IH]; intros d' w Hv Hd Hd'; [lia|].
  destruct d' as [|d']; [lia|].
  destruct w as [[[alo ahi] blo] bhi]. cbn [matched_in]. cbv zeta.
  pose proof (find_longest_match_window s Hs _ _ _ _ Hv) as Hin.
  set (m := find_longest_match s alo ahi blo bhi) in *.
  case_bool_decide as Hk; [done|]. do 2 f_equal.
  apply Forall_fmap_ext.
  pose proof (pushed_valid s _ _ Hv Hin) as Hpv.
  pose proof (pushed_rows _ _ Hin Hk) as Hpr.
  rewrite Forall_forall in Hpv, Hpr. apply Forall_forall. intros w' Hw'.
  apply IH; [by apply Hpv|..]; specialize (Hpr w' Hw'); lia.
Qed.

Lemma matched_window_step alo ahi blo bhi :
  valid_window s (alo, ahi, blo, bhi) →
  let m := find_longest_match s alo ahi blo bhi in
  matched_window s (alo, ahi, blo, bhi) =
  if bool_decide (m.2 = 0) then 0
  else m.2 + total (matched_window s <$> pushed (alo, ahi, blo, bhi) m).
Proof.
  intros Hv. cbv zeta. unfold matched_window at 1. cbn [matched_in]. cbv zeta.
  pose proof (find_longest_match_window s Hs _ _ _ _ Hv) as Hin.
  set (m := find_longest_match s alo ahi blo bhi) in *.
  case_bool_decide as Hk; [done|]. do 2 f_equal.
  apply Forall_fmap_ext.
  pose proof (pushed_valid s _ _ Hv Hin) as Hpv.
  pose proof (pushed_rows _ _ Hin Hk) as Hpr.
  rewrite Forall_forall in Hpv, Hpr. apply Forall_forall. intros w' Hw'.
  apply matched_in_enough; [by apply Hpv|..]; specialize (Hpr w' Hw'); lia.
Qed.

(** What [matches] counts is the total matched in the whole window. *)
Lemma matches_matched_window :
  matches s =
  Some (matched_window s (0, Z.of_nat (length (sm_a s)), 0, Z.of_nat (length (sm_b s)))).
Proof. apply (matches_total s Hs (matched_window s)). apply matched_window_step. Qed.

(** A window never yields more matched characters than its smaller side. *)
Lemma matched_in_bound d w :
  valid_window s w → 0 ≤ matched_in s d w ≤ capacity w.
Proof.
  revert w. induction d as [|d IH]; intros [[[alo ahi] blo] bhi] Hv.
  { simpl in *. lia. }
  cbn [matched_in]. cbv zeta.
  pose proof (find_longest_match_window s Hs _ _ _ _ Hv) as Hin.
  pose proof (pushed_valid s _ _ Hv Hin) as Hpv.
  destruct (find_longest_match s alo ahi blo bhi) as [[i j] k].
  cbn [snd]. case_bool_decide as Hk; [simpl in *; lia|].
  cbn [pushed] in *.
  destruct (bool_decide (i + k < ahi) && bool_decide (j + k < bhi)),
    (bool_decide (alo < i) && bool_decide (blo < j)); cbn [app] in *;
    total_simpl;
    repeat match goal with
    | H : Forall _ (_ :: _) |- _ => apply Forall_cons in H as [?%IH ?]
    end; simpl in *; lia.
Qed.

(** A window whose two sides are both matched in full holds the same
    slice of both texts. *)
Lemma matched_in_full d w :
  valid_window s w → (rows w < d)%nat →
  matched_in s d w = w.1.1.2 - w.1.1.1 → matched_in s d w = w.2 - w.1.2 →
  slice (sm_a s) w.1.1.1 w.1.1.2 = slice (sm_b s) w.1.2 w.2.
Proof.
  revert w. induction d as [|d IH]; intros [[[alo ahi] blo] bhi] Hv Hd; [lia|].
  cbn [fst snd matched_in]. cbv zeta.
  pose proof (find_longest_match_window s Hs _ _ _ _ Hv) as Hin.
  pose proof (find_longest_match_run _ _ _ _ Hv) as Hrun. cbv zeta in Hrun.
  pose proof (pushed_valid s _ _ Hv Hin) as Hpv.
  pose proof (pushed_rows _ _ Hin) as Hpr.
  destruct (find_longest_match s alo ahi blo bhi) as [[i j] k].
  cbn [fst snd] in *. case_bool_decide as Hk.
  { intros ??. destruct Hv as (? & ? & ? & ? & ? & ?).
    rewrite !slice_empty by lia. done. }
  specialize (Hpr Hk). simpl in Hin, Hv, Hd.
  destruct Hv as (? & ? & ? & ? & ? & ?).
  assert (∀ w', valid_window s w' → (rows w' < Z.to_nat (ahi - alo))%nat →
            0 ≤ matched_in s d w' ≤ capacity w' ∧
            (matched_in s d w' = w'.1.1.2 - w'.1.1.1 →
             matched_in s d w' = w'.2 - w'.1.2 →
             slice (sm_a s) w'.1.1.1 w'.1.1.2 = slice (sm_b s) w'.1.2 w'.2)) as Hsub.
  { intros w' Hv' Hr'. split; [by apply matched_in_bound|].
    apply IH; [done|]. simpl in Hd. lia. }
  cbn [pushed] in *.
  intros Ha Hb.
  rewrite (slice_split (sm_a s) alo i ahi), (slice_split (sm_a s) i (i + k) ahi) by lia.
  rewrite (slice_split (sm_b s) blo j bhi), (slice_split (sm_b s) j (j + k) bhi) by lia.
  rewrite (run_slices i j k) by (done || lia).
  destruct (bool_decide (i + k < ahi) && bool_decide (j + k < bhi)) eqn:Hr,
    (bool_decide (alo < i) && bool_decide (blo < j)) eqn:Hl; cbn [app] in *;
    revert Ha Hb; total_simpl; intros Ha Hb;
    repeat match goal with
    | H : Forall _ (_ :: _) |- _ => apply Forall_cons in H as [? ?]
    end;
    repeat match goal with
    | Hv' : valid_window s ?w', Hr' : (rows ?w' < _)%nat |- _ =>
        destruct (Hsub w' Hv') as [? ?]; [simpl in *; lia|]; clear Hv'
    end; cbn [fst snd capacity] in *.
  - f_equal; [|f_equal]; auto with lia.
  - apply andb_false_iff in Hl.
    assert (alo = i ∧ blo = j) as [-> ->].
    { destruct Hl as [Hl|Hl]; apply bool_decide_eq_false in Hl; lia. }
    rewrite (slice_empty (sm_a s) i i), (slice_empty (sm_b s) j j) by lia.
    cbn [app]. f_equal; auto with lia.
  - apply andb_false_iff in Hr.
    assert (i + k = ahi ∧ j + k = bhi) as [<- <-].
    { destruct Hr as [Hr|Hr]; apply bool_decide_eq_false in Hr; lia. }
    rewrite (slice_empty (sm_a s) (i + k) (i + k)), (slice_empty (sm_b s) (j + k) (j + k)) by lia.
    f_equal; auto with lia.
  - apply andb_false_iff in Hl. apply andb_false_iff in Hr.
    assert (alo = i ∧ blo = j) as [-> ->].
    { destruct Hl as [Hl|Hl]; apply bool_decide_eq_false in Hl; lia. }
    assert (i + k = ahi ∧ j + k = bhi) as [<- <-].
    { destruct Hr as [Hr|Hr]; apply bool_decide_eq_false in Hr; lia. }
    rewrite (slice_empty (sm_a s) i i), (slice_empty (sm_b s) j j),
      (slice_empty (sm_a s) (i + k) (i + k)), (slice_empty (sm_b s) (j + k) (j + k)) by lia.
    done.
Qed.

(** The count is between 0 and the length of the shorter text; when it
    reaches the length of both, the texts are equal. *)
Lemma matches_bound m :
  matches s = Some m →
  0 ≤ m ≤ Z.of_nat (length (sm_a s)) ∧ m ≤ Z.of_nat (length (sm_b s)).
Proof.
  rewrite matches_matched_window. intros [= <-].
  pose proof (matched_in_bound
    (S (rows (0, Z.of_nat (length (sm_a s)), 0, Z.of_nat (length (sm_b s)))))
    (0, Z.of_nat (length (sm_a s)), 0, Z.of_nat (length (sm_b s)))) as Hb.
  unfold matched_window. simpl in *. lia.
Qed.

Lemma matches_full m :
  matches s = Some m →
  m = Z.of_nat (length (sm_a s)) → m = Z.of_nat (length (sm_b s)) →
  sm_a s = sm_b s.
Proof.
  rewrite matches_matched_window. intros [= <-] Ha Hb.
  rewrite <-(slice_all (sm_a s)), <-(slice_all (sm_b s)).
  apply (matched_in_full
    (S (rows (0, Z.of_nat (length (sm_a s)), 0, Z.of_nat (length (sm_b s)))))
    (0, Z.of_nat (length (sm_a s)), 0, Z.of_nat (length (sm_b s)))).
  - simpl. lia.
  - lia.
  - unfold matched_window in Ha. simpl in *. lia.
  - unfold matched_window in Hb. simpl in *. lia.
Qed.
End blocks.
End BlockFacts.

(** ** More about the similarity score *)

Section score.
Import Difflib.

Lemma score_of_count m n :
  n ≠ 0 →
  (_calculate_ratio m n * Qc_of_Z 100)%Qc = (Qc_of_Z (200 * m) / Qc_of_Z n)%Qc.
Proof.
  intros Hn. unfold _calculate_ratio. rewrite bool_decide_false by done.
  rewrite Z2Qc_inj_mul.
  assert (Qc_of_Z 200 = Qc_of_Z 2 * Qc_of_Z 100)%Qc as ->
    by (apply Qc_is_canon; reflexivity).
  field. by apply Qc_of_Z_nonzero.
Qed.

Lemma quotient_times x n : n ≠ 0 → (Qc_of_Z x / Qc_of_Z n * Qc_of_Z n)%Qc = Qc_of_Z x.
Proof. intros Hn. field. by apply Qc_of_Z_nonzero. Qed.

Lemma Qc_of_Z_pos n : 0 < n → (Q2Qc 0 < Qc_of_Z n)%Qc.
Proof. intros Hn. rewrite <-Z2Qc_inj_0. by apply (proj1 (Z2Qc_inj_lt 0 n)). Qed.

Lemma quotient_le x y n :
  0 < n → (Qc_of_Z x / Qc_of_Z n ≤ Qc_of_Z y)%Qc ↔ x ≤ y * n.
Proof.
  intros Hn.
  rewrite (Qcmult_le_mono_pos_r _ _ (Qc_of_Z n)) by by apply Qc_of_Z_pos.
  rewrite quotient_times by lia. rewrite <-Z2Qc_inj_mul. symmetry. apply Z2Qc_inj_le.
Qed.

Lemma quotient_ge x y n :
  0 < n → (Qc_of_Z y ≤ Qc_of_Z x / Qc_of_Z n)%Qc ↔ y * n ≤ x.
Proof.
  intros Hn.
  rewrite (Qcmult_le_mono_pos_r _ _ (Qc_of_Z n)) by by apply Qc_of_Z_pos.
  rewrite quotient_times by lia. rewrite <-Z2Qc_inj_mul. symmetry. apply Z2Qc_inj_le.
Qed.

Lemma quotient_eq x y n :
  0 < n → (Qc_of_Z x / Qc_of_Z n)%Qc = Qc_of_Z y ↔ x = y * n.
Proof.
  intros Hn. split.
  - intros Heq. apply Z.le_antisymm.
    + apply (quotient_le x y n Hn). rewrite Heq. apply Qcle_refl.
    + apply (quotient_ge x y n Hn). rewrite Heq. apply Qcle_refl.
  - intros ->. rewrite Z2Qc_inj_mul. field. apply Qc_of_Z_nonzero. lia.
Qed.
End score.

Section similarity_score.
Context `{Countable A}.
Implicit Types a b x : list A.
Import Difflib DifflibSpec DifflibFacts ScanFacts LoopFacts CaseFacts RefinementFacts
  BlockFacts.

(** The count behind a score, with its bounds. *)
Lemma calculate_similarity_count a b :
  ∃ m, matches (new a b) = Some m ∧
       0 ≤ m ≤ Z.of_nat (length a) ∧ m ≤ Z.of_nat (length b) ∧
       calculate_similarity a b =
       Some (_calculate_ratio m (Z.of_nat (length a) + Z.of_nat (length b))
             * Qc_of_Z 100)%Qc.
Proof.
  destruct (matches_is_Some (new a b) (chained_new a b)) as [m Hm].
  exists m. pose proof (matches_bound (new a b) (chained_new a b) m Hm) as Hb.
  cbn [sm_a sm_b new] in Hb.
  split; [done|]. split; [lia|]. split; [lia|].
  by apply calculate_similarity_matches.
Qed.

(** X1. For every pair of texts, [calculate_similarity] returns a score,
    and the score lies between 0 and 100. *)
Theorem similarity_in_range a b :
  ∃ q, calculate_similarity a b = Some q ∧
       (Qc_of_Z 0 ≤ q)%Qc ∧ (q ≤ Qc_of_Z 100)%Qc.
Proof.
  destruct (calculate_similarity_count a b) as (m & _ & Hm & Hmb & ->).
  eexists. split; [done|].
  destruct (decide (Z.of_nat (length a) + Z.of_nat (length b) = 0)) as [Hz|Hz].
  - unfold _calculate_ratio. rewrite bool_decide_true by done.
    rewrite Qcmult_1_l. split; [|apply Qcle_refl]. by apply Z2Qc_inj_le.
  - rewrite score_of_count by done.
    split; [apply quotient_ge|apply quotient_le]; lia.
Qed.

(** X2. The score is 100 exactly when the two texts are equal. *)
Theorem similarity_100_iff_equal a b :
  calculate_similarity a b = Some (Qc_of_Z 100) ↔ a = b.
Proof.
  split.
  - intros Hsim.
    destruct (calculate_similarity_count a b) as (m & Hmatches & Hm & Hmb & Hscore).
    rewrite Hscore in Hsim. apply (inj Some) in Hsim.
    destruct (decide (Z.of_nat (length a) + Z.of_nat (length b) = 0)) as [Hz|Hz].
    { destruct a, b; simpl in Hz; try lia. done. }
    rewrite score_of_count in Hsim by done. apply quotient_eq in Hsim; [|lia].
    apply (matches_full (new a b) (chained_new a b) m Hmatches);
      cbn [sm_a sm_b new]; lia.
  - intros <-. destruct a as [|e a]; [|by apply calculate_similarity_same].
    rewrite calculate_similarity_disjoint by (intros e ?%elem_of_nil; done).
    by rewrite bool_decide_true.
Qed.

(** X3. When the candidate leaves the popularity heuristic idle and the
    texts are not both empty, the score is 0 exactly when the two texts
    have no character in common. *)
Theorem similarity_zero_iff_disjoint a b :
  heuristic_idle b → a ≠ [] ∨ b ≠ [] →
  calculate_similarity a b = Some (Qc_of_Z 0) ↔ disjoint_texts a b.
Proof.
  intros Hidle Hne.
  assert (Z.of_nat (length a) + Z.of_nat (length b) ≠ 0) as Hz.
  { destruct Hne as [?|?]; [destruct a|destruct b]; simpl; try done; lia. }
  split.
  - intros Hsim.
    pose proof (matches_reference (new a b) (chained_new a b)
                  (heuristic_idle_popular a b Hidle)) as Hm.
    cbn [sm_a sm_b new] in Hm.
    rewrite (calculate_similarity_matches a b _ Hm) in Hsim. apply (inj Some) in Hsim.
    rewrite score_of_count in Hsim by done. apply quotient_eq in Hsim; [|lia].
    assert (Reference.matched a b = 0) as Hzero by lia.
    pose proof (ChoiceFacts.matched_is_a_choice a b) as Hchoice.
    rewrite Hzero in Hchoice.
    intros e [i Hi]%list_elem_of_lookup_1 [j Hj]%list_elem_of_lookup_1.
    assert (Reference.common_run a b (Z.of_nat i) (Z.of_nat j) 1) as Hrun.
    { apply ChoiceFacts.common_run_spec.
      apply lookup_lt_Some in Hi as Hli. apply lookup_lt_Some in Hj as Hlj.
      split; [simpl; lia|]. intros d Hd. assert (d = 0) as -> by lia.
      rewrite !Z.add_0_r. apply ReferenceFacts.same_elt_spec. exists e.
      split; apply getitem_Some; rewrite Nat2Z.id; split; (lia || done). }
    inversion Hchoice as [? ? Hnone|? ? i' j' k m1 m2 Hk _ _ H1 H2 Hsum]; subst.
    + specialize (Hnone _ _ _ Hrun). lia.
    + apply ChoiceFacts.matched_by_choice_nonneg in H1, H2. lia.
  - intros Hd. rewrite (calculate_similarity_disjoint a b Hd).
    by rewrite bool_decide_false.
Qed.
End similarity_score.

Lemma similarity_zero_iff_disjoint_witness :
  heuristic_idle (str "xyz") ∧ (str "abc" ≠ [] ∨ str "xyz" ≠ []) ∧
  (calculate_similarity (str "abc") (str "xyz") = Some (Qc_of_Z 0)
   ↔ disjoint_texts (str "abc") (str "xyz")).
Proof.
  assert (heuristic_idle (str "xyz")) as Hidle by (left; simpl; lia).
  assert (str "abc" ≠ [] ∨ str "xyz" ≠ []) as Hne by (left; discriminate).
  split; [exact Hidle|]. split; [exact Hne|].
  exact (similarity_zero_iff_disjoint (str "abc") (str "xyz") Hidle Hne).
Defined.

(** ** More facts about the writer *)

Module FrameFacts.
Import Py Lib PipelineSpec PipelineFacts ClockFacts WriterFacts AppSpec.

Section frame.
Variable L : lib.

Lemma os_makedirs_failure path s e s' :
  os_makedirs L path s = (Raise e, s') → fs s' = fs s.
Proof.
  unfold os_makedirs. rewrite bind_run, record_call_run, bind_run. unfold get.
  cbn [fs logged]. unfold raise.
  case_bool_decide; [by intros [= <- <-]|]. case_bool_decide; [by intros [= <- <-]|].
  destruct (refuse L path); [by intros [= <- <-]|].
  destruct (forallb _ _); [done|]. by intros [= <- <-].
Qed.

Lemma output_failure pdf name s e s' :
  output L pdf name s = (Raise e, s') → fs s' = fs s.
Proof.
  unfold output. rewrite bind_run, record_call_run, bind_run. unfold get.
  cbn [fs logged]. unfold raise.
  destruct (refuse L name); [by intros [= <- <-]|].
  destruct (_ || _); [|by intros [= <- <-]].
  destruct (is_directory _ _); [by intros [= <- <-]|done].
Qed.

(** The file system a [save_to_pdf] leaves: the directories it had to
    create, and on success the document at the returned path. *)
Lemma save_to_pdf_fs text output_dir s o s' :
  OCRProcessor.save_to_pdf L text output_dir s = (o, s') →
  let dir := default "output" output_dir in
  let with_dir :=
    if bool_decide (is_Some (fs s !! dir)) then fs s
    else foldr add_directory (fs s) (created_for dir) in
  match o with
  | Return path =>
      path = os_path_join dir (artifact_name (clock s)) ∧
      fs s' = <[path := new_file (Document (pdf_of text))]> with_dir
  | Raise e => fs s' = fs s ∨ fs s' = with_dir
  end.
Proof.
  unfold OCRProcessor.save_to_pdf, try_except, OCRProcessor.save_to_pdf_body.
  set (dir := default "output" output_dir). cbv zeta.
  rewrite bind_run, os_path_exists_run, bind_run.
  set (s0 := logged s [os_path_exists_call dir] []).
  assert (∀ o1 s1,
    (if negb (bool_decide (is_Some (fs s !! dir)))
     then os_makedirs L dir else ret tt) s0 = (o1, s1) →
    match o1 with
    | Return _ =>
        fs s1 = (if bool_decide (is_Some (fs s !! dir)) then fs s
                 else foldr add_directory (fs s) (created_for dir))
        ∧ clock s1 = clock s
    | Raise _ => fs s1 = fs s
    end) as Hdir.
  { intros o1 s1. case_bool_decide; cbn [negb].
    - by intros [= <- <-].
    - destruct o1 as [[]|e1].
      + by intros [? ?]%os_makedirs_success.
      + by intros ?%os_makedirs_failure. }
  destruct ((if negb (bool_decide (is_Some (fs s !! dir)))
             then os_makedirs L dir else ret tt) s0) as [[[]|e1] s1] eqn:He;
    specialize (Hdir _ _ eq_refl); cbn beta iota in Hdir.
  2:{ unfold raise. intros [= <- <-]. by left. }
  destruct Hdir as [Hfs1 Hc1].
  rewrite bind_run, datetime_now_run. cbn [clock logged]. rewrite bind_run.
  fold (artifact_name (clock s1)).
  change (write (set_font (add_page (FPDF_new "letter")) "Arial" 12) 5 text)
    with (pdf_of text).
  destruct (output L (pdf_of text) (os_path_join dir (artifact_name (clock s1)))
              (logged s1 [datetime_now_call] [])) as [[[]|e2] s2] eqn:Hout.
  - apply output_success in Hout as [Hfs2 _]. cbn [fs logged] in Hfs2.
    intros [= <- <-]. rewrite Hfs2, Hfs1, Hc1. done.
  - apply output_failure in Hout. cbn [fs logged] in Hout.
    unfold raise. intros [= <- <-]. right. by rewrite Hout.
Qed.

Lemma with_directories_lookup (fs0 : gmap string inode) dir p :
  let with_dir :=
    if bool_decide (is_Some (fs0 !! dir)) then fs0
    else foldr add_directory fs0 (created_for dir) in
  with_dir !! p = fs0 !! p
  ∨ (fs0 !! p = None ∧ with_dir !! p = Some new_directory ∧
     p ∈ created_for dir ∧ fs0 !! dir = None).
Proof.
  cbv zeta. case_bool_decide as Hex; [by left|].
  rewrite add_directories_lookup. destruct (fs0 !! p) eqn:Hp; [by left|].
  case_bool_decide; [|by left]. right. split_and!; [done..|].
  destruct (fs0 !! dir) eqn:Hd; [|done]. destruct Hex. eauto.
Qed.
End frame.

(** The timestamp shows nothing finer than the second. *)
Lemma artifact_name_same_second d1 d2 :
  same_second d1 d2 → artifact_name d1 = artifact_name d2.
Proof.
  intros (Hy & Hm & Hd & HH & HM & HS). unfold artifact_name. f_equal.
  cbn [strftime]. rewrite !bool_decide_true by done. cbn [strftime].
  unfold directive. cbn. by rewrite Hy, Hm, Hd, HH, HM, HS.
Qed.
End FrameFacts.

(** ** More about the conversion pipeline *)

Import FrameFacts AppSpec.

(** X5. For a path that is missing, unreadable or not a regular file,
    [process_image] raises "Failed to process image: File is not
    accessible." and stops there: the state it leaves is the one the access
    check leaves, so the image is never opened and the engine never run. *)
Theorem inaccessible_file_stops_at_validation (L : lib) (filename : string) (s : state) :
  ¬ accessible s filename →
  OCRProcessor.process_image L filename s =
  (Raise (RuntimeError "Failed to process image: File is not accessible."),
   (check_file_access filename s).2).
Proof.
  intros Hno.
  destruct (check_file_access_logged filename s) as (b & cs & ls & Hc).
  rewrite (process_image_after_check L filename s b cs ls Hc), Hc.
  destruct b; [|done]. destruct Hno.
  pose proof (check_file_access_run filename s) as Hrun. rewrite Hc in Hrun.
  destruct (fs s !! filename) as [n|] eqn:Hn; [|done].
  destruct (r_ok n) eqn:Hr; cbn [negb] in Hrun; [|done].
  destruct (S_ISREG (st_mode n)) eqn:Hreg; cbn [negb] in Hrun; [|done].
  by exists n.
Qed.

Lemma inaccessible_file_stops_at_validation_witness :
  ¬ accessible Sample.start "photos" ∧
  OCRProcessor.process_image Sample.permissive "photos" Sample.start =
  (Raise (RuntimeError "Failed to process image: File is not accessible."),
   (check_file_access "photos" Sample.start).2).
Proof.
  assert (¬ accessible Sample.start "photos") as Hno.
  { intros (n & Hn & _ & Hreg). vm_compute in Hn. injection Hn as <-. by vm_compute in Hreg. }
  split; [exact Hno|].
  exact (inaccessible_file_stops_at_validation Sample.permissive "photos" Sample.start Hno).
Defined.


(** X7. The engine command is one setting for the whole process: after two
    processors have been constructed, a conversion runs the engine with the
    path given to the second constructor. *)
Theorem tesseract_path_is_shared (L : lib) (p1 p2 filename : string) (s : state)
    (img : color_image) :
  let s' := (OCRProcessor.__init__ p2 (OCRProcessor.__init__ p1 s).2).2 in
  accessible s filename → load L (fs s) filename = Some img →
  (OCRProcessor.process_image L filename s').1 =
    match recognise L p2 (preprocessed L img) with
    | Return text => Return text
    | Raise e => Raise (RuntimeError ("Failed to process image: " +:+ exn_str e))
    end ∧
  last (calls (OCRProcessor.process_image L filename s').2) = Some (image_to_string_call p2).
Proof.
  intros s' Hacc Hload.
  assert (accessible s' filename) as Hacc' by done.
  destruct (check_file_access_accessible filename s' Hacc') as [mode Hcheck].
  rewrite (process_image_after_check L filename s' true _ _ Hcheck).
  change (fs s') with (fs s). rewrite Hload. change (tesseract_cmd s') with p2.
  split; [done|]. cbn [snd calls logged]. by rewrite !last_app.
Qed.

Lemma tesseract_path_is_shared_witness :
  accessible Sample.start "scan.png" ∧
  load Sample.permissive (fs Sample.start) "scan.png" = Sample.decode "  ~~ ~~  " ∧
  last (calls (OCRProcessor.process_image Sample.permissive "scan.png"
                 (OCRProcessor.__init__ "/usr/bin/tesseract"
                    (OCRProcessor.__init__ "tesseract.exe" Sample.start).2).2).2)
    = Some (image_to_string_call "/usr/bin/tesseract").
Proof.
  assert (accessible Sample.start "scan.png") as Hacc.
  { exists (Inode 0x81A4 true (Bytes "  ~~ ~~  ")). by vm_compute. }
  split; [exact Hacc|]. split; [reflexivity|].
  exact (proj2 (tesseract_path_is_shared Sample.permissive "tesseract.exe" "/usr/bin/tesseract"
                  "scan.png" Sample.start _ Hacc eq_refl)).
Defined.

(** X8. Two successful writes to the same output directory whose clock
    readings fall in the same second get the same path, and the second
    replaces the first: afterwards the file holds the second text. *)
Theorem same_second_overwrites (L : lib) (text1 text2 : string)
    (output_dir : option string) (s1 s1' s2 s2' : state) (path1 path2 : string) :
  OCRProcessor.save_to_pdf L text1 output_dir s1 = (Return path1, s1') →
  OCRProcessor.save_to_pdf L text2 output_dir s2 = (Return path2, s2') →
  same_second (clock s1) (clock s2) →
  path2 = path1 ∧
  fs s1' !! path1 = Some (new_file (Document (pdf_of text1))) ∧
  fs s2' !! path1 = Some (new_file (Document (pdf_of text2))).
Proof.
  intros Hw1 Hw2 Hsame.
  destruct (save_to_pdf_success L _ _ _ _ _ Hw1) as (Hp1 & _ & _ & Hf1 & _).
  destruct (save_to_pdf_success L _ _ _ _ _ Hw2) as (Hp2 & _ & _ & Hf2 & _).
  assert (path2 = path1) as Heq.
  { rewrite Hp1, Hp2. f_equal. symmetry. by apply artifact_name_same_second. }
  split; [done|]. split; [done|]. by rewrite <-Heq.
Qed.

Lemma same_second_overwrites_witness :
  same_second (clock Sample.start) (clock Sample.after_first) ∧
  fs Sample.after_first !! "output/converted_20261103_120000.pdf"
    = Some (new_file (Document (pdf_of "first"))) ∧
  fs (OCRProcessor.save_to_pdf Sample.permissive "second" None Sample.after_first).2
    !! "output/converted_20261103_120000.pdf"
    = Some (new_file (Document (pdf_of "second"))).
Proof.
  assert (same_second (clock Sample.start) (clock Sample.after_first)) as Hsame
    by (vm_compute; repeat split; reflexivity).
  assert (OCRProcessor.save_to_pdf Sample.permissive "first" None Sample.start
          = (Return "output/converted_20261103_120000.pdf", Sample.after_first)) as Hw1
    by (by vm_compute).
  assert (OCRProcessor.save_to_pdf Sample.permissive "second" None Sample.after_first
          = (Return "output/converted_20261103_120000.pdf",
             (OCRProcessor.save_to_pdf Sample.permissive "second" None Sample.after_first).2))
    as Hw2 by (by vm_compute).
  split; [exact Hsame|].
  exact (proj2 (same_second_overwrites Sample.permissive "first" "second" None
                  Sample.start Sample.after_first Sample.after_first _ _ _ Hw1 Hw2 Hsame)).
Defined.

(** X9. A successful write changes the file system in two ways only: the
    document at the returned path, and the output directory with the
    directories above it when the output directory was absent. Every other
    path is as it was. *)
Theorem successful_save_frame (L : lib) (text : string) (output_dir : option string)
    (s s' : state) (path p : string) :
  OCRProcessor.save_to_pdf L text output_dir s = (Return path, s') →
  p ≠ path →
  fs s' !! p = fs s !! p
  ∨ (fs s !! p = None ∧ fs s' !! p = Some new_directory ∧
     p ∈ created_for (default "output" output_dir) ∧
     fs s !! default "output" output_dir = None).
Proof.
  intros Hw Hp. pose proof (save_to_pdf_fs L _ _ _ _ _ Hw) as [_ Hfs].
  rewrite Hfs, lookup_insert_ne by done. apply with_directories_lookup.
Qed.

Lemma successful_save_frame_witness :
  fs Sample.after_first !! "scan.png" = fs Sample.start !! "scan.png"
  ∨ (fs Sample.start !! "scan.png" = None ∧
     fs Sample.after_first !! "scan.png" = Some new_directory ∧
     "scan.png" ∈ created_for "output" ∧ fs Sample.start !! "output" = None).
Proof.
  assert (OCRProcessor.save_to_pdf Sample.permissive "first" None Sample.start
          = (Return "output/converted_20261103_120000.pdf", Sample.after_first)) as Hw1
    by (by vm_compute).
  assert ("scan.png" ≠ "output/converted_20261103_120000.pdf") as Hp by discriminate.
  exact (successful_save_frame Sample.permissive "first" None Sample.start
           Sample.after_first _ "scan.png" Hw1 Hp).
Defined.

(** ** Facts about the window *)

Module AppFacts.
Import Py Lib PipelineSpec PipelineFacts WriterFacts FrameFacts Tk AppSpec.

Lemma gbind_run {X Y} (m : G X) (k : X → G Y) self :
  (m ≫= k) self =
  match m self with
  | Some (Return x, self') => k x self'
  | Some (Raise e, self') => Some (Raise e, self')
  | None => None
  end.
Proof. done. Qed.

Lemma shown_nil self : shown self [] = self.
Proof. destruct self. unfold shown. simpl. by rewrite app_nil_r. Qed.

Section window.
Variable L : lib.

(** Both operations of the processor raise [RuntimeError] and nothing
    else, so the handlers of the window catch whatever they raise. *)
Lemma process_image_raises filename s e s' :
  OCRProcessor.process_image L filename s = (Raise e, s') → is_RuntimeError e = true.
Proof.
  unfold OCRProcessor.process_image, try_except.
  destruct (OCRProcessor.process_image_body L filename s) as [[text|cause] s1]; [done|].
  unfold raise. by intros [= <- <-].
Qed.

Lemma save_to_pdf_raises text output_dir s e s' :
  OCRProcessor.save_to_pdf L text output_dir s = (Raise e, s') → is_RuntimeError e = true.
Proof. by intros (cause & _ & ->)%save_to_pdf_failure. Qed.

(** The score of the window is always computed. *)
Lemma accuracy_is_Some (a b : string) :
  is_Some (Binary64.calculate_similarity (str a) (str b)).
Proof.
  unfold Binary64.calculate_similarity.
  destruct (LoopFacts.matches_is_Some (Difflib.new (str a) (str b))
              (ScanFacts.chained_new (str a) (str b))) as [m ->].
  simpl. eauto.
Qed.

(** [browse_files] once a file has been chosen. *)
Lemma browse_files_run chosen self :
  chosen ≠ EmptyString →
  OCRApp.browse_files L chosen self =
  match OCRProcessor.process_image L chosen (world self) with
  | (Return text, w) =>
      accuracy ← Binary64.calculate_similarity (str OCRApp.sample_text) (str text);
      Some (Return tt,
            Gui text text false
              (ui self ++ [file_dialog; progress_start_call; configure_call text;
                           showinfo_call "Accuracy" (accuracy_message accuracy);
                           progress_stop_call]) w)
  | (Raise e, w) =>
      Some (Return tt,
            Gui (result self) (label_file_explorer self) false
              (ui self ++ [file_dialog; progress_start_call;
                           showerror_call "Error" (exn_str e); progress_stop_call]) w)
  end.
Proof.
  intros Hchosen. unfold OCRApp.browse_files. cbv zeta.
  rewrite gbind_run. unfold askopenfilename. rewrite gbind_run.
  fold file_dialog. cbn [tk mret G_ret gret].
  rewrite bool_decide_false by done.
  rewrite gbind_run. cbn [progress_start result label_file_explorer ui world].
  unfold try_finally, try_except_RuntimeError. rewrite gbind_run.
  unfold lift at 1. cbn [result label_file_explorer progress ui world].
  destruct (OCRProcessor.process_image L chosen (world self)) as [[text|e] w] eqn:Hp.
  - rewrite gbind_run. cbn [set_result result label_file_explorer progress ui world].
    rewrite gbind_run. cbn [get_result result].
    rewrite gbind_run. cbn [configure result label_file_explorer progress ui world].
    rewrite gbind_run. cbn [get_result result].
    rewrite gbind_run. unfold accuracy_of, budgeted.
    destruct (Binary64.calculate_similarity (str OCRApp.sample_text) (str text))
      as [accuracy|]; [|done].
    cbn [showinfo tk progress_stop result label_file_explorer progress ui world
         mbind option_bind].
    fold (accuracy_message accuracy). by rewrite <-!app_assoc.
  - rewrite (process_image_raises _ _ _ _ Hp).
    cbn [showerror tk progress_stop result label_file_explorer progress ui world].
    by rewrite <-!app_assoc.
Qed.

Lemma browse_files_cancelled self :
  OCRApp.browse_files L EmptyString self = Some (Return tt, shown self [file_dialog]).
Proof. done. Qed.

(** [convert_to_pdf] by cases. *)
Lemma convert_to_pdf_run self :
  OCRApp.convert_to_pdf L self =
  if bool_decide (result self = EmptyString)
  then Some (Return tt,
             shown self [showwarning_call "No text" "No text found to convert to PDF!"])
  else
    match OCRProcessor.save_to_pdf L (result self) None (world self) with
    | (Return path, w) =>
        Some (Return tt,
              Gui (result self) (label_file_explorer self) (progress self)
                (ui self ++ [showinfo_call "Success" (success_message path)]) w)
    | (Raise e, w) =>
        Some (Return tt,
              Gui (result self) (label_file_explorer self) (progress self)
                (ui self ++ [showerror_call "Error" (exn_str e)]) w)
    end.
Proof.
  unfold OCRApp.convert_to_pdf. rewrite gbind_run. cbn [get_result].
  case_bool_decide; [done|].
  unfold try_except_RuntimeError. rewrite gbind_run. cbn [get_result].
  rewrite gbind_run. unfold lift.
  destruct (OCRProcessor.save_to_pdf L (result self) None (world self))
    as [[path|e] w] eqn:Hs.
  - done.
  - by rewrite (save_to_pdf_raises _ _ _ _ _ Hs).
Qed.

(** The writer leaves the engine command alone. *)
Lemma os_makedirs_cmd path s :
  tesseract_cmd (os_makedirs L path s).2 = tesseract_cmd s.
Proof.
  unfold os_makedirs. rewrite bind_run, record_call_run, bind_run. unfold get.
  cbn [fs logged]. unfold raise.
  case_bool_decide; [done|]. case_bool_decide; [done|].
  destruct (refuse L path); [done|]. by destruct (forallb _ _).
Qed.

Lemma output_cmd pdf name s :
  tesseract_cmd (output L pdf name s).2 = tesseract_cmd s.
Proof.
  unfold output. rewrite bind_run, record_call_run, bind_run. unfold get.
  cbn [fs logged]. unfold raise.
  destruct (refuse L name); [done|].
  destruct (_ || _); [|done]. by destruct (is_directory _ _).
Qed.

Lemma save_to_pdf_cmd text output_dir s :
  tesseract_cmd (OCRProcessor.save_to_pdf L text output_dir s).2 = tesseract_cmd s.
Proof.
  unfold OCRProcessor.save_to_pdf, try_except, OCRProcessor.save_to_pdf_body.
  set (dir := default "output" output_dir). cbv zeta.
  rewrite bind_run, os_path_exists_run, bind_run.
  set (s0 := logged s [os_path_exists_call dir] []).
  assert (tesseract_cmd
            ((if negb (bool_decide (is_Some (fs s !! dir)))
              then os_makedirs L dir else ret tt) s0).2 = tesseract_cmd s) as Hdir.
  { destruct (negb _); [|done]. by rewrite os_makedirs_cmd. }
  destruct ((if negb (bool_decide (is_Some (fs s !! dir)))
             then os_makedirs L dir else ret tt) s0) as [[[]|e1] s1]; [|done].
  cbn [snd] in Hdir.
  rewrite bind_run, datetime_now_run, bind_run.
  match goal with
  | |- context [output L ?pdf ?name ?st] =>
      pose proof (output_cmd pdf name st) as Hout;
      destruct (output L pdf name st) as [[[]|e2] s2]
  end; cbn [snd tesseract_cmd logged] in *; unfold ret, raise; cbn [snd]; congruence.
Qed.
End window.
End AppFacts.

(** ** The window at rest *)

Module SessionFacts.
Import Py Lib PipelineSpec PipelineFacts WriterFacts FrameFacts Tk AppSpec AppFacts.

Section session.
Variable L : lib.

Lemma process_image_cmd filename s :
  tesseract_cmd (OCRProcessor.process_image L filename s).2 = tesseract_cmd s.
Proof.
  destruct (check_file_access_logged filename s) as (b & cs & ls & Hc).
  rewrite (process_image_after_check L filename s b cs ls Hc).
  destruct b; [|done]. by destruct (load L (fs s) filename).
Qed.

Lemma no_callback_exception_more self self' events :
  ui self' = ui self ++ events →
  (∀ e, report_callback_exception_call e ∉ events) →
  no_callback_exception self → no_callback_exception self'.
Proof.
  intros Hui Hev Hno e. rewrite Hui. intros [?|?]%elem_of_app.
  - by apply (Hno e).
  - by apply (Hev e).
Qed.

Ltac no_report :=
  let e := fresh in
  intros e; rewrite ?elem_of_cons, elem_of_nil; unfold file_dialog; intros ?;
  repeat match goal with H : _ ∨ _ |- _ => destruct H end; done.

Lemma browse_files_at_rest cmd chosen self :
  at_rest cmd self →
  ∃ self', OCRApp.browse_files L chosen self = Some (Return tt, self') ∧ at_rest cmd self'.
Proof.
  intros (Hp & Hl & Hno & Hcmd).
  destruct (decide (chosen = EmptyString)) as [->|Hchosen].
  { rewrite browse_files_cancelled. eexists. split; [done|].
    split_and!; [done..| |done].
    eapply no_callback_exception_more; [done| |done]. no_report. }
  rewrite browse_files_run by done.
  pose proof (process_image_cmd chosen (world self)) as Hc.
  destruct (OCRProcessor.process_image L chosen (world self)) as [[text|e] w].
  - destruct (accuracy_is_Some OCRApp.sample_text text) as [accuracy ->].
    eexists. split; [done|]. split_and!; [done|by left| |cbn in *; congruence].
    eapply no_callback_exception_more; [done| |done]. no_report.
  - eexists. split; [done|]. split_and!; [done|done| |cbn in *; congruence].
    eapply no_callback_exception_more; [done| |done]. no_report.
Qed.

Lemma convert_to_pdf_at_rest cmd self :
  at_rest cmd self →
  ∃ self', OCRApp.convert_to_pdf L self = Some (Return tt, self') ∧ at_rest cmd self'.
Proof.
  intros (Hp & Hl & Hno & Hcmd). rewrite convert_to_pdf_run.
  case_bool_decide.
  { eexists. split; [done|]. split_and!; [done..| |done].
    eapply no_callback_exception_more; [done| |done]. no_report. }
  pose proof (save_to_pdf_cmd L (result self) None (world self)) as Hc.
  destruct (OCRProcessor.save_to_pdf L (result self) None (world self)) as [[path|e] w].
  - eexists. split; [done|]. split_and!; [done|done| |cbn in *; congruence].
    eapply no_callback_exception_more; [done| |done]. no_report.
  - eexists. split; [done|]. split_and!; [done|done| |cbn in *; congruence].
    eapply no_callback_exception_more; [done| |done]. no_report.
Qed.

Lemma dispatch_at_rest cmd a self :
  at_rest cmd self →
  ∃ self', OCRApp.dispatch L a self = Some (Return tt, self') ∧ at_rest cmd self'.
Proof.
  intros Hrest. destruct a as [chosen| |now]; cbn [OCRApp.dispatch].
  - destruct (browse_files_at_rest cmd chosen self Hrest) as (self' & Hb & ?).
    exists self'. unfold callback. by rewrite Hb.
  - destruct (convert_to_pdf_at_rest cmd self Hrest) as (self' & Hc & ?).
    exists self'. unfold callback. by rewrite Hc.
  - eexists. split; [done|]. by destruct Hrest as (? & ? & ? & ?).
Qed.

Lemma mainloop_at_rest cmd actions self :
  at_rest cmd self →
  ∃ self', OCRApp.mainloop L actions self = Some (Return tt, self') ∧ at_rest cmd self'.
Proof.
  revert self. induction actions as [|a actions IH]; intros self Hrest.
  - by exists self.
  - cbn [OCRApp.mainloop]. rewrite gbind_run.
    destruct (dispatch_at_rest cmd a self Hrest) as (self1 & -> & Hrest1).
    by apply IH.
Qed.

Lemma init_at_rest (w : state) : at_rest (tesseract_cmd w) (OCRApp.__init__ w).
Proof.
  split_and!; [done|by right| |done].
  intros e. unfold OCRApp.__init__, OCRApp.create_widgets. cbn [ui app].
  rewrite !elem_of_cons, elem_of_nil. intros ?.
  repeat match goal with H : _ ∨ _ |- _ => destruct H end; done.
Qed.
End session.
End SessionFacts.

(** ** The window *)

Import Tk AppFacts SessionFacts.

(** X11. [browse_files] always returns normally: it raises nothing and the
    score it shows is always computed. When a file was chosen the progress
    bar is stopped at the end, whatever the conversion did; when the dialog
    was cancelled nothing happens beyond the dialog itself. *)
Theorem browse_files_completes (L : lib) (chosen : string) (self : gui) :
  ∃ self',
    OCRApp.browse_files L chosen self = Some (Return tt, self') ∧
    progress self' = (if bool_decide (chosen = EmptyString) then progress self else false) ∧
    (chosen = EmptyString → self' = shown self [file_dialog]).
Proof.
  destruct (decide (chosen = EmptyString)) as [->|Hchosen].
  { eexists. split; [apply browse_files_cancelled|]. done. }
  rewrite browse_files_run, bool_decide_false by done.
  destruct (OCRProcessor.process_image L chosen (world self)) as [[text|e] w].
  - destruct (accuracy_is_Some OCRApp.sample_text text) as [accuracy ->].
    eexists. split; [done|]. done.
  - eexists. split; [done|]. done.
Qed.

(** X12. When a file is chosen and the conversion returns a text,
    [browse_files] stores the text in [self.result], shows it in the output
    label, and shows an "Accuracy" dialog, between starting and stopping the
    progress bar. For a text of ASCII characters the dialog reports the
    score of the sample text against it, with two decimals. *)
Theorem browse_files_shows_text (L : lib) (chosen text : string) (self : gui) (w : state) :
  chosen ≠ EmptyString →
  OCRProcessor.process_image L chosen (world self) = (Return text, w) →
  ∃ message,
    OCRApp.browse_files L chosen self =
    Some (Return tt,
          Gui text text false
            (ui self ++ [file_dialog; progress_start_call; configure_call text;
                         showinfo_call "Accuracy" message; progress_stop_call]) w) ∧
    (isascii text →
     ∃ accuracy,
       Binary64.calculate_similarity (str OCRApp.sample_text) (str text) = Some accuracy ∧
       message = accuracy_message accuracy).
Proof.
  intros Hchosen Hp. rewrite browse_files_run, Hp by done.
  destruct (accuracy_is_Some OCRApp.sample_text text) as [accuracy ->].
  exists (accuracy_message accuracy). split; [done|]. intros _. by exists accuracy.
Qed.

Lemma browse_files_shows_text_witness :
  isascii "##..#..##" ∧
  ∃ self',
    OCRApp.browse_files Sample.permissive "scan.png" (OCRApp.__init__ Sample.start)
      = Some (Return tt, self') ∧
    result self' = "##..#..##" ∧ label_file_explorer self' = "##..#..##" ∧
    showinfo_call "Accuracy" "The accuracy of the model is 0.00%" ∈ ui self'.
Proof.
  assert ("scan.png" ≠ EmptyString) as Hne by discriminate.
  assert (isascii "##..#..##") as Hascii
    by (apply (bool_decide_unpack _); vm_compute; exact I).
  assert (OCRProcessor.process_image Sample.permissive "scan.png"
            (world (OCRApp.__init__ Sample.start))
          = (Return "##..#..##",
             (OCRProcessor.process_image Sample.permissive "scan.png" Sample.start).2)) as Hp
    by (vm_compute; reflexivity).
  split; [exact Hascii|].
  destruct (browse_files_shows_text Sample.permissive "scan.png" "##..#..##"
              (OCRApp.__init__ Sample.start) _ Hne Hp) as (message & Hb & Hscore).
  destruct (Hscore Hascii) as (accuracy & Hacc & ->).
  assert (accuracy = 0%float) as ->
    by (apply (inj Some); rewrite <-Hacc; vm_compute; reflexivity).
  eexists. split; [exact Hb|]. split; [reflexivity|]. split; [reflexivity|].
  cbn [ui]. rewrite elem_of_app, !elem_of_cons. right. do 3 right. left.
  vm_compute. reflexivity.
Defined.

(** X13. When a file is chosen and the conversion fails, [browse_files]
    shows the error message in an "Error" dialog and keeps [self.result] and
    the output label as they were. The text of an earlier conversion stays
    in place and is what a later conversion to PDF writes: when that write
    succeeds, the file named in the "Success" dialog holds the earlier
    text. *)
Theorem failed_browse_keeps_text (L : lib) (chosen : string) (self : gui)
    (e : exn) (w : state) :
  chosen ≠ EmptyString →
  OCRProcessor.process_image L chosen (world self) = (Raise e, w) →
  ∃ self',
    OCRApp.browse_files L chosen self = Some (Return tt, self') ∧
    self' = Gui (result self) (label_file_explorer self) false
              (ui self ++ [file_dialog; progress_start_call;
                           showerror_call "Error" (exn_str e); progress_stop_call]) w ∧
    ∀ path w',
      result self ≠ EmptyString →
      OCRProcessor.save_to_pdf L (result self) None w = (Return path, w') →
      ∃ self'',
        OCRApp.convert_to_pdf L self' = Some (Return tt, self'') ∧
        world self'' = w' ∧
        last (ui self'') = Some (showinfo_call "Success" (success_message path)) ∧
        fs w' !! path = Some (new_file (Document (pdf_of (result self)))).
Proof.
  intros Hchosen Hp. rewrite browse_files_run, Hp by done.
  eexists. split; [done|]. split; [done|].
  intros path w' Hres Hs. rewrite convert_to_pdf_run. cbn [result world].
  rewrite bool_decide_false, Hs by done.
  eexists. split; [done|]. cbn [world ui]. split; [done|].
  split; [by rewrite last_snoc|].
  by destruct (save_to_pdf_success L _ _ _ _ _ Hs) as (_ & _ & _ & Hf & _).
Qed.

Lemma failed_browse_keeps_text_witness :
  result Session.after_scan = "##..#..##" ∧
  ∃ self' self'',
    OCRApp.browse_files Sample.permissive "empty.png" Session.after_scan
      = Some (Return tt, self') ∧
    result self' = "##..#..##" ∧ label_file_explorer self' = "##..#..##" ∧
    OCRApp.convert_to_pdf Sample.permissive self' = Some (Return tt, self'') ∧
    fs (world self'') !! "output/converted_20261103_120000.pdf"
      = Some (new_file (Document (pdf_of "##..#..##"))).
Proof.
  assert ("empty.png" ≠ EmptyString) as Hne by discriminate.
  assert (result Session.after_scan = "##..#..##") as Hres by (vm_compute; reflexivity).
  assert (label_file_explorer Session.after_scan = "##..#..##") as Hlabel
    by (vm_compute; reflexivity).
  assert (OCRProcessor.process_image Sample.permissive "empty.png" (world Session.after_scan)
          = (Raise (RuntimeError "Failed to process image: Failed to read image. The file may be inaccessible or corrupted."),
             (OCRProcessor.process_image Sample.permissive "empty.png"
                (world Session.after_scan)).2)) as Hp
    by (vm_compute; reflexivity).
  assert (OCRProcessor.save_to_pdf Sample.permissive (result Session.after_scan) None
            (OCRProcessor.process_image Sample.permissive "empty.png"
               (world Session.after_scan)).2
          = (Return "output/converted_20261103_120000.pdf",
             (OCRProcessor.save_to_pdf Sample.permissive (result Session.after_scan) None
                (OCRProcessor.process_image Sample.permissive "empty.png"
                   (world Session.after_scan)).2).2)) as Hs
    by (vm_compute; reflexivity).
  assert (result Session.after_scan ≠ EmptyString) as Hsome by (rewrite Hres; discriminate).
  split; [exact Hres|].
  destruct (failed_browse_keeps_text Sample.permissive "empty.png" Session.after_scan
              _ _ Hne Hp) as (self' & Hb & Hself & Hlater).
  destruct (Hlater _ _ Hsome Hs) as (self'' & Hc & Hw & _ & Hfile).
  exists self', self''. split; [exact Hb|].
  split; [by rewrite Hself|]. split; [by rewrite Hself|].
  split; [exact Hc|]. rewrite Hw, <-Hres. exact Hfile.
Defined.

(** X14. [convert_to_pdf] always returns normally and leaves [self.result]
    and the label alone. With an empty result it shows the "No text" warning
    and touches nothing else; otherwise it calls [save_to_pdf] with the
    result and the default directory, and shows "Success" with the path of
    the file, which holds the result, or "Error" with the message. *)
Theorem convert_to_pdf_cases (L : lib) (self : gui) :
  ∃ self',
    OCRApp.convert_to_pdf L self = Some (Return tt, self') ∧
    result self' = result self ∧
    label_file_explorer self' = label_file_explorer self ∧
    progress self' = progress self ∧
    if bool_decide (result self = EmptyString)
    then self' = shown self [showwarning_call "No text" "No text found to convert to PDF!"]
    else
      world self' = (OCRProcessor.save_to_pdf L (result self) None (world self)).2 ∧
      match (OCRProcessor.save_to_pdf L (result self) None (world self)).1 with
      | Return path =>
          ui self' = ui self ++ [showinfo_call "Success" (success_message path)] ∧
          fs (world self') !! path = Some (new_file (Document (pdf_of (result self))))
      | Raise e => ui self' = ui self ++ [showerror_call "Error" (exn_str e)]
      end.
Proof.
  rewrite convert_to_pdf_run. case_bool_decide as Hres.
  { eexists. split; [done|]. done. }
  destruct (OCRProcessor.save_to_pdf L (result self) None (world self))
    as [[path|e] w] eqn:Hs.
  - eexists. split; [done|]. split_and!; [done..|].
    by destruct (save_to_pdf_success L _ _ _ _ _ Hs) as (_ & _ & _ & Hf & _).
  - eexists. split; [done|]. done.
Qed.

(** X15. Browsing to an image whose conversion returns a non-empty text and
    then converting to PDF writes exactly that text: when the write
    succeeds, the file at the path named in the "Success" dialog holds the
    recognised text, which is also the text in the output label. *)
Theorem browse_then_convert (L : lib) (chosen text path : string) (self : gui)
    (w w' : state) :
  chosen ≠ EmptyString → text ≠ EmptyString →
  OCRProcessor.process_image L chosen (world self) = (Return text, w) →
  OCRProcessor.save_to_pdf L text None w = (Return path, w') →
  ∃ self',
    (OCRApp.browse_files L chosen ≫= λ _, OCRApp.convert_to_pdf L) self
      = Some (Return tt, self') ∧
    label_file_explorer self' = text ∧
    last (ui self') = Some (showinfo_call "Success" (success_message path)) ∧
    fs (world self') !! path = Some (new_file (Document (pdf_of text))).
Proof.
  intros Hchosen Htext Hp Hs.
  rewrite gbind_run, browse_files_run, Hp by done.
  destruct (accuracy_is_Some OCRApp.sample_text text) as [accuracy ->].
  cbn [mbind option_bind]. rewrite convert_to_pdf_run. cbn [result world].
  rewrite bool_decide_false, Hs by done.
  eexists. split; [done|]. cbn [label_file_explorer ui world].
  split; [done|]. split; [by rewrite last_snoc|].
  by destruct (save_to_pdf_success L _ _ _ _ _ Hs) as (_ & _ & _ & Hf & _).
Qed.

Lemma browse_then_convert_witness :
  ∃ self',
    (OCRApp.browse_files Sample.permissive "scan.png"
       ≫= λ _, OCRApp.convert_to_pdf Sample.permissive) (OCRApp.__init__ Sample.start)
      = Some (Return tt, self') ∧
    fs (world self') !! "output/converted_20261103_120000.pdf"
      = Some (new_file (Document (pdf_of "##..#..##"))).
Proof.
  assert ("scan.png" ≠ EmptyString) as Hne by discriminate.
  assert ("##..#..##" ≠ EmptyString) as Htext by discriminate.
  assert (OCRProcessor.process_image Sample.permissive "scan.png"
            (world (OCRApp.__init__ Sample.start))
          = (Return "##..#..##",
             (OCRProcessor.process_image Sample.permissive "scan.png" Sample.start).2)) as Hp
    by (vm_compute; reflexivity).
  assert (OCRProcessor.save_to_pdf Sample.permissive "##..#..##" None
            (OCRProcessor.process_image Sample.permissive "scan.png" Sample.start).2
          = (Return "output/converted_20261103_120000.pdf",
             (OCRProcessor.save_to_pdf Sample.permissive "##..#..##" None
                (OCRProcessor.process_image Sample.permissive "scan.png" Sample.start).2).2))
    as Hs by (vm_compute; reflexivity).
  destruct (browse_then_convert Sample.permissive "scan.png" "##..#..##" _
              (OCRApp.__init__ Sample.start) _ _ Hne Htext Hp Hs)
    as (self' & Hrun & _ & _ & Hfile).
  exists self'. split; [exact Hrun|exact Hfile].
Defined.

(** X16. The score shown after a conversion: when the engine returns the
    sample text itself the dialog says 100.00%; when it returns no text the
    dialog says 0.00%, and a conversion to PDF then shows the "No text"
    warning. *)
Theorem accuracy_of_perfect_and_empty_read (L : lib) (chosen text : string)
    (self : gui) (w : state) :
  chosen ≠ EmptyString →
  OCRProcessor.process_image L chosen (world self) = (Return text, w) →
  ∃ self',
    OCRApp.browse_files L chosen self = Some (Return tt, self') ∧
    (text = OCRApp.sample_text →
     showinfo_call "Accuracy" "The accuracy of the model is 100.00%" ∈ ui self') ∧
    (text = EmptyString →
     showinfo_call "Accuracy" "The accuracy of the model is 0.00%" ∈ ui self' ∧
     OCRApp.convert_to_pdf L self' =
     Some (Return tt,
           shown self' [showwarning_call "No text" "No text found to convert to PDF!"])).
Proof.
  intros Hchosen Hp. rewrite browse_files_run, Hp by done.
  destruct (accuracy_is_Some OCRApp.sample_text text) as [accuracy Hacc]. rewrite Hacc.
  eexists. split; [done|]. cbn [ui]. split.
  - intros ->.
    assert (accuracy = 100%float) as ->
      by (apply (inj Some); rewrite <-Hacc; vm_compute; reflexivity).
    assert (accuracy_message 100 = "The accuracy of the model is 100.00%") as ->
      by (vm_compute; reflexivity).
    rewrite elem_of_app, !elem_of_cons. auto 10.
  - intros ->.
    assert (accuracy = 0%float) as ->
      by (apply (inj Some); rewrite <-Hacc; vm_compute; reflexivity).
    assert (accuracy_message 0 = "The accuracy of the model is 0.00%") as ->
      by (vm_compute; reflexivity).
    split; [rewrite elem_of_app, !elem_of_cons; auto 10|].
    by rewrite convert_to_pdf_run.
Qed.

Lemma accuracy_of_perfect_and_empty_read_witness :
  ∃ self',
    OCRApp.browse_files Readers.perfect "scan.png" (OCRApp.__init__ Sample.start)
      = Some (Return tt, self') ∧
    showinfo_call "Accuracy" "The accuracy of the model is 100.00%" ∈ ui self'.
Proof.
  assert ("scan.png" ≠ EmptyString) as Hne by discriminate.
  assert (OCRProcessor.process_image Readers.perfect "scan.png"
            (world (OCRApp.__init__ Sample.start))
          = (Return OCRApp.sample_text,
             (OCRProcessor.process_image Readers.perfect "scan.png" Sample.start).2)) as Hp
    by (vm_compute; reflexivity).
  destruct (accuracy_of_perfect_and_empty_read Readers.perfect "scan.png" OCRApp.sample_text
              (OCRApp.__init__ Sample.start) _ Hne Hp) as (self' & Hrun & Hperfect & _).
  exists self'. split; [exact Hrun|exact (Hperfect eq_refl)].
Defined.

(** X17. Whatever the user does, in any order, the script runs to the end
    of the session without an exception leaving a callback; afterwards the
    progress bar is stopped, the output label shows the text a conversion
    to PDF would write (or its first text while there is none), and the
    engine command is still the path set at start-up. *)
Theorem session_stays_at_rest (L : lib) (actions : list action) (w : state) :
  ∃ self, main L actions w = Some (Return tt, self) ∧ at_rest TESSERACT_PATH self.
Proof.
  unfold main. cbn [OCRProcessor.__init__ set_tesseract_cmd].
  apply mainloop_at_rest. apply (init_at_rest (State _ _ _ _ TESSERACT_PATH)).
Qed.

(** ** The order of file names and the order of time *)

Module OrderFacts.
Import Py PipelineSpec ClockFacts AppSpec.

Ltac div_lia := Z.div_mod_to_equations; lia.

Lemma digit_compare a b :
  0 ≤ a ≤ 9 → 0 ≤ b ≤ 9 → Ascii.compare (digit a) (digit b) = (a ?= b).
Proof.
  intros ??. unfold Ascii.compare, digit. rewrite !N_ascii_embedding by lia.
  rewrite <-N2Z.inj_compare, !N2Z.inj_add, !Z2N.id by lia.
  simpl Z.of_N. apply Z.add_compare_mono_l.
Qed.

(** Comparing two numbers field by field, most significant first. *)
Lemma lex_compare a b x y B :
  0 ≤ x < B → 0 ≤ y < B →
  match a ?= b with Eq => x ?= y | Lt => Lt | Gt => Gt end = (a * B + x ?= b * B + y).
Proof.
  intros ??. destruct (Z.compare_spec a b) as [->|?|?].
  - symmetry. apply Z.add_compare_mono_l.
  - symmetry. apply Z.compare_lt_iff. nia.
  - symmetry. apply Z.compare_gt_iff. nia.
Qed.

Lemma compare_cons c1 c2 x y :
  String.compare (String c1 x) (String c2 y) =
  match Ascii.compare c1 c2 with Eq => String.compare x y | Lt => Lt | Gt => Gt end.
Proof. done. Qed.

Lemma compare_prefix p x y : String.compare (p +:+ x) (p +:+ y) = String.compare x y.
Proof.
  induction p as [|c p IH]; [done|]. simpl. unfold Ascii.compare.
  by rewrite N.compare_refl.
Qed.

Lemma string_app_cons c (s x : string) : String c s +:+ x = String c (s +:+ x).
Proof. done. Qed.

Lemma string_app_empty (x : string) : EmptyString +:+ x = x.
Proof. done. Qed.

Lemma pad2_compare a b x y :
  0 ≤ a ≤ 99 → 0 ≤ b ≤ 99 →
  String.compare (pad2 a +:+ x) (pad2 b +:+ y) =
  match a ?= b with Eq => String.compare x y | Lt => Lt | Gt => Gt end.
Proof.
  intros ??. unfold pad2. rewrite !string_app_cons, !string_app_empty.
  rewrite !compare_cons, !digit_compare by div_lia.
  destruct (Z.compare_spec ((a `div` 10) `mod` 10) ((b `div` 10) `mod` 10)),
    (Z.compare_spec (a `mod` 10) (b `mod` 10)), (Z.compare_spec a b);
    try done; exfalso; div_lia.
Qed.

(** The timestamp and the file name, field by field. *)
Lemma strftime_directive d c fmt :
  strftime d (String "%" (String c fmt)) = directive d c +:+ strftime d fmt.
Proof. cbn [strftime]. by rewrite bool_decide_true. Qed.

Lemma strftime_plain d c fmt :
  c ≠ "%"%char → strftime d (String c fmt) = String c (strftime d fmt).
Proof. intros ?. cbn [strftime]. by rewrite bool_decide_false. Qed.

Lemma strftime_fields d :
  strftime d "%Y%m%d_%H%M%S" =
  pad4 (year d) +:+ (pad2 (month d) +:+ (pad2 (day d) +:+ ("_" +:+ (pad2 (hour d) +:+
    (pad2 (minute d) +:+ (pad2 (second d) +:+ EmptyString)))))).
Proof.
  rewrite !strftime_directive, (strftime_plain d "_") by done.
  rewrite !strftime_directive.
  change (directive d "Y") with (pad4 (year d)).
  change (directive d "m") with (pad2 (month d)).
  change (directive d "d") with (pad2 (day d)).
  change (directive d "H") with (pad2 (hour d)).
  change (directive d "M") with (pad2 (minute d)).
  change (directive d "S") with (pad2 (second d)).
  done.
Qed.

Lemma artifact_name_fields d :
  0 ≤ year d ≤ 9999 →
  artifact_name d =
  "converted_" +:+ (pad2 (year d `div` 100) +:+ (pad2 (year d `mod` 100) +:+
    (pad2 (month d) +:+ (pad2 (day d) +:+ ("_" +:+ (pad2 (hour d) +:+
      (pad2 (minute d) +:+ (pad2 (second d) +:+ ".pdf")))))))).
Proof.
  intros Hy. unfold artifact_name. rewrite strftime_fields.
  assert (pad4 (year d) = pad2 (year d `div` 100) +:+ pad2 (year d `mod` 100)) as ->.
  { unfold pad4, pad2. rewrite !string_app_cons, string_app_empty.
    assert (((year d `div` 100) `div` 10) `mod` 10 = (year d `div` 1000) `mod` 10) as ->
      by div_lia.
    assert (((year d `mod` 100) `div` 10) `mod` 10 = (year d `div` 10) `mod` 10) as ->
      by div_lia.
    assert ((year d `mod` 100) `mod` 10 = year d `mod` 10) as -> by div_lia.
    assert ((year d `div` 100) `mod` 10 = (year d `div` 100) `mod` 10) as _ by done.
    done. }
  unfold pad2. by rewrite !string_app_cons, !string_app_empty.
Qed.

Lemma artifact_name_compare d1 d2 :
  valid_datetime d1 → valid_datetime d2 →
  String.compare (artifact_name d1) (artifact_name d2) = (second_key d1 ?= second_key d2).
Proof.
  intros (? & ? & ? & ? & ? & ? & ?) (? & ? & ? & ? & ? & ? & ?).
  rewrite !artifact_name_fields by lia.
  rewrite compare_prefix.
  rewrite !pad2_compare by div_lia.
  rewrite (compare_prefix "_").
  rewrite !pad2_compare by div_lia.
  change (String.compare ".pdf" ".pdf") with Eq.
  assert (match second d1 ?= second d2 with Eq => Eq | Lt => Lt | Gt => Gt end
          = (second d1 ?= second d2)) as -> by by destruct (_ ?= _).
  rewrite (lex_compare (minute d1) (minute d2) _ _ 100) by lia.
  rewrite (lex_compare (hour d1) (hour d2) _ _ 10000) by lia.
  rewrite (lex_compare (day d1) (day d2) _ _ 1000000) by lia.
  rewrite (lex_compare (month d1) (month d2) _ _ 100000000) by lia.
  rewrite (lex_compare (year d1 `mod` 100) (year d2 `mod` 100) _ _ 10000000000) by lia.
  rewrite (lex_compare (year d1 `div` 100) (year d2 `div` 100) _ _ 1000000000000)
    by div_lia.
  unfold second_key. f_equal; div_lia.
Qed.

(** *** The calendar *)

Lemma days_before_year_next y :
  days_before_year (y + 1) = days_before_year y + 365 + (if is_leap y then 1 else 0).
Proof.
  unfold days_before_year, is_leap. cbv zeta.
  replace (y + 1 - 1) with y by lia.
  repeat case_bool_decide; cbn [negb andb orb]; div_lia.
Qed.

Lemma days_before_year_mono y y' : y ≤ y' → days_before_year y ≤ days_before_year y'.
Proof. intros ?. unfold days_before_year. cbv zeta. div_lia. Qed.

Lemma month_cases m :
  1 ≤ m ≤ 12 →
  m = 1 ∨ m = 2 ∨ m = 3 ∨ m = 4 ∨ m = 5 ∨ m = 6 ∨ m = 7 ∨ m = 8 ∨ m = 9 ∨ m = 10
  ∨ m = 11 ∨ m = 12.
Proof. lia. Qed.

Ltac month_table :=
  repeat match goal with
  | |- context [Z.to_nat (Zpos ?p)] =>
      let v := eval vm_compute in (Z.to_nat (Zpos p)) in
      change (Z.to_nat (Zpos p)) with v
  end;
  vm_compute bool_decide; cbn [nth andb].

Lemma day_of_year_bound y m dd :
  1 ≤ m ≤ 12 → 1 ≤ dd ≤ days_in_month y m →
  1 ≤ days_before_month y m + dd ≤ 365 + (if is_leap y then 1 else 0).
Proof.
  intros Hm. unfold days_before_month, days_in_month.
  destruct (month_cases m Hm) as [->|[->|[->|[->|[->|[->|[->|[->|[->|[->|[->| ->]]]]]]]]]]];
    destruct (is_leap y); month_table; lia.
Qed.

Lemma day_of_year_lt y m1 m2 dd1 dd2 :
  1 ≤ m1 → m1 < m2 → m2 ≤ 12 → dd1 ≤ days_in_month y m1 → 1 ≤ dd2 →
  days_before_month y m1 + dd1 < days_before_month y m2 + dd2.
Proof.
  intros ?? ?. unfold days_before_month, days_in_month.
  destruct (month_cases m1 ltac:(lia))
    as [->|[->|[->|[->|[->|[->|[->|[->|[->|[->|[->| ->]]]]]]]]]]];
    destruct (month_cases m2 ltac:(lia))
      as [->|[->|[->|[->|[->|[->|[->|[->|[->|[->|[->| ->]]]]]]]]]]];
    try lia; destruct (is_leap y); month_table; lia.
Qed.

Lemma toordinal_lt d1 d2 :
  real_datetime d1 → real_datetime d2 →
  year d1 < year d2
  ∨ (year d1 = year d2 ∧ month d1 < month d2)
  ∨ (year d1 = year d2 ∧ month d1 = month d2 ∧ day d1 < day d2) →
  toordinal d1 < toordinal d2.
Proof.
  intros [(? & ? & ? & ? & ? & ? & ?) Hd1] [(? & ? & ? & ? & ? & ? & ?) Hd2] Hlt.
  unfold toordinal.
  pose proof (day_of_year_bound (year d1) (month d1) (day d1)).
  pose proof (day_of_year_bound (year d2) (month d2) (day d2)).
  destruct Hlt as [Hy|[[Hy Hm]|(Hy & Hm & Hd)]].
  - pose proof (days_before_year_next (year d1)).
    pose proof (days_before_year_mono (year d1 + 1) (year d2)).
    destruct (is_leap (year d1)), (is_leap (year d2)); lia.
  - rewrite Hy in *.
    pose proof (day_of_year_lt (year d2) (month d1) (month d2) (day d1) (day d2)). lia.
  - rewrite Hy, Hm. lia.
Qed.

(** A later second has a larger key. *)
Lemma second_key_lt d1 d2 :
  real_datetime d1 → real_datetime d2 →
  second_key d1 < second_key d2 → seconds_of d1 < seconds_of d2.
Proof.
  intros Hr1 Hr2 Hlt. pose proof (toordinal_lt d1 d2 Hr1 Hr2) as Hord.
  destruct Hr1 as [(? & ? & ? & ? & ? & ? & ?) _], Hr2 as [(? & ? & ? & ? & ? & ? & ?) _].
  unfold second_key in Hlt. unfold seconds_of.
  destruct (decide (year d1 = year d2 ∧ month d1 = month d2 ∧ day d1 = day d2))
    as [(Hy & Hm & Hd)|Hne].
  - unfold toordinal. rewrite Hy, Hm, Hd in *. lia.
  - assert (toordinal d1 < toordinal d2) by (apply Hord; lia). lia.
Qed.

Lemma microseconds_between_seconds d1 d2 :
  microseconds_between d1 d2 =
  (seconds_of d2 - seconds_of d1) * 1000000 + (microsecond d2 - microsecond d1).
Proof. unfold microseconds_between, seconds_of. lia. Qed.

(** A reading at least one second later has a later file name. *)
Lemma artifact_name_lt d1 d2 :
  real_datetime d1 → real_datetime d2 →
  1000000 ≤ microseconds_between d1 d2 →
  String.compare (artifact_name d1) (artifact_name d2) = Lt.
Proof.
  intros Hr1 Hr2 Hapart.
  rewrite artifact_name_compare by (apply Hr1 || apply Hr2).
  rewrite microseconds_between_seconds in Hapart.
  pose proof (second_key_lt d2 d1 Hr2 Hr1) as Hback.
  destruct Hr1 as [(? & ? & ? & ? & ? & ? & ?) _], Hr2 as [(? & ? & ? & ? & ? & ? & ?) _].
  apply Z.compare_lt_iff.
  destruct (Z.lt_trichotomy (second_key d1) (second_key d2)) as [?|[Heq|Hgt]]; [done|..].
  - exfalso. unfold second_key in Heq.
    assert (year d1 = year d2 ∧ month d1 = month d2 ∧ day d1 = day d2 ∧
            hour d1 = hour d2 ∧ minute d1 = minute d2 ∧ second d1 = second d2)
      as (Hy & Hm & Hd & HH & HM & HS) by lia.
    unfold seconds_of, toordinal in Hapart. rewrite Hy, Hm, Hd, HH, HM, HS in Hapart. lia.
  - exfalso. specialize (Hback Hgt). lia.
Qed.
End OrderFacts.

(** ** File names and time *)

Import OrderFacts.

(** X18. The files of one output directory sort by time: of two successful
    writes to the same directory whose clock readings are at least one
    second apart, the earlier one gets the path that comes first in the
    order of strings. *)
Theorem later_write_sorts_later (L : lib) (text1 text2 : string)
    (output_dir : option string) (s1 s1' s2 s2' : state) (path1 path2 : string) :
  OCRProcessor.save_to_pdf L text1 output_dir s1 = (Return path1, s1') →
  OCRProcessor.save_to_pdf L text2 output_dir s2 = (Return path2, s2') →
  real_datetime (clock s1) → real_datetime (clock s2) →
  1000000 ≤ microseconds_between (clock s1) (clock s2) →
  String.ltb path1 path2 = true.
Proof.
  intros Hw1 Hw2 Hr1 Hr2 Hapart.
  destruct (save_to_pdf_success L _ _ _ _ _ Hw1) as (-> & _).
  destruct (save_to_pdf_success L _ _ _ _ _ Hw2) as (-> & _).
  pose proof (artifact_name_lt _ _ Hr1 Hr2 Hapart) as Hlt.
  unfold String.ltb, os_path_join.
  change (starts_with_slash (artifact_name (clock s1))) with false.
  change (starts_with_slash (artifact_name (clock s2))) with false.
  cbn iota. destruct (_ || _).
  - by rewrite compare_prefix, Hlt.
  - by rewrite !compare_prefix, Hlt.
Qed.

Lemma later_write_sorts_later_witness :
  real_datetime Sample.noon ∧ real_datetime Sample.one_second_later ∧
  String.ltb "output/converted_20261103_120000.pdf" "output/converted_20261103_120001.pdf"
    = true.
Proof.
  assert (real_datetime (clock Sample.start)) as Hr1
    by (vm_compute; repeat split; discriminate).
  assert (real_datetime (clock (Sample.a_second_on Sample.after_first))) as Hr2
    by (vm_compute; repeat split; discriminate).
  assert (1000000 ≤ microseconds_between (clock Sample.start)
                      (clock (Sample.a_second_on Sample.after_first))) as Hapart
    by (vm_compute; discriminate).
  assert (OCRProcessor.save_to_pdf Sample.permissive "first" None Sample.start
          = (Return "output/converted_20261103_120000.pdf", Sample.after_first)) as Hw1
    by (vm_compute; reflexivity).
  assert (OCRProcessor.save_to_pdf Sample.permissive "second" None
            (Sample.a_second_on Sample.after_first)
          = (Return "output/converted_20261103_120001.pdf", Sample.after_second)) as Hw2
    by (vm_compute; reflexivity).
  split; [exact Hr1|]. split; [exact Hr2|].
  exact (later_write_sorts_later Sample.permissive "first" "second" None
           Sample.start Sample.after_first (Sample.a_second_on Sample.after_first)
           Sample.after_second _ _ Hw1 Hw2 Hr1 Hr2 Hapart).
Defined.
